(** * Masked-token construction of [training/train_maskgit_imagenet.py]

    A shallow embedding of the part of [main] that builds the masked
    training example ([train_step], [eval_step]) and of the set-up code that
    precedes it, together with the properties of the specification.

    Conventions of the embedding.
    - An integer tensor ([torch.int64]) is a list (1-D) or a list of rows
      (2-D) of [Z]; the arithmetic the code performs on such entries
      ([batch["class_id"] + vq_model.num_embeddings] and
      [-100 * torch.ones_like(class_ids)]) wraps modulo 2^64 as the tensor
      type does.
    - A floating-point tensor ([torch.float32]) is a list of [Q], the
      values of its entries.  What the script computes on such entries is
      rounded as binary32 arithmetic rounds it ([Torch.float32]): the cast
      of [min_masking_rate] in [clip], the cast of [seq_len] and of the
      ranks, the product [seq_len * mask_prob].  Infinities and NaN are
      not values of the embedding; a result beyond the binary32 range is
      kept as the rounded rational, which compares with the ranks as the
      infinity does.  The averages taken for logging ([Torch.mean]) and the
      sum of the evaluation losses add their entries exactly: the order in
      which the library adds them is not the script's.
    - A boolean tensor is a list of rows of [bool].
    - [torch.rand] reads the process-wide generator; the generator is an
      explicit state threaded through the calls.
    - A Python exception is the [Raise] alternative of [result]. *)

From Stdlib Require Import String Ascii DecimalString ZArith QArith Qround Qabs
  Qpower Lqa List Permutation Lia Bool.
From Stdlib Require DecimalNat SpecFloat.
Import ListNotations.

Set Implicit Arguments.

(** ** Exceptions

    The exceptions the script raises or lets through.  [PopFromEmptyList]
    is the IndexError of [list.pop] on an empty list and [StackError] the
    RuntimeError of [torch.stack], kept apart from those of the tensor
    operations and subscripts; [ExternalError] stands for what a
    collaborator raises. *)

Inductive exn : Type :=
| RuntimeError
| ValueError (msg : string)
| IndexError
| KeyError (key : string)
| StopIteration
| AssertionError
| TypeError
| PopFromEmptyList
| StackError
| UnboundLocalError (name : string)
| AttributeError (name : string)
| MissingMandatoryValue (key : string)
| ExternalError.

Inductive result (A : Type) : Type :=
| Ok (a : A)
| Raise (e : exn).

Arguments Ok {A} a.
Arguments Raise {A} e.

Definition bind {A B : Type} (r : result A) (k : A -> result B) : result B :=
  match r with
  | Ok a => k a
  | Raise e => Raise e
  end.

Notation "x <- r ;; k" := (bind r (fun x => k))
  (at level 61, r at next level, right associativity).

Definition is_ok {A : Type} (r : result A) : bool :=
  match r with Ok _ => true | Raise _ => false end.

(** ** The tensor operations the script calls *)

Module Torch.

(** The elementwise combination of two tensors of the same shape. *)
Fixpoint zip_with {A B C : Type} (f : A -> B -> C)
         (l1 : list A) (l2 : list B) : list C :=
  match l1, l2 with
  | a :: l1', b :: l2' => f a b :: zip_with f l1' l2'
  | _, _ => []
  end.

(** [t.shape] of a 2-D tensor given as a list of rows (a tensor without
    rows is given width 0; it has no entry for the width to matter). *)
Definition shape {A : Type} (t : list (list A)) : nat * nat :=
  (length t, match t with [] => 0%nat | r :: _ => length r end).

(** A list of rows is a tensor of shape (N, L). *)
Definition is_tensor {A : Type} (N L : nat) (t : list (list A)) : Prop :=
  length t = N /\ Forall (fun r => length r = L) t.

(** [x.clip(m)], [x.clamp(min=m)] on one entry: the larger of the two. *)
Definition clamp_min (x m : Q) : Q :=
  match (x ?= m)%Q with
  | Lt => m
  | _ => x
  end.

(** [x.round()] on one entry, as an integer: the nearest integer, a tie
    going to the even neighbour. *)
Definition round_half_even (x : Q) : Z :=
  let f := Qfloor x in
  match (x - inject_Z f ?= 1 # 2)%Q with
  | Lt => f
  | Gt => (f + 1)%Z
  | Eq => if Z.even f then f else (f + 1)%Z
  end.

(** [x.round()] keeps the floating-point type. *)
Definition round (x : Q) : Q := inject_Z (round_half_even x).

(** The largest k with 2^k <= q, for a positive q. *)
Definition floor_log2 (q : Q) : Z :=
  let k := (Z.log2 (Qnum q) - Z.log2 (Zpos (Qden q)))%Z in
  if Qle_bool (2 ^ k) q then k else (k - 1)%Z.

(** The exponent of the last place of the binary32 values around [q]: 24
    significant bits, and no place below 2^-149 (gradual underflow). *)
Definition float32_exponent (q : Q) : Z :=
  Z.max (floor_log2 (Qabs q) - 23) (-149).

(** The rounding of binary32 arithmetic: the binary32 value nearest to
    [q], a tie going to the even significand. *)
Definition float32 (q : Q) : Q :=
  let e := float32_exponent q in
  Qred (inject_Z (round_half_even (q / 2 ^ e)) * 2 ^ e).

(** [s * x] on one entry of a binary32 tensor, [s] a Python integer: the
    integer is cast and the product rounded. *)
Definition mul_int (s : Z) (x : Q) : Q :=
  float32 (float32 (inject_Z s) * x).

(** [row.argsort(dim=-1)]: the indices that sort the row in ascending
    order.  Entries are paired with their index and sorted by insertion;
    equal entries keep their index order (the library leaves their order
    open; the counting properties below use only that the result is a
    permutation of the indices). *)
Fixpoint insert_key (p : Q * nat) (l : list (Q * nat)) : list (Q * nat) :=
  match l with
  | [] => [p]
  | q :: l' =>
      if Qle_bool (fst p) (fst q) then p :: l else q :: insert_key p l'
  end.

Definition sort_keys (l : list (Q * nat)) : list (Q * nat) :=
  fold_right insert_key [] l.

Definition argsort (row : list Q) : list nat :=
  map snd (sort_keys (combine row (seq 0 (length row)))).

(** One entry of [batch_randperm < num_token_masked]: an integer entry
    compared with a binary32 one, after its cast to binary32. *)
Definition lt_entry (r : nat) (k : Q) : bool :=
  match (float32 (inject_Z (Z.of_nat r)) ?= k)%Q with
  | Lt => true
  | _ => false
  end.

(** [perm < k.unsqueeze(-1)]: row i of [perm] against entry i of [k]. *)
Definition lt_rows (perm : list (list nat)) (k : list Q) : list (list bool) :=
  zip_with (fun row ki => map (fun r => lt_entry r ki) row) perm k.

(** [torch.where(mask, s, t)] with a scalar [s]. *)
Definition where_scalar_tensor (mask : list (list bool)) (s : Z)
           (t : list (list Z)) : list (list Z) :=
  zip_with (zip_with (fun (m : bool) x => if m then s else x)) mask t.

(** [torch.where(mask, t, s)] with a scalar [s]. *)
Definition where_tensor_scalar (mask : list (list bool))
           (t : list (list Z)) (s : Z) : list (list Z) :=
  zip_with (zip_with (fun (m : bool) x => if m then x else s)) mask t.

(** Two's-complement wrap-around of [torch.int64] arithmetic. *)
Definition wrap_int64 (z : Z) : Z :=
  ((z + 2 ^ 63) mod 2 ^ 64 - 2 ^ 63)%Z.

Definition in_int64 (z : Z) : Prop := (- 2 ^ 63 <= z < 2 ^ 63)%Z.

(** [t + s] and [s * t] on a 1-D integer tensor. *)
Definition add_scalar (t : list Z) (s : Z) : list Z :=
  map (fun x => wrap_int64 (x + s)) t.

Definition mul_scalar (s : Z) (t : list Z) : list Z :=
  map (fun x => wrap_int64 (s * x)) t.

Definition ones_like (t : list Z) : list Z := map (fun _ => 1%Z) t.

(** [torch.cat([col.unsqueeze(-1), t], dim=-1)]: the column is put in
    front of every row; the two must have the same number of rows. *)
Definition cat_col (col : list Z) (t : list (list Z)) : result (list (list Z)) :=
  if Nat.eqb (length col) (length t)
  then Ok (zip_with cons col t)
  else Raise RuntimeError.

(** [x.repeat(n)] on a 1-D tensor. *)
Definition repeat_tensor {A : Type} (x : list A) (n : nat) : list A :=
  concat (repeat x n).

(** [torch.rand]: entries are drawn one after the other from the
    generator, row by row. *)
Fixpoint rand {Gen : Type} (uniform : Gen -> Q * Gen) (n : nat) (g : Gen)
  : list Q * Gen :=
  match n with
  | O => ([], g)
  | S n' =>
      let (x, g1) := uniform g in
      let (xs, g2) := rand uniform n' g1 in
      (x :: xs, g2)
  end.

Fixpoint rand2 {Gen : Type} (uniform : Gen -> Q * Gen) (n m : nat) (g : Gen)
  : list (list Q) * Gen :=
  match n with
  | O => ([], g)
  | S n' =>
      let (r, g1) := rand uniform m g in
      let (rs, g2) := rand2 uniform n' m g1 in
      (r :: rs, g2)
  end.

(** [x.mean()] of a 1-D floating-point tensor. *)
Definition mean (x : list Q) : Q :=
  (fold_right Qplus 0 x / inject_Z (Z.of_nat (length x)))%Q.

End Torch.

(** ** The script *)

Definition IGNORE_LABEL : Z := (-100)%Z.

(** [config.model.transformer] is handed to the model constructor as it is;
    its content is the constructor's business. *)
Record Config (TransformerArgs : Type) : Type := {
  model_vq_model_pretrained : string;
  model_transformer : TransformerArgs;
  dataset_path : string;
  dataset_streaming : bool;
  dataset_image_column : option string;
  dataset_label_column : option string;
  training_batch_size : nat;
  training_min_masking_rate : Q
}.

(** The tokenizer, as far as the script uses it: [vq_model.encode(x)[1]] and
    [vq_model.num_embeddings]. *)
Record VQModel (Pixels : Type) : Type := {
  encode : Pixels -> list (list Z);
  num_embeddings : Z
}.

(** The transformer, as far as the script uses it:
    [model.config.mask_token_id] and the loss of
    [model(input_ids=..., labels=...)]. *)
Record Transformer : Type := {
  mask_token_id : Z;
  forward : list (list Z) -> list (list Z) -> result Q
}.

(** A split of the loaded data set, as far as [main] looks at it: the names
    of its columns (the keys of its examples) and the number of its
    examples. *)
Record DatasetSplit : Type := {
  split_column_names : list string;
  split_num_rows : nat
}.

(** The collaborators that are not part of the script: the random generator
    behind [torch.rand], [muse.sampling.cosine_schedule] (entry by entry),
    the two model constructors, [datasets.load_dataset] (the dict of the
    splits it returns, in the torch format), [train_test_split] of a split
    (the two parts it returns under "train" and "test") and
    [accelerator.gather]. *)
Record Externals (Gen Pixels TransformerArgs : Type) : Type := {
  uniform : Gen -> Q * Gen;
  cosine_schedule : Q -> Q;
  MaskGitVQGAN_from_pretrained : string -> result (VQModel Pixels);
  MaskGitTransformer_init : TransformerArgs -> result Transformer;
  load_dataset : string -> bool -> result (list (string * DatasetSplit));
  train_test_split : DatasetSplit -> DatasetSplit * DatasetSplit;
  accelerator_gather : list Q -> list Q
}.

Record Batch (Pixels : Type) : Type := {
  pixel_values : Pixels;
  class_id : list Z
}.

(** What [logger.info] writes in [train_step]. *)
Inductive LogRecord : Type :=
| LogInputIds (t : list (list Z))
| LogLabels (t : list (list Z)).

(** The mutable state [train_step] touches: the generator and the log. *)
Record State (Gen : Type) : Type := {
  gen : Gen;
  log : list LogRecord
}.

(** The locals of [main] that the nested functions close over. *)
Record MainLocals (Pixels : Type) : Type := {
  vq_model : VQModel Pixels;
  model : Transformer;
  mask_id : Z;
  image_column : string;
  label_column : string;
  train_dataset : DatasetSplit;
  eval_dataset : DatasetSplit
}.

(** The locals of [train_step] once the inputs and labels are built. *)
Record MaskedInputs : Type := {
  input_ids : list (list Z);
  labels : list (list Z);
  mask_prob : list Q;
  mask : list (list bool)
}.

Definition dataset_name_mapping (path : string) : option (string * string) :=
  if String.eqb path "imagenet-1k" then Some ("image", "label")%string
  else if String.eqb path "cifar10" then Some ("img", "label")%string
  else None.

Definition one_of (column_names : list string) : string :=
  String.concat ", " column_names.

(** [image_column] in [main]. *)
Definition resolve_image_column (column_names : list string)
           (dataset_columns : option (string * string))
           (configured : option string) : result string :=
  match configured with
  | None =>
      match dataset_columns with
      | Some (c, _) => Ok c
      | None => match column_names with
                | c :: _ => Ok c
                | [] => Raise IndexError
                end
      end
  | Some c =>
      if existsb (String.eqb c) column_names then Ok c
      else Raise (ValueError ("--image_column' value '" ++ c
                              ++ "' needs to be one of: "
                              ++ one_of column_names)%string)
  end.

(** [label_column] in [main]. *)
Definition resolve_label_column (column_names : list string)
           (dataset_columns : option (string * string))
           (configured : option string) : result string :=
  match configured with
  | None =>
      match dataset_columns with
      | Some (_, c) => Ok c
      | None => match column_names with
                | _ :: c :: _ => Ok c
                | _ => Raise IndexError
                end
      end
  | Some c =>
      if existsb (String.eqb c) column_names then Ok c
      else Raise (ValueError ("--label_column' value '" ++ c
                              ++ "' needs to be one of: "
                              ++ one_of column_names)%string)
  end.

(** [d[k]] on the items of a dict, [None] for a missing key. *)
Fixpoint lookup_item {A : Type} (k : string) (items : list (string * A))
  : option A :=
  match items with
  | [] => None
  | (k', a) :: rest => if String.eqb k k' then Some a else lookup_item k rest
  end.

(** [key in d]. *)
Definition contains {A : Type} (d : list (string * A)) (key : string) : bool :=
  existsb (String.eqb key) (map fst d).

(** [d[key]] on a dict of splits. *)
Definition getsplit {A : Type} (d : list (string * A)) (key : string)
  : result A :=
  match lookup_item key d with
  | Some a => Ok a
  | None => Raise (KeyError key)
  end.

(** [column_names] in [main]: the keys of the first example of the train
    split when the data set is streamed, the column names of the train
    split otherwise. *)
Definition train_column_names (streaming : bool)
           (dataset : list (string * DatasetSplit)) : result (list string) :=
  train <- getsplit dataset "train" ;;
  if streaming
  then match split_num_rows train with
       | O => Raise StopIteration
       | S _ => Ok (split_column_names train)
       end
  else Ok (split_column_names train).

(** The choice of [train_dataset] and [eval_dataset] in [main];
    [train_test_split] is [d.train_test_split(test_size=0.1)], whose result
    holds the two parts under "train" and "test". *)
Definition choose_splits {D : Type} (train_test_split : D -> D * D)
           (streaming : bool) (dataset : list (string * D)) : result (D * D) :=
  let eval_split_name :=
    if contains dataset "validation" then "validation"%string
    else "test"%string in
  dataset <- (if negb (contains dataset eval_split_name) && negb streaming
              then train <- getsplit dataset "train" ;;
                   let (part, held_out) := train_test_split train in
                   Ok [("train"%string, part); ("test"%string, held_out)]
              else Ok dataset) ;;
  train_dataset <- getsplit dataset "train" ;;
  eval_dataset <- getsplit dataset eval_split_name ;;
  Ok (train_dataset, eval_dataset).

Section Script.

Variables Gen Pixels TransformerArgs : Type.
Variable ext : Externals Gen Pixels TransformerArgs.
Variable config : Config TransformerArgs.

(** The column names [main] reads off the loaded data set. *)
Definition load_dataset_column_names (path : string) (streaming : bool)
  : result (list string) :=
  dataset <- load_dataset ext path streaming ;;
  train_column_names streaming dataset.

(** [main] up to the definition of [train_step], as far as the script
    decides it: the models are built, the mask id is read off the model,
    the data set is loaded, the columns are resolved and the splits chosen.
    These are the steps that fix what [train_step] and [collate_fn] close
    over, and the ones where the script itself raises or subscripts.  The
    accelerator, the optimizer, the transforms, the data loaders, the
    scheduler and the trackers in between are library calls that are not
    part of [setup]: its [Ok] says that none of the steps listed here
    raised. *)
Definition setup : result (MainLocals Pixels) :=
  vq <- MaskGitVQGAN_from_pretrained ext (model_vq_model_pretrained config) ;;
  m <- MaskGitTransformer_init ext (model_transformer config) ;;
  let mask_id := mask_token_id m in
  dataset <- load_dataset ext (dataset_path config)
                          (dataset_streaming config) ;;
  column_names <- train_column_names (dataset_streaming config) dataset ;;
  let dataset_columns := dataset_name_mapping (dataset_path config) in
  image_column <- resolve_image_column column_names dataset_columns
                                       (dataset_image_column config) ;;
  label_column <- resolve_label_column column_names dataset_columns
                                       (dataset_label_column config) ;;
  splits <- choose_splits (train_test_split ext) (dataset_streaming config)
                          dataset ;;
  let (train_dataset, eval_dataset) := splits in
  Ok {| vq_model := vq; model := m; mask_id := mask_id;
        image_column := image_column; label_column := label_column;
        train_dataset := train_dataset; eval_dataset := eval_dataset |}.

Variable locals : MainLocals Pixels.

(** [train_step] from the encoding of the images to the two [torch.cat]. *)
Definition masked_inputs (batch : Batch Pixels) (g : Gen)
  : result MaskedInputs * Gen :=
  let image_tokens := encode (vq_model locals) (pixel_values batch) in
  let '(batch_size, seq_len) := Torch.shape image_tokens in
  let '(timesteps, g1) := Torch.rand (uniform ext) batch_size g in
  let mask_prob := map (cosine_schedule ext) timesteps in
  let mask_prob :=
    map (fun p => Torch.clamp_min
                    p (Torch.float32 (training_min_masking_rate config)))
        mask_prob in
  let num_token_masked :=
    map (fun p => Torch.clamp_min
                    (Torch.round (Torch.mul_int (Z.of_nat seq_len) p)) 1%Q)
        mask_prob in
  let '(noise, g2) := Torch.rand2 (uniform ext) batch_size seq_len g1 in
  let batch_randperm := map Torch.argsort noise in
  let mask := Torch.lt_rows batch_randperm num_token_masked in
  let input_ids :=
    Torch.where_scalar_tensor mask (mask_id locals) image_tokens in
  let labels := Torch.where_tensor_scalar mask image_tokens (-100) in
  let class_ids :=
    Torch.add_scalar (class_id batch) (num_embeddings (vq_model locals)) in
  (input_ids <- Torch.cat_col class_ids input_ids ;;
   labels <- Torch.cat_col
               (Torch.mul_scalar (-100) (Torch.ones_like class_ids)) labels ;;
   Ok {| input_ids := input_ids; labels := labels;
         mask_prob := mask_prob; mask := mask |},
   g2).

(** [train_step(batch, log_first_batch)]: (loss, avg_loss, avg_masking_rate). *)
Definition train_step (batch : Batch Pixels) (log_first_batch : bool)
           (st : State Gen) : result (Q * Q * Q) * State Gen :=
  let (r, g) := masked_inputs batch (gen st) in
  match r with
  | Raise e => (Raise e, {| gen := g; log := log st |})
  | Ok mi =>
      let log' :=
        if log_first_batch
        then log st ++ [LogInputIds (input_ids mi); LogLabels (labels mi)]
        else log st in
      let st' := {| gen := g; log := log' |} in
      match forward (model locals) (input_ids mi) (labels mi) with
      | Raise e => (Raise e, st')
      | Ok loss =>
          let avg_loss :=
            Torch.mean (accelerator_gather ext
                          (Torch.repeat_tensor [loss]
                             (training_batch_size config))) in
          let avg_masking_rate :=
            Torch.mean (accelerator_gather ext
                          (Torch.repeat_tensor (mask_prob mi)
                             (training_batch_size config))) in
          (Ok (loss, avg_loss, avg_masking_rate), st')
      end
  end.

(** [eval_step(batch)]. *)
Definition eval_step (batch : Batch Pixels) (st : State Gen)
  : result Q * State Gen :=
  let (r, st') := train_step batch false st in
  (x <- r ;; let '(_, avg_loss, _) := x in Ok avg_loss, st').

End Script.

(** [t[i, j]] of a 2-D tensor. *)
Definition entry {A : Type} (t : list (list A)) (i j : nat) : option A :=
  match nth_error t i with
  | Some row => nth_error row j
  | None => None
  end.

(** The number of masked token slots of one produced input row: the
    entries after the class slot that equal the mask id. *)
Definition count_masked (mask_id : Z) (row : list Z) : nat :=
  count_occ Z.eq_dec (tl row) mask_id.

(** The specification's count, over exact rationals:
    [clamp(round(L * mask_prob), 1, L)]. *)
Definition spec_clamp (x lo hi : Z) : Z := Z.min (Z.max x lo) hi.

Definition spec_num_masked (L : nat) (p : Q) : nat :=
  Z.to_nat (spec_clamp (Torch.round_half_even (inject_Z (Z.of_nat L) * p))
                       1 (Z.of_nat L)).

(** [k] is the integer nearest to [x], the even one of the two when [x]
    lies halfway between two integers. *)
Definition nearest_even (x : Q) (k : Z) : Prop :=
  (Qabs (x - inject_Z k) <= 1 # 2)%Q /\
  ((Qabs (x - inject_Z k) == 1 # 2)%Q -> Z.even k = true).

(** A binary32 value: a significand of at most 24 bits times a power of
    two that is at least 2^-149. *)
Definition representable32 (x : Q) : Prop :=
  exists m e : Z,
    (Z.abs m <= 2 ^ 24)%Z /\ (-149 <= e)%Z /\ (x == inject_Z m * 2 ^ e)%Q.

(** The value of a finite number of the Standard Library's IEEE 754
    formats, against which [Torch.float32] is checked below. *)
Definition spec_float_value (x : SpecFloat.spec_float) : Q :=
  match x with
  | SpecFloat.S754_finite s m e =>
      (inject_Z (if s then Z.neg m else Z.pos m) * 2 ^ e)%Q
  | _ => 0%Q
  end.

(** What [clip] leaves of the floor [min_masking_rate] under a clipped
    entry [p]: [p] is at least the rate as cast to binary32; for a rate in
    [0, 1) it is at least the rate less 2^-25; it is at least the rate when
    the rate is a binary32 value. *)
Definition floored_by (rate p : Q) : Prop :=
  (Torch.float32 rate <= p)%Q /\
  ((0 <= rate)%Q -> (rate < 1)%Q -> (rate - (1 # 33554432) <= p)%Q) /\
  (representable32 rate -> (rate <= p)%Q).

(** The keys of a list of (entry, index) pairs ascend. *)
Fixpoint ascending (l : list (Q * nat)) : Prop :=
  match l with
  | [] => True
  | p :: l' =>
      match l' with
      | [] => True
      | q :: _ => (fst p <= fst q)%Q
      end /\ ascending l'
  end.

(** The draws one call of [train_step] on a batch of shape (N, L) takes
    from the generator: first N timesteps, then N rows of L uniform
    values. *)
Definition drawn_timesteps {Gen Pixels TA : Type} (ext : Externals Gen Pixels TA)
           (N : nat) (g : Gen) : list Q :=
  fst (Torch.rand (uniform ext) N g).

Definition drawn_noise {Gen Pixels TA : Type} (ext : Externals Gen Pixels TA)
           (N L : nat) (g : Gen) : list (list Q) :=
  fst (Torch.rand2 (uniform ext) N L (snd (Torch.rand (uniform ext) N g))).

Definition generator_after {Gen Pixels TA : Type} (ext : Externals Gen Pixels TA)
           (N L : nat) (g : Gen) : Gen :=
  snd (Torch.rand2 (uniform ext) N L (snd (Torch.rand (uniform ext) N g))).

(** The quantities of [train_step] for one image: its masking probability
    from its timestep, its count from the probability, its mask row from
    the count and its row of uniform values. *)
Definition image_mask_prob {Gen Pixels TA : Type} (ext : Externals Gen Pixels TA)
           (config : Config TA) (t : Q) : Q :=
  Torch.clamp_min (cosine_schedule ext t)
                  (Torch.float32 (training_min_masking_rate config)).

Definition image_num_token_masked (seq_len : nat) (p : Q) : Q :=
  Torch.clamp_min (Torch.round (Torch.mul_int (Z.of_nat seq_len) p)) 1%Q.

Definition image_mask (seq_len : nat) (p : Q) (noise_row : list Q) : list bool :=
  map (fun r => Torch.lt_entry r (image_num_token_masked seq_len p))
      (Torch.argsort noise_row).

(** Every token of the tensor is a valid code of a vocabulary of size V. *)
Definition tokens_in_vocab (V : Z) (t : list (list Z)) : Prop :=
  Forall (Forall (fun x => (0 <= x < V)%Z)) t.

(** ** A run of the definitions

    A generator that replays a tape of draws, a tokenizer that returns the
    tokens it is given, and the example of the specification: L = 4, tokens
    5 6 7 8, class 2, V = 100, mask id 200, masking probability 1/2. *)

Module Demo.

Definition tape_uniform (g : list Q) : Q * list Q :=
  match g with
  | x :: g' => (x, g')
  | [] => (0%Q, [])
  end.

Definition vq (V : Z) : VQModel (list (list Z)) :=
  {| encode := fun px => px; num_embeddings := V |}.

Definition transformer (mid : Z) : Transformer :=
  {| mask_token_id := mid; forward := fun _ _ => Ok (1 # 4)%Q |}.

(** A data set with a train and a validation split of two columns. *)
Definition split (rows : nat) : DatasetSplit :=
  {| split_column_names := ["image"; "label"]%string;
     split_num_rows := rows |}.

Definition dataset : list (string * DatasetSplit) :=
  [("train", split 8); ("validation", split 2)]%string.

Definition ext (V mid : Z) : Externals (list Q) (list (list Z)) unit :=
  {| uniform := tape_uniform;
     cosine_schedule := fun t => (1 - t)%Q;
     MaskGitVQGAN_from_pretrained := fun _ => Ok (vq V);
     MaskGitTransformer_init := fun _ => Ok (transformer mid);
     load_dataset := fun _ _ => Ok dataset;
     train_test_split := fun d => (d, d);
     accelerator_gather := fun x => x |}.

Definition config (rate : Q) : Config unit :=
  {| model_vq_model_pretrained := "vqgan";
     model_transformer := tt;
     dataset_path := "imagenet-1k";
     dataset_streaming := false;
     dataset_image_column := None;
     dataset_label_column := None;
     training_batch_size := 1;
     training_min_masking_rate := rate |}.

Definition locals (V mid : Z) : MainLocals (list (list Z)) :=
  {| vq_model := vq V; model := transformer mid; mask_id := mid;
     image_column := "image"; label_column := "label";
     train_dataset := split 8; eval_dataset := split 2 |}.

Definition batch : Batch (list (list Z)) :=
  {| pixel_values := [[5; 6; 7; 8]%Z]; class_id := [2%Z] |}.

Definition tape : list Q :=
  [1 # 2; 3 # 10; 9 # 10; 1 # 10; 6 # 10]%Q.

(** One image whose token sequence is empty: shape (1, 0). *)
Definition empty_batch : Batch (list (list Z)) :=
  {| pixel_values := [[]]; class_id := [2%Z] |}.

(** The value of the Python float 0.7 and the binary32 value [clip] casts
    it to. *)
Definition python_float_0_7 : Q := 3152519739159347 # 4503599627370496.

Definition float32_0_7 : Q := 11744051 # 16777216.

(** One image of five tokens and a tape of binary32 draws for it: the
    timestep 1/2, then five uniform values. *)
Definition batch5 : Batch (list (list Z)) :=
  {| pixel_values := [[5; 6; 7; 8; 9]%Z]; class_id := [2%Z] |}.

Definition tape5 : list Q :=
  [1 # 2; 3 # 8; 7 # 8; 1 # 8; 5 # 8; 3 # 4]%Q.



End Demo.

(** ** The rest of the script

    The helpers of [main] around [train_step]: the flattening of the
    configuration for the trackers, the batch collation, the checkpoint
    hooks, the optimizer arguments and the evaluation loop. *)

Unset Implicit Arguments.

(** *** [flatten_omega_conf] *)

(** A configuration node as the function sees it: a [DictConfig] through
    [items_ex(resolve=...)], a [ListConfig] through [_iter_ex(resolve=...)],
    anything else as a plain value.  Both calls belong to the library and
    can raise: with [resolve=True] a missing mandatory value or an
    interpolation that does not resolve ends them with an exception. *)
#[warnings="-register-all"]
Inductive OmegaConf (V : Type) : Type :=
| Leaf (v : V)
| DictConfig (items_ex : bool -> result (list (string * OmegaConf V)))
| ListConfig (iter_ex : bool -> result (list (OmegaConf V))).

Arguments Leaf {V} v.
Arguments DictConfig {V} items_ex.
Arguments ListConfig {V} iter_ex.

(** [str(idx)] of a list index. *)
Definition str_of_nat (n : nat) : string :=
  NilEmpty.string_of_uint (Nat.to_uint n).

(** [[(f"{key}.{k1}", v1) for k1, v1 in sub]]: the body of [handle_dict]
    and of [handle_list] once the nested node is flattened. *)
Definition prefix_keys {V : Type} (key : string) (sub : list (string * V))
  : list (string * V) :=
  map (fun kv => ((key ++ "." ++ fst kv)%string, snd kv)) sub.

(** The loop of [flatten_omega_conf] over the items of a dict; [ret] is the
    list it extends and [flatten] the recursive call. *)
Fixpoint flatten_dict_items {V : Type}
         (flatten : OmegaConf V -> result (list (string * V)))
         (items : list (string * OmegaConf V)) (ret : list (string * V))
  : result (list (string * V)) :=
  match items with
  | [] => Ok ret
  | (k, v) :: rest =>
      match v with
      | Leaf x => flatten_dict_items flatten rest (ret ++ [(k, x)])
      | _ =>
          sub <- flatten v ;;
          flatten_dict_items flatten rest (ret ++ prefix_keys k sub)
      end
  end.

(** The loop over [enumerate] of the items of a list. *)
Fixpoint flatten_list_items {V : Type}
         (flatten : OmegaConf V -> result (list (string * V)))
         (items : list (OmegaConf V)) (idx : nat) (ret : list (string * V))
  : result (list (string * V)) :=
  match items with
  | [] => Ok ret
  | v :: rest =>
      match v with
      | Leaf x =>
          flatten_list_items flatten rest (S idx)
                             (ret ++ [(str_of_nat idx, x)])
      | _ =>
          sub <- flatten v ;;
          flatten_list_items flatten rest (S idx)
                             (ret ++ prefix_keys (str_of_nat idx) sub)
      end
  end.

(** [flatten_omega_conf(cfg, resolve)]. *)
Fixpoint flatten_omega_conf {V : Type} (cfg : OmegaConf V) (resolve : bool)
  : result (list (string * V)) :=
  match cfg with
  | DictConfig items_ex =>
      match items_ex resolve with
      | Ok items =>
          flatten_dict_items (fun v => flatten_omega_conf v resolve) items []
      | Raise e => Raise e
      end
  | ListConfig iter_ex =>
      match iter_ex resolve with
      | Ok items =>
          flatten_list_items (fun v => flatten_omega_conf v resolve)
                             items 0 []
      | Raise e => Raise e
      end
  | Leaf _ => Raise AssertionError
  end.

(** The first exception of a call of [items_ex] or [_iter_ex] met when the
    nodes below a container are visited in order, each container read
    before its items; [None] when every call returns. *)
Fixpoint dict_read_error {V : Type} (read_error : OmegaConf V -> option exn)
         (items : list (string * OmegaConf V)) : option exn :=
  match items with
  | [] => None
  | (_, v) :: rest =>
      match read_error v with
      | Some e => Some e
      | None => dict_read_error read_error rest
      end
  end.

Fixpoint list_read_error {V : Type} (read_error : OmegaConf V -> option exn)
         (items : list (OmegaConf V)) : option exn :=
  match items with
  | [] => None
  | v :: rest =>
      match read_error v with
      | Some e => Some e
      | None => list_read_error read_error rest
      end
  end.

Fixpoint read_error {V : Type} (cfg : OmegaConf V) (resolve : bool)
  : option exn :=
  match cfg with
  | Leaf _ => None
  | DictConfig items_ex =>
      match items_ex resolve with
      | Ok items => dict_read_error (fun v => read_error v resolve) items
      | Raise e => Some e
      end
  | ListConfig iter_ex =>
      match iter_ex resolve with
      | Ok items => list_read_error (fun v => read_error v resolve) items
      | Raise e => Some e
      end
  end.

(** The plain values below a node, each with the path of keys and indices
    that leads to it (a container that cannot be read has none). *)
Fixpoint dict_paths {V : Type} (paths : OmegaConf V -> list (list string * V))
         (items : list (string * OmegaConf V)) : list (list string * V) :=
  match items with
  | [] => []
  | (k, v) :: rest =>
      map (fun pv => (k :: fst pv, snd pv)) (paths v) ++ dict_paths paths rest
  end.

Fixpoint list_paths {V : Type} (paths : OmegaConf V -> list (list string * V))
         (items : list (OmegaConf V)) (idx : nat) : list (list string * V) :=
  match items with
  | [] => []
  | v :: rest =>
      map (fun pv => (str_of_nat idx :: fst pv, snd pv)) (paths v)
      ++ list_paths paths rest (S idx)
  end.

Fixpoint leaf_paths {V : Type} (cfg : OmegaConf V) (resolve : bool)
  : list (list string * V) :=
  match cfg with
  | Leaf v => [([], v)]
  | DictConfig items_ex =>
      match items_ex resolve with
      | Ok items => dict_paths (fun v => leaf_paths v resolve) items
      | Raise _ => []
      end
  | ListConfig iter_ex =>
      match iter_ex resolve with
      | Ok items => list_paths (fun v => leaf_paths v resolve) items 0
      | Raise _ => []
      end
  end.

(** The dotted name of a path. *)
Definition dotted (path : list string) : string := String.concat "." path.

(** [l[idx]] on the items of a list, the index given by its decimal name. *)
Fixpoint lookup_index {A : Type} (k : string) (items : list A) (idx : nat)
  : option A :=
  match items with
  | [] => None
  | a :: rest =>
      if String.eqb k (str_of_nat idx) then Some a
      else lookup_index k rest (S idx)
  end.

(** The plain value a path leads to. *)
Fixpoint select {V : Type} (path : list string) (cfg : OmegaConf V)
         (resolve : bool) : option V :=
  match path, cfg with
  | [], Leaf v => Some v
  | k :: path', DictConfig items_ex =>
      match items_ex resolve with
      | Ok items =>
          match lookup_item k items with
          | Some child => select path' child resolve
          | None => None
          end
      | Raise _ => None
      end
  | k :: path', ListConfig iter_ex =>
      match iter_ex resolve with
      | Ok items =>
          match lookup_index k items 0 with
          | Some child => select path' child resolve
          | None => None
          end
      | Raise _ => None
      end
  | _, _ => None
  end.

(** No character of the string is a dot. *)
Fixpoint dot_free (s : string) : bool :=
  match s with
  | EmptyString => true
  | String c s' => negb (Ascii.eqb c ".") && dot_free s'
  end.

(** A property of every node in a list of items. *)
Fixpoint all_nodes {V : Type} (P : OmegaConf V -> Prop)
         (items : list (OmegaConf V)) : Prop :=
  match items with
  | [] => True
  | v :: rest => P v /\ all_nodes P rest
  end.

(** A property of the node of every item of a dict. *)
Fixpoint all_items {V : Type} (P : OmegaConf V -> Prop)
         (items : list (string * OmegaConf V)) : Prop :=
  match items with
  | [] => True
  | (_, v) :: rest => P v /\ all_items P rest
  end.

(** The keys of every dict below the node are pairwise different, as the
    keys of a dict are. *)
Fixpoint unique_keys {V : Type} (cfg : OmegaConf V) (resolve : bool) : Prop :=
  match cfg with
  | Leaf _ => True
  | DictConfig items_ex =>
      match items_ex resolve with
      | Ok items =>
          NoDup (map fst items) /\
          all_items (fun v => unique_keys v resolve) items
      | Raise _ => True
      end
  | ListConfig iter_ex =>
      match iter_ex resolve with
      | Ok items => all_nodes (fun v => unique_keys v resolve) items
      | Raise _ => True
      end
  end.

(** No key of a dict below the node contains a dot. *)
Fixpoint plain_keys {V : Type} (cfg : OmegaConf V) (resolve : bool) : Prop :=
  match cfg with
  | Leaf _ => True
  | DictConfig items_ex =>
      match items_ex resolve with
      | Ok items =>
          Forall (fun k => dot_free k = true) (map fst items) /\
          all_items (fun v => plain_keys v resolve) items
      | Raise _ => True
      end
  | ListConfig iter_ex =>
      match iter_ex resolve with
      | Ok items => all_nodes (fun v => plain_keys v resolve) items
      | Raise _ => True
      end
  end.

(** A node the function accepts at the top: a dict or a list. *)
Definition is_container {V : Type} (cfg : OmegaConf V) : bool :=
  match cfg with
  | Leaf _ => false
  | _ => true
  end.

(** The entries the paths stand for: the dotted name with the value. *)
Definition entries_of_paths {V : Type} (l : list (list string * V))
  : list (string * V) :=
  map (fun pv => (dotted (fst pv), snd pv)) l.



(** *** [collate_fn] *)

(** A value of an example: an image tensor or an integer label.  An example
    is a dict from column names to such values. *)
Inductive Field (Image : Type) : Type :=
| ImageField (img : Image)
| LabelField (label : Z).

Arguments ImageField {Image} img.
Arguments LabelField {Image} label.

(** [[f(x) for x in xs]], the first exception ending the comprehension. *)
Fixpoint comprehension {A B : Type} (f : A -> result B) (xs : list A)
  : result (list B) :=
  match xs with
  | [] => Ok []
  | x :: rest =>
      y <- f x ;;
      ys <- comprehension f rest ;;
      Ok (y :: ys)
  end.

(** [example[key]]. *)
Definition getitem {Image : Type} (example : list (string * Field Image))
           (key : string) : result (Field Image) :=
  match lookup_item key example with
  | Some f => Ok f
  | None => Raise (KeyError key)
  end.

Definition as_image {Image : Type} (f : Field Image) : result Image :=
  match f with
  | ImageField img => Ok img
  | LabelField _ => Raise TypeError
  end.

Definition as_label {Image : Type} (f : Field Image) : result Z :=
  match f with
  | LabelField z => Ok z
  | ImageField _ => Raise TypeError
  end.

(** [torch.stack(tensors)]: every element a tensor, at least one of them,
    all of one shape; the stacked tensor is the list of the images. *)
Definition torch_stack {Image : Type} (image_shape : Image -> list nat)
           (fields : list (Field Image)) : result (list Image) :=
  images <- comprehension as_image fields ;;
  match images with
  | [] => Raise StackError
  | first :: rest =>
      if forallb (fun img =>
                    if list_eq_dec Nat.eq_dec (image_shape img)
                                   (image_shape first)
                    then true else false) rest
      then Ok images
      else Raise StackError
  end.

(** [torch.tensor(labels)] on a list of integers. *)
Definition torch_tensor {Image : Type} (fields : list (Field Image))
  : result (list Z) :=
  comprehension as_label fields.

(** [collate_fn(examples)]; the images are floating-point tensors already,
    [.float()] leaves them as they are. *)
Definition collate_fn {Image : Type} (image_shape : Image -> list nat)
           (image_column label_column : string)
           (examples : list (list (string * Field Image)))
  : result (Batch (list Image)) :=
  images <- comprehension (fun example => getitem example image_column)
                          examples ;;
  pixel_values <- torch_stack image_shape images ;;
  labels <- comprehension (fun example => getitem example label_column)
                          examples ;;
  class_id <- torch_tensor labels ;;
  Ok {| pixel_values := pixel_values; class_id := class_id |}.


(** *** The checkpoint hooks *)

(** [l.pop()]: the last element is taken off the list; [None] when the
    list is empty. *)
Definition pop {A : Type} (l : list A) : option (list A * A) :=
  match rev l with
  | [] => None
  | x :: r => Some (rev r, x)
  end.

(** [save_model_hook(models, weights, output_dir)].  [weights] is the list
    of the caller, emptied in place one element per model; [saved] records
    the calls of [save_pretrained]. *)
Fixpoint save_model_hook {Model Weight : Type}
         (models : list Model) (weights : list Weight) (output_dir : string)
         (saved : list (Model * string))
  : result unit * (list Weight * list (Model * string)) :=
  match models with
  | [] => (Ok tt, (weights, saved))
  | model :: rest =>
      let saved := saved ++ [(model, output_dir)] in
      match pop weights with
      | None => (Raise PopFromEmptyList, (weights, saved))
      | Some (weights, _) => save_model_hook rest weights output_dir saved
      end
  end.

(** A model object on the heap: its configuration and its parameters. *)
Record ModelObject (Cfg SD : Type) : Type := {
  object_config : Cfg;
  object_state : SD
}.

Arguments object_config {Cfg SD} m.
Arguments object_state {Cfg SD} m.

(** The heap maps a reference to the object it names. *)
Definition store_update {A : Type} (store : nat -> A) (ref : nat) (a : A)
  : nat -> A :=
  fun r => if Nat.eqb r ref then a else store r.

(** [load_model_hook(models, input_dir)]: [models] is a list of references,
    emptied in place from its end; every turn of the [while] loads the
    checkpoint anew and writes its configuration and its parameters into
    the model taken off the list.  [fuel] bounds the turns of the loop;
    [None] is a loop that has not ended within them. *)
Fixpoint load_model_hook {Cfg SD : Type}
         (from_pretrained : string -> result (ModelObject Cfg SD))
         (register_to_config : Cfg -> Cfg -> Cfg)
         (load_state_dict : SD -> SD -> result SD)
         (fuel : nat) (models : list nat) (input_dir : string)
         (store : nat -> ModelObject Cfg SD)
  : option (result unit * (list nat * (nat -> ModelObject Cfg SD))) :=
  match fuel with
  | O => None
  | S fuel' =>
      if Nat.ltb 0 (length models) then
        match pop models with
        | None => Some (Raise PopFromEmptyList, (models, store))
        | Some (models, model) =>
            match from_pretrained input_dir with
            | Raise e => Some (Raise e, (models, store))
            | Ok load_model =>
                let registered :=
                  {| object_config :=
                       register_to_config (object_config (store model))
                                          (object_config load_model);
                     object_state := object_state (store model) |} in
                let store := store_update store model registered in
                match load_state_dict (object_state (store model))
                                      (object_state load_model) with
                | Raise e => Some (Raise e, (models, store))
                | Ok state =>
                    let loaded :=
                      {| object_config := object_config (store model);
                         object_state := state |} in
                    load_model_hook from_pretrained register_to_config
                                    load_state_dict fuel' models input_dir
                                    (store_update store model loaded)
                end
            end
        end
      else Some (Ok tt, (models, store))
  end.


(** *** The evaluation loop of [main] *)

(** [eval_loss] starts as the integer 0 and becomes a tensor with the
    first loss added to it. *)
Inductive EvalLoss : Type :=
| IntZero
| TensorLoss (q : Q).

(** [eval_loss += eval_step(batch)]. *)
Definition add_loss (eval_loss : EvalLoss) (avg_loss : Q) : EvalLoss :=
  match eval_loss with
  | IntZero => TensorLoss (0 + avg_loss)
  | TensorLoss q => TensorLoss (q + avg_loss)
  end.

(** The [for i, batch in enumerate(eval_dataloader)] of the evaluation.
    The dataloader is given by what each fetch of a next batch comes to: the
    batch, or the exception raised while it is built (by the transform of
    the data set or by [collate_fn]), which ends the loop.  [i] is the local
    of [main] the loop assigns, unbound ([None]) until a loop has run;
    [num_images] is [batch["pixel_values"].shape[0]]. *)
Fixpoint evaluation_for {Gen Pixels TA : Type}
         (ext : Externals Gen Pixels TA) (config : Config TA)
         (locals : MainLocals Pixels) (num_images : Pixels -> nat)
         (max_eval_examples : Z)
         (fetches : list (result (Batch Pixels))) (idx : nat)
         (i : option nat)
         (eval_loss : EvalLoss) (num_eval_examples : Z) (st : State Gen)
  : result (option nat * EvalLoss) * State Gen :=
  match fetches with
  | [] => (Ok (i, eval_loss), st)
  | Raise e :: _ => (Raise e, st)
  | Ok batch :: rest =>
      let i := Some idx in
      let (r, st) := eval_step ext config locals batch st in
      match r with
      | Raise e => (Raise e, st)
      | Ok avg_loss =>
          let eval_loss := add_loss eval_loss avg_loss in
          let num_eval_examples :=
            (num_eval_examples
             + Z.of_nat (num_images (pixel_values batch)))%Z in
          if (max_eval_examples <=? num_eval_examples)%Z
          then (Ok (i, eval_loss), st)
          else evaluation_for ext config locals num_images max_eval_examples
                              rest (S idx) i eval_loss num_eval_examples st
      end
  end.

(** The evaluation of [main], from [eval_loss = 0] to the value handed to
    [accelerator.log] as [eval_loss.item()]; the second component is [i]
    afterwards. *)
Definition evaluation {Gen Pixels TA : Type}
           (ext : Externals Gen Pixels TA) (config : Config TA)
           (locals : MainLocals Pixels) (num_images : Pixels -> nat)
           (max_eval_examples : Z)
           (eval_dataloader : list (result (Batch Pixels))) (i : option nat)
           (st : State Gen)
  : result (Q * option nat) * State Gen :=
  let (r, st) :=
    evaluation_for ext config locals num_images max_eval_examples
                   eval_dataloader 0 i IntZero 0 st in
  match r with
  | Raise e => (Raise e, st)
  | Ok (i, eval_loss) =>
      match i with
      | None => (Raise (UnboundLocalError "i"), st)
      | Some n =>
          match eval_loss with
          | IntZero => (Raise (AttributeError "item"), st)
          | TensorLoss q =>
              (Ok ((q / inject_Z (Z.of_nat n + 1))%Q, i), st)
          end
      end
  end.

(** [eval_step] on the batches one after the other: the losses and the
    state at the end. *)
Fixpoint eval_steps {Gen Pixels TA : Type}
         (ext : Externals Gen Pixels TA) (config : Config TA)
         (locals : MainLocals Pixels)
         (batches : list (Batch Pixels)) (st : State Gen)
  : result (list Q) * State Gen :=
  match batches with
  | [] => (Ok [], st)
  | batch :: rest =>
      let (r, st) := eval_step ext config locals batch st in
      match r with
      | Raise e => (Raise e, st)
      | Ok avg_loss =>
          let (rs, st) := eval_steps ext config locals rest st in
          (losses <- rs ;; Ok (avg_loss :: losses), st)
      end
  end.

(** The number of examples in a list of batches. *)
Definition examples_in {Pixels : Type} (num_images : Pixels -> nat)
           (batches : list (Batch Pixels)) : Z :=
  fold_right (fun batch n => (Z.of_nat (num_images (pixel_values batch)) + n)%Z)
             0%Z batches.

(** The batches a dataloader hands over before a fetch raises. *)
Fixpoint fetched {B : Type} (fetches : list (result B)) : list B :=
  match fetches with
  | Ok batch :: rest => batch :: fetched rest
  | _ => []
  end.


(** *** Counting the supervised positions *)

(** The number of token slots of one label row that enter the loss: the
    entries after the class slot that differ from the ignore label. *)
Definition count_supervised (row : list Z) : nat :=
  length (filter (fun x => negb (Z.eqb x IGNORE_LABEL)) (tl row)).

(** *** The optimizer arguments of [main] *)

(** [config.optimizer.params]. *)
Record OptimizerParams : Type := {
  learning_rate : Q;
  scale_lr : bool;
  beta1 : Q;
  beta2 : Q;
  weight_decay : Q;
  epsilon : Q
}.

(** The keyword arguments [AdamW] is called with. *)
Record AdamWArguments : Type := {
  adamw_lr : Q;
  adamw_betas : Q * Q;
  adamw_weight_decay : Q;
  adamw_eps : Q
}.

(** The lines of [main] from [optimizer_config = config.optimizer.params]
    to the call of [AdamW]: the local [learning_rate] and the arguments of
    the call. *)
Definition optimizer_arguments (optimizer_config : OptimizerParams)
           (training_batch_size num_processes gradient_accumulation_steps : Z)
  : Q * AdamWArguments :=
  let learning_rate_local := learning_rate optimizer_config in
  let learning_rate_local :=
    if scale_lr optimizer_config
    then (learning_rate_local
          * inject_Z training_batch_size
          * inject_Z num_processes
          * inject_Z gradient_accumulation_steps)%Q
    else learning_rate_local in
  (learning_rate_local,
   {| adamw_lr := learning_rate optimizer_config;
      adamw_betas := (beta1 optimizer_config, beta2 optimizer_config);
      adamw_weight_decay := weight_decay optimizer_config;
      adamw_eps := epsilon optimizer_config |}).


(** *** The configuration handed to the trackers *)

(** [d[k] = v] on a dict kept in insertion order. *)
Fixpoint dict_set {A : Type} (d : list (string * A)) (k : string) (v : A)
  : list (string * A) :=
  match d with
  | [] => [(k, v)]
  | (k', a) :: rest =>
      if String.eqb k k' then (k, v) :: rest else (k', a) :: dict_set rest k v
  end.

(** [{k: v for k, v in pairs}]. *)
Definition dict_comprehension {A : Type} (pairs : list (string * A))
  : list (string * A) :=
  fold_left (fun d kv => dict_set d (fst kv) (snd kv)) pairs [].

(** The [config=] argument of [accelerator.init_trackers] in [main]: built
    on the main process only. *)
Definition tracker_configuration {V : Type} (is_main_process : bool)
           (config : OmegaConf V) : result (option (list (string * V))) :=
  if is_main_process
  then pairs <- flatten_omega_conf config true ;;
       Ok (Some (dict_comprehension pairs))
  else Ok None.

(** *** Sample values for the runs below *)

Module Sample.

(** A configuration with a nested dict, a list and an interpolated value
    that reads 0 until it is resolved. *)
Definition tracker_config : OmegaConf Z :=
  DictConfig (fun resolve =>
    Ok [("training",
         DictConfig (fun _ =>
           Ok [("seed", Leaf 7%Z);
               ("steps", ListConfig (fun _ => Ok [Leaf 10%Z; Leaf 20%Z]));
               ("unused", DictConfig (fun _ => Ok []))]));
        ("lr", Leaf (if resolve then 3%Z else 0%Z))]%string).

(** A configuration with a mandatory value that is missing: reading the
    items of "training" raises once values are resolved. *)
Definition missing_config : OmegaConf Z :=
  DictConfig (fun _ =>
    Ok [("lr", Leaf 3%Z);
        ("training",
         DictConfig (fun resolve =>
           if resolve then Raise (MissingMandatoryValue "training.seed")
           else Ok [("seed", Leaf 0%Z)]))]%string).

(** Images as rows of pixels; the shape is (rows, columns of the first
    row). *)
Definition image_shape (img : list (list Q)) : list nat :=
  [length img; match img with [] => 0%nat | r :: _ => length r end].

Definition examples : list (list (string * Field (list (list Q)))) :=
  [[("image", ImageField [[1 # 2; 0]%Q]); ("label", LabelField 3)];
   [("label", LabelField 8); ("image", ImageField [[1; 1 # 4]%Q])]]%string.

(** A tokenizer over these images: two tokens per image, whatever the
    pixels. *)
Definition vq (V : Z) : VQModel (list (list (list Q))) :=
  {| encode := fun images => map (fun _ => [4; 9]%Z) images;
     num_embeddings := V |}.

Definition ext (V mid : Z)
  : Externals (list Q) (list (list (list Q))) unit :=
  {| uniform := Demo.tape_uniform;
     cosine_schedule := fun t => (1 - t)%Q;
     MaskGitVQGAN_from_pretrained := fun _ => Ok (vq V);
     MaskGitTransformer_init := fun _ => Ok (Demo.transformer mid);
     load_dataset := fun _ _ => Ok Demo.dataset;
     train_test_split := fun d => (d, d);
     accelerator_gather := fun x => x |}.

Definition locals (V mid : Z) : MainLocals (list (list (list Q))) :=
  {| vq_model := vq V; model := Demo.transformer mid; mask_id := mid;
     image_column := "image"; label_column := "label";
     train_dataset := Demo.split 8; eval_dataset := Demo.split 2 |}.

Definition tape : list Q :=
  [1 # 2; 1 # 4; 3 # 10; 9 # 10; 6 # 10; 1 # 10]%Q.

End Sample.

(** * Properties *)

Unset Implicit Arguments.

(** ** The spec's own example runs as written *)

Example demo_run :
  fst (masked_inputs (Demo.ext 100 200) (Demo.config 0) (Demo.locals 100 200)
                     Demo.batch Demo.tape)
  = Ok {| input_ids := [[102; 5; 200; 7; 200]%Z];
          labels := [[-100; -100; 6; -100; 8]%Z];
          mask_prob := [((1 - (1 # 2)))%Q];
          mask := [[false; true; false; true]] |}.
Proof. vm_compute. reflexivity. Qed.

(** ** Binary32 rounding *)

Section Float32Facts.

Import Torch.

Lemma pow2_pos e : (0 < 2 ^ e)%Q.
Proof. apply Qpower_0_lt. reflexivity. Qed.

Lemma pow2_nz e : ~ (2 ^ e == 0)%Q.
Proof. intro H. pose proof (pow2_pos e). rewrite H in H0. discriminate. Qed.

Lemma pow2_plus a b : (2 ^ (a + b) == 2 ^ a * 2 ^ b)%Q.
Proof. apply Qpower_plus. discriminate. Qed.

Lemma pow2_le a b : (a <= b)%Z -> (2 ^ a <= 2 ^ b)%Q.
Proof. intros. apply Qpower_le_compat_l; [assumption | discriminate]. Qed.

Lemma pow2_lt a b : (a < b)%Z -> (2 ^ a < 2 ^ b)%Q.
Proof. intros. apply Qpower_lt_compat_l; [assumption | reflexivity]. Qed.

Lemma pow2_lt_inv a b : (2 ^ a < 2 ^ b)%Q -> (a < b)%Z.
Proof. intros. apply (Qpower_lt_compat_l_inv 2); [assumption | reflexivity]. Qed.

Lemma pow2_inject (n : Z) : (0 <= n)%Z -> (2 ^ n == inject_Z (2 ^ n))%Q.
Proof. intros. symmetry. apply (Zpower_Qpower 2 n). assumption. Qed.

(** *** floor_log2 *)

Lemma floor_log2_spec q :
  (0 < q)%Q -> (2 ^ floor_log2 q <= q /\ q < 2 ^ (floor_log2 q + 1))%Q.
Proof.
  intros Hq. unfold floor_log2.
  destruct q as [n d]. simpl Qnum. simpl Qden.
  assert (Hn : (0 < n)%Z).
  { unfold Qlt in Hq. simpl in Hq. lia. }
  set (a := Z.log2 n). set (b := Z.log2 (Z.pos d)).
  assert (Ha : (2 ^ a <= n < 2 ^ (a + 1))%Z).
  { unfold a. pose proof (Z.log2_spec n Hn). rewrite <- Z.add_1_r in H. lia. }
  assert (Hb : (2 ^ b <= Z.pos d < 2 ^ (b + 1))%Z).
  { unfold b. pose proof (Z.log2_spec (Z.pos d) ltac:(lia)).
    rewrite <- Z.add_1_r in H. lia. }
  assert (Ha0 : (0 <= a)%Z) by apply Z.log2_nonneg.
  assert (Hb0 : (0 <= b)%Z) by apply Z.log2_nonneg.
  (* n/d = n * 2^-? ... bounds in Q *)
  assert (Hnd : (n # d == inject_Z n / inject_Z (Z.pos d))%Q).
  { rewrite Qmake_Qdiv. reflexivity. }
  assert (Hdpos : (0 < inject_Z (Z.pos d))%Q) by reflexivity.
  assert (HA1 : (2 ^ a <= inject_Z n)%Q).
  { rewrite pow2_inject by lia. rewrite <- Zle_Qle. lia. }
  assert (HA2 : (inject_Z n < 2 ^ (a + 1))%Q).
  { rewrite pow2_inject by lia. rewrite <- Zlt_Qlt. lia. }
  assert (HB1 : (2 ^ b <= inject_Z (Z.pos d))%Q).
  { rewrite pow2_inject by lia. rewrite <- Zle_Qle. lia. }
  assert (HB2 : (inject_Z (Z.pos d) < 2 ^ (b + 1))%Q).
  { rewrite pow2_inject by lia. rewrite <- Zlt_Qlt. lia. }
  (* lower: 2^(a-b-1) < n/d ; upper: n/d < 2^(a-b+1) *)
  assert (Hlow : (2 ^ (a - b - 1) * inject_Z (Z.pos d) < inject_Z n)%Q).
  { eapply Qlt_le_trans; [|exact HA1].
    replace a with ((a - b - 1) + (b + 1))%Z at 2 by lia.
    rewrite pow2_plus. apply Qmult_lt_l; [apply pow2_pos | exact HB2]. }
  assert (Hupp : (inject_Z n < 2 ^ (a - b + 1) * inject_Z (Z.pos d))%Q).
  { eapply Qlt_le_trans; [exact HA2|].
    replace (a + 1)%Z with ((a - b + 1) + b)%Z by lia.
    rewrite pow2_plus. apply Qmult_le_l; [apply pow2_pos | exact HB1]. }
  assert (Hdiv : forall x, (x * inject_Z (Z.pos d) <= inject_Z n)%Q <-> (x <= n # d)%Q).
  { intros x. rewrite Hnd. split; intros H.
    - apply Qle_shift_div_l; assumption.
    - apply (Qmult_le_r _ _ (/ inject_Z (Z.pos d))).
      + apply Qinv_lt_0_compat; assumption.
      + rewrite <- Qmult_assoc, Qmult_inv_r, Qmult_1_r by discriminate.
        exact H. }
  assert (Hdivlt : forall x, (inject_Z n < x * inject_Z (Z.pos d))%Q <-> (n # d < x)%Q).
  { intros x. rewrite Hnd. split; intros H.
    - apply Qlt_shift_div_r; assumption.
    - apply (Qmult_lt_r _ _ (/ inject_Z (Z.pos d))).
      + apply Qinv_lt_0_compat; assumption.
      + rewrite <- (Qmult_assoc x), Qmult_inv_r, Qmult_1_r by discriminate.
        exact H. }
  destruct (Qle_bool (2 ^ (a - b)) (n # d)) eqn:E.
  - apply Qle_bool_iff in E. split; [exact E|].
    apply Hdivlt. exact Hupp.
  - split.
    + apply Hdiv. apply Qlt_le_weak. exact Hlow.
    + replace (a - b - 1 + 1)%Z with (a - b)%Z by lia.
      apply Qnot_le_lt. intro H. apply Qle_bool_iff in H. congruence.
Qed.

Lemma floor_log2_unique q k :
  (2 ^ k <= q)%Q -> (q < 2 ^ (k + 1))%Q -> floor_log2 q = k.
Proof.
  intros H1 H2.
  assert (Hq : (0 < q)%Q) by (eapply Qlt_le_trans; [apply (pow2_pos k)|exact H1]).
  destruct (floor_log2_spec q Hq) as [H3 H4].
  assert ((k < floor_log2 q + 1)%Z).
  { apply pow2_lt_inv. eapply Qle_lt_trans; eassumption. }
  assert ((floor_log2 q < k + 1)%Z).
  { apply pow2_lt_inv. eapply Qle_lt_trans; eassumption. }
  lia.
Qed.

Lemma floor_log2_mono q1 q2 :
  (0 < q1)%Q -> (q1 <= q2)%Q -> (floor_log2 q1 <= floor_log2 q2)%Z.
Proof.
  intros H0 H.
  assert (H0' : (0 < q2)%Q) by (eapply Qlt_le_trans; eassumption).
  destruct (floor_log2_spec q1 H0) as [A1 A2].
  destruct (floor_log2_spec q2 H0') as [B1 B2].
  assert ((floor_log2 q1 < floor_log2 q2 + 1)%Z); [|lia].
  apply pow2_lt_inv.
  eapply Qle_lt_trans; [exact A1|]. eapply Qle_lt_trans; eassumption.
Qed.

Lemma floor_log2_comp q1 q2 : (0 < q1)%Q -> (q1 == q2)%Q -> floor_log2 q1 = floor_log2 q2.
Proof.
  intros H0 H. destruct (floor_log2_spec q1 H0) as [A1 A2].
  symmetry. apply floor_log2_unique; rewrite <- H; assumption.
Qed.

(** *** round_half_even *)

Lemma round_half_even_comp x y :
  (x == y)%Q -> round_half_even x = round_half_even y.
Proof.
  intros H. unfold round_half_even.
  rewrite (Qfloor_comp _ _ H).
  assert (E : (x - inject_Z (Qfloor y) ?= 1 # 2)%Q
              = (y - inject_Z (Qfloor y) ?= 1 # 2)%Q).
  { apply Qcompare_comp; [rewrite H|]; reflexivity. }
  rewrite E. reflexivity.
Qed.

Lemma round_half_even_bounds x :
  (inject_Z (round_half_even x) - (1 # 2) <= x
   /\ x <= inject_Z (round_half_even x) + (1 # 2))%Q.
Proof.
  pose proof (Qfloor_le x) as Hlo. pose proof (Qlt_floor x) as Hhi.
  rewrite inject_Z_plus in Hhi.
  change (inject_Z 1) with 1%Q in Hhi.
  unfold round_half_even.
  destruct (x - inject_Z (Qfloor x) ?= 1 # 2)%Q eqn:E.
  - apply Qeq_alt in E. destruct (Z.even (Qfloor x)).
    + split; lra.
    + rewrite inject_Z_plus. change (inject_Z 1) with 1%Q. split; lra.
  - apply Qlt_alt in E. split; lra.
  - apply Qgt_alt in E. rewrite inject_Z_plus. change (inject_Z 1) with 1%Q.
    split; lra.
Qed.

Lemma round_half_even_tie_even x :
  (Qabs (x - inject_Z (round_half_even x)) == 1 # 2)%Q ->
  Z.even (round_half_even x) = true.
Proof.
  pose proof (Qfloor_le x) as Hlo. pose proof (Qlt_floor x) as Hhi.
  rewrite inject_Z_plus in Hhi.
  change (inject_Z 1) with 1%Q in Hhi.
  unfold round_half_even.
  destruct (x - inject_Z (Qfloor x) ?= 1 # 2)%Q eqn:E.
  - intros _. destruct (Z.even (Qfloor x)) eqn:Ev; [exact Ev|].
    rewrite Z.even_add, Ev. reflexivity.
  - apply Qlt_alt in E. intros H.
    rewrite Qabs_pos in H by lra. lra.
  - apply Qgt_alt in E. rewrite inject_Z_plus. change (inject_Z 1) with 1%Q.
    intros H. rewrite Qabs_neg in H by lra. lra.
Qed.

Lemma round_half_even_nearest_even x : nearest_even x (round_half_even x).
Proof.
  split.
  - destruct (round_half_even_bounds x). apply Qabs_Qle_condition. split; lra.
  - apply round_half_even_tie_even.
Qed.

Lemma nearest_even_unique x k1 k2 :
  nearest_even x k1 -> nearest_even x k2 -> k1 = k2.
Proof.
  intros [A1 A2] [B1 B2].
  apply Qabs_Qle_condition in A1. apply Qabs_Qle_condition in B1.
  destruct (Z.lt_trichotomy k1 k2) as [H|[H|H]]; [|exact H|].
  - assert (k2 = k1 + 1)%Z.
    { assert (inject_Z k2 <= inject_Z (k1 + 1))%Q
        by (rewrite inject_Z_plus; change (inject_Z 1) with 1%Q; lra).
      rewrite <- Zle_Qle in H0. lia. }
    subst k2. rewrite inject_Z_plus in *. change (inject_Z 1) with 1%Q in *.
    assert (E1 : (x - inject_Z k1 == 1 # 2)%Q) by lra.
    assert (E2 : (x - (inject_Z k1 + 1) == - (1 # 2))%Q) by lra.
    rewrite E1 in A2. rewrite E2 in B2.
    specialize (A2 ltac:(reflexivity)). specialize (B2 ltac:(reflexivity)).
    rewrite Z.even_add in B2. rewrite A2 in B2. discriminate.
  - assert (k1 = k2 + 1)%Z.
    { assert (inject_Z k1 <= inject_Z (k2 + 1))%Q
        by (rewrite inject_Z_plus; change (inject_Z 1) with 1%Q; lra).
      rewrite <- Zle_Qle in H0. lia. }
    subst k1. rewrite inject_Z_plus in *. change (inject_Z 1) with 1%Q in *.
    assert (E1 : (x - inject_Z k2 == 1 # 2)%Q) by lra.
    assert (E2 : (x - (inject_Z k2 + 1) == - (1 # 2))%Q) by lra.
    rewrite E1 in B2. rewrite E2 in A2.
    specialize (A2 ltac:(reflexivity)). specialize (B2 ltac:(reflexivity)).
    rewrite Z.even_add in A2. rewrite B2 in A2. discriminate.
Qed.

Lemma round_half_even_Z (z : Z) : round_half_even (inject_Z z) = z.
Proof.
  symmetry. apply (nearest_even_unique (inject_Z z)).
  - split.
    + setoid_replace (inject_Z z - inject_Z z)%Q with 0%Q by ring. discriminate.
    + setoid_replace (inject_Z z - inject_Z z)%Q with 0%Q by ring. discriminate.
  - apply round_half_even_nearest_even.
Qed.

Lemma round_half_even_opp x : round_half_even (- x) = (- round_half_even x)%Z.
Proof.
  symmetry. apply (nearest_even_unique (- x)).
  - destruct (round_half_even_nearest_even x) as [A B].
    assert (E : (- x - inject_Z (- round_half_even x)
                 == - (x - inject_Z (round_half_even x)))%Q).
    { rewrite inject_Z_opp. ring. }
    split.
    + rewrite E, Qabs_opp. exact A.
    + rewrite E, Qabs_opp. intros H. rewrite Z.even_opp. auto.
  - apply round_half_even_nearest_even.
Qed.

Lemma round_half_even_mono x y :
  (x <= y)%Q -> (round_half_even x <= round_half_even y)%Z.
Proof.
  intros H.
  destruct (Z.le_gt_cases (round_half_even x) (round_half_even y)) as [|Hgt];
    [assumption|].
  exfalso.
  destruct (round_half_even_bounds x) as [X1 X2].
  destruct (round_half_even_bounds y) as [Y1 Y2].
  assert (Hd : (inject_Z (round_half_even y) + 1 <= inject_Z (round_half_even x))%Q).
  { change 1%Q with (inject_Z 1). rewrite <- inject_Z_plus, <- Zle_Qle. lia. }
  assert (Exy : (x == y)%Q) by lra.
  rewrite (round_half_even_comp _ _ Exy) in Hgt. lia.
Qed.


(** *** float32 *)

Lemma float32_eq q :
  (float32 q
   == inject_Z (round_half_even (q / 2 ^ float32_exponent q))
      * 2 ^ float32_exponent q)%Q.
Proof. unfold float32. apply Qred_correct. Qed.

Lemma Qabs_pos_eq q : (0 <= q)%Q -> Qabs q = q.
Proof.
  destruct q as [n d]. unfold Qle, Qabs. simpl. intros H.
  rewrite Z.abs_eq by lia. reflexivity.
Qed.

Lemma Qabs_opp_eq q : Qabs (- q) = Qabs q.
Proof. destruct q as [n d]. unfold Qabs, Qopp. simpl. now rewrite Z.abs_opp. Qed.

Lemma float32_exponent_opp q : float32_exponent (- q) = float32_exponent q.
Proof. unfold float32_exponent. now rewrite Qabs_opp_eq. Qed.

Lemma float32_exponent_comp q1 q2 :
  (0 < q1)%Q -> (q1 == q2)%Q -> float32_exponent q1 = float32_exponent q2.
Proof.
  intros H0 H. unfold float32_exponent.
  rewrite (Qabs_pos_eq q1) by lra. rewrite (Qabs_pos_eq q2) by lra.
  now rewrite (floor_log2_comp q1 q2).
Qed.

Lemma float32_zero q : (q == 0)%Q -> (float32 q == 0)%Q.
Proof.
  intros H. rewrite !float32_eq.
  rewrite (round_half_even_comp _ 0).
  - change (round_half_even 0) with 0%Z. ring.
  - unfold Qdiv.
    transitivity (0 * / 2 ^ float32_exponent q)%Q; [|ring].
    apply Qmult_comp; [exact H | reflexivity].
Qed.

Lemma float32_opp q : (float32 (- q) == - float32 q)%Q.
Proof.
  rewrite !float32_eq. rewrite float32_exponent_opp.
  rewrite (round_half_even_comp (- q / 2 ^ float32_exponent q)
                                (- (q / 2 ^ float32_exponent q))).
  - rewrite round_half_even_opp, inject_Z_opp. ring.
  - unfold Qdiv. ring.
Qed.

Lemma float32_comp_pos q1 q2 :
  (0 < q1)%Q -> (q1 == q2)%Q -> (float32 q1 == float32 q2)%Q.
Proof.
  intros H0 H. rewrite !float32_eq.
  rewrite (float32_exponent_comp q1 q2 H0 H).
  rewrite (round_half_even_comp (q1 / 2 ^ float32_exponent q2)
                                (q2 / 2 ^ float32_exponent q2)).
  - reflexivity.
  - now rewrite H.
Qed.

Lemma float32_comp q1 q2 : (q1 == q2)%Q -> (float32 q1 == float32 q2)%Q.
Proof.
  intros H.
  destruct (Q_dec q1 0) as [[Hneg|Hpos]|Hz].
  - assert (E : (float32 (- q1) == float32 (- q2))%Q).
    { apply float32_comp_pos; [lra | now rewrite H]. }
    rewrite !float32_opp in E. lra.
  - now apply float32_comp_pos.
  - rewrite (float32_zero q1 Hz). rewrite float32_zero; [reflexivity|].
    now rewrite <- H.
Qed.

#[export] Instance float32_proper : Proper (Qeq ==> Qeq) float32.
Proof. intros x y H. now apply float32_comp. Qed.

(** Scaling by a power of two. *)
Lemma div_pow2_lt q e c : (q < c * 2 ^ e)%Q -> (q / 2 ^ e < c)%Q.
Proof. intros H. apply Qlt_shift_div_r; [apply pow2_pos | exact H]. Qed.

Lemma div_pow2_le q e c : (c * 2 ^ e <= q)%Q -> (c <= q / 2 ^ e)%Q.
Proof. intros H. apply Qle_shift_div_l; [apply pow2_pos | exact H]. Qed.

Lemma div_pow2_mono q1 q2 e : (q1 <= q2)%Q -> (q1 / 2 ^ e <= q2 / 2 ^ e)%Q.
Proof.
  intros H. unfold Qdiv. apply Qmult_le_compat_r; [exact H|].
  apply Qlt_le_weak, Qinv_lt_0_compat, pow2_pos.
Qed.

Lemma mul_pow2_mono (a b : Z) e :
  (a <= b)%Z -> (inject_Z a * 2 ^ e <= inject_Z b * 2 ^ e)%Q.
Proof.
  intros H. apply Qmult_le_compat_r.
  - now rewrite <- Zle_Qle.
  - apply Qlt_le_weak, pow2_pos.
Qed.

(** The scaled significand of a positive value lies below 2^24, and at or
    above 2^23 unless the exponent is the smallest one. *)
Lemma float32_significand_upper q :
  (0 < q)%Q -> (q / 2 ^ float32_exponent q < 2 ^ 24)%Q.
Proof.
  intros Hq. apply div_pow2_lt. rewrite <- pow2_plus.
  destruct (floor_log2_spec q Hq) as [_ H].
  eapply Qlt_le_trans; [exact H|]. apply pow2_le.
  unfold float32_exponent. rewrite (Qabs_pos_eq q) by lra. lia.
Qed.

Lemma float32_significand_lower q :
  (0 < q)%Q -> (-149 < float32_exponent q)%Z ->
  (2 ^ 23 <= q / 2 ^ float32_exponent q)%Q.
Proof.
  intros Hq He. apply div_pow2_le. rewrite <- pow2_plus.
  destruct (floor_log2_spec q Hq) as [H _].
  eapply Qle_trans; [|exact H]. apply pow2_le.
  unfold float32_exponent in *. rewrite (Qabs_pos_eq q) in * by lra. lia.
Qed.

Lemma float32_exponent_mono q1 q2 :
  (0 < q1)%Q -> (q1 <= q2)%Q -> (float32_exponent q1 <= float32_exponent q2)%Z.
Proof.
  intros H0 H. unfold float32_exponent.
  rewrite (Qabs_pos_eq q1) by lra. rewrite (Qabs_pos_eq q2) by lra.
  pose proof (floor_log2_mono q1 q2 H0 H). lia.
Qed.

Lemma float32_nonneg q : (0 <= q)%Q -> (0 <= float32 q)%Q.
Proof.
  intros H. rewrite !float32_eq. apply Qmult_le_0_compat.
  - change 0%Q with (inject_Z 0). rewrite <- Zle_Qle.
    rewrite <- (round_half_even_Z 0). apply round_half_even_mono.
    change (inject_Z 0) with 0%Q.
    apply Qle_shift_div_l; [apply pow2_pos | lra].
  - apply Qlt_le_weak, pow2_pos.
Qed.

Lemma float32_mono_pos q1 q2 :
  (0 < q1)%Q -> (q1 <= q2)%Q -> (float32 q1 <= float32 q2)%Q.
Proof.
  intros H0 H.
  assert (H0' : (0 < q2)%Q) by lra.
  pose proof (float32_exponent_mono q1 q2 H0 H) as He.
  rewrite !float32_eq.
  destruct (Z.eq_dec (float32_exponent q1) (float32_exponent q2)) as [E|E].
  - rewrite E. apply mul_pow2_mono, round_half_even_mono, div_pow2_mono, H.
  - assert (Hlt : (float32_exponent q1 < float32_exponent q2)%Z) by lia.
    assert (H149 : (-149 <= float32_exponent q1)%Z)
      by (unfold float32_exponent; lia).
    apply Qle_trans with (2 ^ (float32_exponent q2 + 23))%Q.
    + apply Qle_trans with (2 ^ (24 + float32_exponent q1))%Q;
        [|apply pow2_le; lia].
      rewrite pow2_plus.
      apply Qmult_le_compat_r; [|apply Qlt_le_weak, pow2_pos].
      rewrite (pow2_inject 24) by lia. rewrite <- Zle_Qle.
      rewrite <- (round_half_even_Z (2 ^ 24)).
      apply round_half_even_mono. rewrite <- (pow2_inject 24) by lia.
      apply Qlt_le_weak, float32_significand_upper, H0.
    + rewrite Z.add_comm, pow2_plus.
      apply Qmult_le_compat_r; [|apply Qlt_le_weak, pow2_pos].
      rewrite (pow2_inject 23) by lia. rewrite <- Zle_Qle.
      rewrite <- (round_half_even_Z (2 ^ 23)).
      apply round_half_even_mono. rewrite <- (pow2_inject 23) by lia.
      apply float32_significand_lower; [exact H0' | lia].
Qed.

(** Rounding to binary32 is monotone. *)
Lemma float32_mono q1 q2 : (q1 <= q2)%Q -> (float32 q1 <= float32 q2)%Q.
Proof.
  intros H.
  destruct (Qlt_le_dec 0 q1) as [H1|H1].
  - now apply float32_mono_pos.
  - destruct (Qlt_le_dec q2 0) as [H2|H2].
    + assert (E : (float32 (- q2) <= float32 (- q1))%Q)
        by (apply float32_mono_pos; lra).
      rewrite !float32_opp in E. lra.
    + assert (E : (0 <= float32 (- q1))%Q) by (apply float32_nonneg; lra).
      rewrite float32_opp in E.
      pose proof (float32_nonneg q2 H2). lra.
Qed.

Lemma float32_representable q : representable32 (float32 q).
Proof.
  assert (Hpos : forall q, (0 < q)%Q -> representable32 (float32 q)).
  { intros x Hx.
    exists (round_half_even (x / 2 ^ float32_exponent x)), (float32_exponent x).
    split; [|split; [unfold float32_exponent; lia | apply float32_eq]].
    assert (0 <= round_half_even (x / 2 ^ float32_exponent x) <= 2 ^ 24)%Z; [|lia].
    split.
    - rewrite <- (round_half_even_Z 0). apply round_half_even_mono.
      change (inject_Z 0) with 0%Q.
      apply Qle_shift_div_l; [apply pow2_pos | lra].
    - apply Z.le_trans with (round_half_even (inject_Z (2 ^ 24)));
        [|rewrite round_half_even_Z; lia].
      apply round_half_even_mono. rewrite <- (pow2_inject 24) by lia.
      apply Qlt_le_weak, float32_significand_upper, Hx. }
  destruct (Q_dec q 0) as [[Hneg|Hp]|Hz].
  - destruct (Hpos (- q)%Q ltac:(lra)) as (m & e & Hm & He & E).
    exists (- m)%Z, e. split; [lia|]. split; [exact He|].
    rewrite float32_opp in E. rewrite inject_Z_opp. lra.
  - now apply Hpos.
  - exists 0%Z, 0%Z. split; [simpl; lia|]. split; [lia|].
    rewrite (float32_zero q Hz). reflexivity.
Qed.

Lemma float32_fixes_pos (m e : Z) :
  (0 < m < 2 ^ 24)%Z -> (-149 <= e)%Z ->
  (float32 (inject_Z m * 2 ^ e) == inject_Z m * 2 ^ e)%Q.
Proof.
  intros Hm He.
  set (x := (inject_Z m * 2 ^ e)%Q).
  set (b := Z.log2 m).
  assert (Hb : (2 ^ b <= m < 2 ^ (b + 1))%Z).
  { unfold b. pose proof (Z.log2_spec m ltac:(lia)).
    rewrite <- Z.add_1_r in H. lia. }
  assert (Hb0 : (0 <= b)%Z) by apply Z.log2_nonneg.
  assert (Hb23 : (b <= 23)%Z).
  { assert (b < 24)%Z; [|lia]. apply (Z.pow_lt_mono_r_iff 2); lia. }
  assert (Hx : (0 < x)%Q).
  { unfold x. apply Qmult_lt_0_compat; [|apply pow2_pos].
    change 0%Q with (inject_Z 0). rewrite <- Zlt_Qlt. lia. }
  assert (Hfl : floor_log2 x = (b + e)%Z).
  { apply floor_log2_unique; unfold x.
    - rewrite pow2_plus. apply Qmult_le_compat_r;
        [|apply Qlt_le_weak, pow2_pos].
      rewrite pow2_inject by lia. rewrite <- Zle_Qle. lia.
    - replace (b + e + 1)%Z with ((b + 1) + e)%Z by lia.
      rewrite pow2_plus. apply Qmult_lt_r; [apply pow2_pos|].
      rewrite pow2_inject by lia. rewrite <- Zlt_Qlt. lia. }
  rewrite !float32_eq.
  assert (HE : float32_exponent x = Z.max (b + e - 23) (-149)).
  { unfold float32_exponent. rewrite (Qabs_pos_eq x) by lra. now rewrite Hfl. }
  rewrite HE. set (E := Z.max (b + e - 23) (-149)).
  assert (Hd : (0 <= e - E)%Z) by (unfold E; lia).
  assert (Hscaled : (x / 2 ^ E == inject_Z (m * 2 ^ (e - E)))%Q).
  { unfold x. rewrite inject_Z_mult, <- (pow2_inject (e - E)) by lia.
    replace e with ((e - E) + E)%Z at 1 by lia.
    rewrite pow2_plus. field. apply pow2_nz. }
  rewrite (round_half_even_comp _ _ Hscaled), round_half_even_Z.
  unfold x. rewrite inject_Z_mult, <- (pow2_inject (e - E)) by lia.
  replace e with ((e - E) + E)%Z at 2 by lia.
  rewrite pow2_plus. ring.
Qed.

(** Rounding leaves a binary32 value as it is. *)
Lemma float32_fixes x : representable32 x -> (float32 x == x)%Q.
Proof.
  intros (m & e & Hm & He & E). rewrite E.
  assert (Hpos : forall m e, (0 < m <= 2 ^ 24)%Z -> (-149 <= e)%Z ->
            (float32 (inject_Z m * 2 ^ e) == inject_Z m * 2 ^ e)%Q).
  { intros m' e' Hm' He'.
    destruct (Z.eq_dec m' (2 ^ 24)) as [->|Hne].
    - assert (E' : (inject_Z (2 ^ 24) * 2 ^ e' == inject_Z (2 ^ 23) * 2 ^ (e' + 1))%Q).
      { rewrite pow2_plus. change (2 ^ 1)%Q with 2%Q.
        change (inject_Z (2 ^ 24)) with (inject_Z (2 ^ 23) * 2)%Q. ring. }
      rewrite E'. apply float32_fixes_pos; lia.
    - apply float32_fixes_pos; lia. }
  destruct (Z.lt_trichotomy m 0) as [H|[H|H]].
  - assert (E' : (inject_Z m * 2 ^ e == - (inject_Z (- m) * 2 ^ e))%Q)
      by (rewrite inject_Z_opp; ring).
    rewrite E', float32_opp. rewrite Hpos by lia. reflexivity.
  - subst m. rewrite float32_zero; ring.
  - apply Hpos; lia.
Qed.

Lemma float32_idempotent q : (float32 (float32 q) == float32 q)%Q.
Proof. apply float32_fixes, float32_representable. Qed.

(** An integer of at most 24 bits is a binary32 value. *)
Lemma float32_inject_Z (n : Z) :
  (Z.abs n <= 2 ^ 24)%Z -> (float32 (inject_Z n) == inject_Z n)%Q.
Proof.
  intros H. apply float32_fixes. exists n, 0%Z.
  split; [exact H|]. split; [lia|]. change (2 ^ 0)%Q with 1%Q. ring.
Qed.

(** The rounding error is at most half a unit in the last place. *)
Lemma float32_error q :
  (Qabs (float32 q - q) <= (1 # 2) * 2 ^ float32_exponent q)%Q.
Proof.
  rewrite !float32_eq. set (e := float32_exponent q).
  destruct (round_half_even_bounds (q / 2 ^ e)) as [A B].
  set (k := inject_Z (round_half_even (q / 2 ^ e))) in *.
  pose proof (pow2_pos e) as Hp.
  assert (Eq : (q == q / 2 ^ e * 2 ^ e)%Q) by (field; apply pow2_nz).
  apply Qabs_Qle_condition. split.
  - assert ((k - q / 2 ^ e) * 2 ^ e >= - (1 # 2) * 2 ^ e)%Q.
    { apply Qmult_le_compat_r; lra. }
    lra.
  - assert ((k - q / 2 ^ e) * 2 ^ e <= (1 # 2) * 2 ^ e)%Q.
    { apply Qmult_le_compat_r; lra. }
    lra.
Qed.

(** Below 1 the error is at most 2^-25. *)
Lemma float32_error_below_1 q :
  (0 <= q)%Q -> (q < 1)%Q -> (Qabs (float32 q - q) <= 1 # 33554432)%Q.
Proof.
  intros H0 H1.
  destruct (Qeq_dec q 0) as [Hz|Hnz].
  - rewrite (float32_zero q Hz), Hz. discriminate.
  - assert (Hq : (0 < q)%Q) by lra.
    eapply Qle_trans; [apply float32_error|].
    assert (He : (float32_exponent q <= -24)%Z).
    { unfold float32_exponent. rewrite (Qabs_pos_eq q) by lra.
      destruct (floor_log2_spec q Hq) as [A _].
      assert (floor_log2 q < 0)%Z; [|lia].
      apply pow2_lt_inv. change (2 ^ 0)%Q with 1%Q. lra. }
    apply Qle_trans with ((1 # 2) * 2 ^ (-24))%Q.
    + apply Qmult_le_l; [reflexivity | apply pow2_le, He].
    + vm_compute. discriminate.
Qed.


(** A binary32 value nearest to [q]: none is closer. *)
Lemma float32_nearest_pos (q y : Q) :
  (0 < q)%Q -> representable32 y ->
  (Qabs (q - Torch.float32 q) <= Qabs (q - y))%Q.
Proof.
  intros Hq (m & e & Hm & He & Ey).
  set (E := Torch.float32_exponent q).
  set (x := (q / 2 ^ E)%Q).
  assert (Hqx : (q == x * 2 ^ E)%Q) by (unfold x; field; apply pow2_nz).
  pose proof (pow2_pos E) as HpE.
  assert (Hf : (Torch.float32 q == inject_Z (Torch.round_half_even x) * 2 ^ E)%Q)
    by apply float32_eq.
  destruct (round_half_even_nearest_even x) as [Hnear _].
  (* the distance of q to a multiple k 2^E is |x - k| 2^E *)
  assert (Hdist : forall k : Z,
             (Qabs (q - inject_Z k * 2 ^ E) == Qabs (x - inject_Z k) * 2 ^ E)%Q).
  { intros k.
    setoid_replace (q - inject_Z k * 2 ^ E)%Q
      with ((x - inject_Z k) * 2 ^ E)%Q by (unfold x; field; apply pow2_nz).
    rewrite Qabs_Qmult, (Qabs_pos (2 ^ E)) by lra. reflexivity. }
  (* an integer is at least as far from x as the rounding, unless x lies
     within 1/2 of it, where it is the rounding or the other neighbour of a
     tie *)
  assert (Hint : forall k : Z,
             (Qabs (x - inject_Z (Torch.round_half_even x))
              <= Qabs (x - inject_Z k))%Q).
  { intros k. destruct (round_half_even_bounds x) as [B1 B2].
    destruct (Z.lt_trichotomy k (Torch.round_half_even x)) as [Hk|[Hk|Hk]].
    - assert (inject_Z k + 1 <= inject_Z (Torch.round_half_even x))%Q
        by (change 1%Q with (inject_Z 1);
            rewrite <- inject_Z_plus, <- Zle_Qle; lia).
      rewrite (Qabs_pos (x - inject_Z k)) by lra.
      apply Qabs_Qle_condition. split; lra.
    - subst k. apply Qle_refl.
    - assert (inject_Z (Torch.round_half_even x) + 1 <= inject_Z k)%Q
        by (change 1%Q with (inject_Z 1);
            rewrite <- inject_Z_plus, <- Zle_Qle; lia).
      rewrite (Qabs_neg (x - inject_Z k)) by lra.
      apply Qabs_Qle_condition. split; lra. }
  rewrite Hf, Hdist.
  destruct (Z.le_gt_cases E e) as [Hge|Hlt].
  - (* y is a multiple of 2^E *)
    assert (Ey' : (y == inject_Z (m * 2 ^ (e - E)) * 2 ^ E)%Q).
    { rewrite Ey, inject_Z_mult, <- (pow2_inject (e - E)) by lia.
      replace e with ((e - E) + E)%Z at 1 by lia.
      rewrite pow2_plus. ring. }
    rewrite Ey', Hdist.
    apply Qmult_le_compat_r; [apply Hint | lra].
  - (* y is finer than the last place of q: it is at most 2^(E+23) in
       magnitude, and the significand of q is at least 2^23 *)
    assert (HE : (-149 < E)%Z) by lia.
    pose proof (float32_significand_lower q Hq HE) as Hlow. fold E x in Hlow.
    pose proof (float32_significand_upper q Hq) as Hupp. fold E x in Hupp.
    assert (Hy : (y <= 2 ^ 23 * 2 ^ E)%Q).
    { rewrite Ey. apply Qle_trans with (inject_Z (2 ^ 24) * 2 ^ e)%Q.
      - apply Qmult_le_compat_r; [|apply Qlt_le_weak, pow2_pos].
        rewrite <- Zle_Qle. lia.
      - apply Qle_trans with (inject_Z (2 ^ 24) * 2 ^ (E - 1))%Q.
        + apply Qmult_le_l; [reflexivity | apply pow2_le; lia].
        + replace E with ((E - 1) + 1)%Z at 2 by lia. rewrite pow2_plus.
          change (2 ^ 1)%Q with 2%Q.
          change (inject_Z (2 ^ 24)) with (2 ^ 23 * 2)%Q.
          apply Qle_lteq. right. ring. }
    assert (Hr : (2 ^ 23 <= Torch.round_half_even x)%Z).
    { rewrite <- (round_half_even_Z (2 ^ 23)).
      apply round_half_even_mono. rewrite <- (pow2_inject 23) by lia.
      exact Hlow. }
    assert (Hr' : (2 ^ 23 <= inject_Z (Torch.round_half_even x))%Q).
    { rewrite (pow2_inject 23) by lia. now rewrite <- Zle_Qle. }
    (* y <= 2^23 2^E <= both q and its rounding *)
    assert (Hq23 : (2 ^ 23 * 2 ^ E <= q)%Q).
    { rewrite Hqx. apply Qmult_le_compat_r; lra. }
    rewrite (Qabs_pos (q - y)) by lra.
    apply Qle_trans with (Qabs (x - 2 ^ 23) * 2 ^ E)%Q.
    + apply Qmult_le_compat_r; [|lra].
      rewrite (pow2_inject 23) by lia. apply Hint.
    + rewrite (Qabs_pos (x - 2 ^ 23)) by lra.
      setoid_replace ((x - 2 ^ 23) * 2 ^ E)%Q with (q - 2 ^ 23 * 2 ^ E)%Q
        by (unfold x; field; apply pow2_nz).
      lra.
Qed.

Lemma representable32_opp (y : Q) : representable32 y -> representable32 (- y).
Proof.
  intros (m & e & Hm & He & Ey). exists (- m)%Z, e.
  split; [lia|]. split; [exact He|]. rewrite Ey, inject_Z_opp. ring.
Qed.

(** [float32] rounds to nearest: no binary32 value is closer to [q] than
    [float32 q], which is one. *)
Lemma float32_nearest (q y : Q) :
  representable32 y ->
  (Qabs (q - Torch.float32 q) <= Qabs (q - y))%Q.
Proof.
  intros Hy. destruct (Q_dec q 0) as [[Hneg|Hpos]|Hz].
  - pose proof (float32_nearest_pos (- q) (- y) ltac:(lra)
                  (representable32_opp y Hy)) as H.
    rewrite float32_opp in H.
    setoid_replace (- q - - Torch.float32 q)%Q
      with (- (q - Torch.float32 q))%Q in H by ring.
    setoid_replace (- q - - y)%Q with (- (q - y))%Q in H by ring.
    now rewrite !Qabs_opp in H.
  - now apply float32_nearest_pos.
  - rewrite (float32_zero q Hz), Hz.
    setoid_replace (0 - 0)%Q with 0%Q by ring. apply Qabs_nonneg.
Qed.

(** The Standard Library's binary32 ([SpecFloat] at precision 24 and
    maximal exponent 128) rounds these values alike: the cast of the Python
    float 0.7, the product 5 * float32(0.7), a tie between two
    significands, a product in the range of gradual underflow. *)
Example float32_agrees_with_SpecFloat :
  (spec_float_value
     (SpecFloat.binary_normalize 24 128 3152519739159347 (-52) false)
   == Torch.float32 Demo.python_float_0_7)%Q /\
  (spec_float_value
     (SpecFloat.SFmul 24 128
        (SpecFloat.binary_normalize 24 128 5 0 false)
        (SpecFloat.S754_finite false 11744051 (-24)))
   == Torch.mul_int 5 Demo.float32_0_7)%Q /\
  (spec_float_value (SpecFloat.binary_normalize 24 128 16777217 0 false)
   == Torch.float32 (inject_Z 16777217))%Q /\
  (spec_float_value (SpecFloat.binary_normalize 24 128 16777219 0 false)
   == Torch.float32 (inject_Z 16777219))%Q /\
  (spec_float_value (SpecFloat.binary_normalize 24 128 11 (-152) false)
   == Torch.float32 (11 * 2 ^ (-152)))%Q /\
  (spec_float_value (SpecFloat.binary_normalize 24 128 (-13) (-151) true)
   == Torch.float32 (- (13) * 2 ^ (-151)))%Q.
Proof. repeat split; vm_compute; reflexivity. Qed.

End Float32Facts.

(** ** Facts about the tensor operations *)

Section TorchFacts.

Import Torch.

Lemma zip_with_length {A B C : Type} (f : A -> B -> C) l1 l2 :
  length (zip_with f l1 l2) = Nat.min (length l1) (length l2).
Proof.
  revert l2; induction l1 as [|a l1 IH]; intros [|b l2]; simpl; auto.
Qed.

Lemma zip_with_nth_error {A B C : Type} (f : A -> B -> C) l1 l2 i :
  nth_error (zip_with f l1 l2) i =
  match nth_error l1 i, nth_error l2 i with
  | Some a, Some b => Some (f a b)
  | _, _ => None
  end.
Proof.
  revert l2 i; induction l1 as [|a l1 IH]; intros [|b l2] [|i]; simpl; auto.
  all: destruct (nth_error l1 i); reflexivity.
Qed.

Lemma rand_length {Gen : Type} (u : Gen -> Q * Gen) n g :
  length (fst (rand u n g)) = n.
Proof.
  revert g; induction n as [|n IH]; intros g; simpl; auto.
  destruct (u g) as [x g1]. specialize (IH g1).
  destruct (rand u n g1) as [xs g2]. simpl in *. congruence.
Qed.

Lemma rand2_is_tensor {Gen : Type} (u : Gen -> Q * Gen) n m g :
  is_tensor n m (fst (rand2 u n m g)).
Proof.
  revert g; induction n as [|n IH]; intros g; simpl.
  - split; [reflexivity | constructor].
  - pose proof (rand_length u m g) as Hr.
    destruct (rand u m g) as [r g1]. specialize (IH g1).
    destruct (rand2 u n m g1) as [rs g2]. simpl in *.
    destruct IH as [Hl Hf]. split; [simpl; congruence | constructor; auto].
Qed.

Lemma is_tensor_shape {A : Type} N L (t : list (list A)) :
  is_tensor N L t -> shape t = (N, L) \/ (N = 0%nat /\ t = []).
Proof.
  intros [Hl Hf]. destruct t as [|r t].
  - right. split; [symmetry; exact Hl | reflexivity].
  - left. unfold shape. inversion Hf; subst. reflexivity.
Qed.

Lemma is_tensor_row {A : Type} N L (t : list (list A)) i row :
  is_tensor N L t -> nth_error t i = Some row -> length row = L.
Proof.
  intros [_ Hf] Hi. rewrite Forall_forall in Hf.
  apply Hf. eapply nth_error_In; eauto.
Qed.

(** *** Sorting by insertion permutes *)

Lemma insert_key_perm p l : Permutation (insert_key p l) (p :: l).
Proof.
  induction l as [|q l IH]; simpl; auto.
  destruct (Qle_bool (fst p) (fst q)); auto.
  rewrite IH. apply perm_swap.
Qed.

Lemma sort_keys_perm l : Permutation (sort_keys l) l.
Proof.
  induction l as [|p l IH]; simpl; auto.
  rewrite insert_key_perm. auto.
Qed.

Lemma map_snd_combine {A B : Type} (l1 : list A) (l2 : list B) :
  length l1 = length l2 -> map snd (combine l1 l2) = l2.
Proof.
  revert l2; induction l1 as [|a l1 IH]; intros [|b l2] H; simpl in *;
    try discriminate; auto.
  f_equal. apply IH. congruence.
Qed.

Lemma argsort_perm row : Permutation (argsort row) (seq 0 (length row)).
Proof.
  unfold argsort. rewrite sort_keys_perm.
  rewrite map_snd_combine; [reflexivity | now rewrite length_seq].
Qed.

Lemma argsort_length row : length (argsort row) = length row.
Proof.
  rewrite (Permutation_length (argsort_perm row)). apply length_seq.
Qed.

(** The keys of a sorted list of pairs ascend: [argsort] does sort. *)
Lemma insert_key_ascending p l : ascending l -> ascending (insert_key p l).
Proof.
  induction l as [|q l IH]; simpl; auto.
  intros [Hq Hl].
  destruct (Qle_bool (fst p) (fst q)) eqn:E.
  - simpl. split; [now apply Qle_bool_iff | auto].
  - assert (Hqp : (fst q <= fst p)%Q).
    { apply Qlt_le_weak, Qnot_le_lt. intro H.
      apply Qle_bool_iff in H. congruence. }
    specialize (IH Hl). simpl. split; auto.
    destruct l as [|r l]; simpl in *; auto.
    destruct (Qle_bool (fst p) (fst r)); auto.
Qed.

Lemma sort_keys_ascending l : ascending (sort_keys l).
Proof.
  induction l as [|p l IH]; simpl; auto using insert_key_ascending.
Qed.

(** *** Clamping, rounding and the comparison with the count *)

Lemma clamp_min_lower x m : (m <= Torch.clamp_min x m)%Q.
Proof.
  unfold clamp_min. destruct (x ?= m)%Q eqn:E.
  - apply Qeq_alt in E. rewrite E. apply Qle_refl.
  - apply Qle_refl.
  - apply Qgt_alt in E. apply Qlt_le_weak. exact E.
Qed.

Lemma clamp_min_upper x m : (x <= Torch.clamp_min x m)%Q.
Proof.
  unfold clamp_min. destruct (x ?= m)%Q eqn:E.
  - apply Qle_refl.
  - apply Qlt_alt in E. apply Qlt_le_weak. exact E.
  - apply Qle_refl.
Qed.

Lemma clamp_min_least x m y :
  (x <= y)%Q -> (m <= y)%Q -> (Torch.clamp_min x m <= y)%Q.
Proof.
  intros Hx Hm. unfold clamp_min. destruct (x ?= m)%Q; assumption.
Qed.

Lemma clamp_min_mono x m1 m2 :
  (m1 <= m2)%Q -> (Torch.clamp_min x m1 <= Torch.clamp_min x m2)%Q.
Proof.
  intros H. apply clamp_min_least.
  - apply clamp_min_upper.
  - eapply Qle_trans; [exact H | apply clamp_min_lower].
Qed.

Lemma clamp_min_inject_Z z k :
  Torch.clamp_min (inject_Z z) (inject_Z k) = inject_Z (Z.max z k).
Proof.
  unfold clamp_min, Qcompare, inject_Z. simpl. rewrite !Z.mul_1_r.
  destruct (Z.compare_spec z k) as [E|E|E].
  - subst. now rewrite Z.max_id.
  - now rewrite Z.max_r by lia.
  - now rewrite Z.max_l by lia.
Qed.

(** A rank of at most 2^24 is compared as the integer it is. *)
Lemma lt_entry_inject_Z r k :
  (Z.of_nat r <= 2 ^ 24)%Z ->
  lt_entry r (inject_Z k) = (Z.of_nat r <? k)%Z.
Proof.
  intros Hr. unfold lt_entry.
  assert (E : (float32 (inject_Z (Z.of_nat r)) ?= inject_Z k)%Q
              = (inject_Z (Z.of_nat r) ?= inject_Z k)%Q).
  { apply Qcompare_comp; [apply float32_inject_Z; lia | reflexivity]. }
  rewrite E.
  unfold Qcompare, inject_Z. simpl. rewrite !Z.mul_1_r.
  unfold Z.ltb. destruct (Z.of_nat r ?= k)%Z; reflexivity.
Qed.

(** The count the code compares the permutation with is an integer. *)
Lemma num_token_masked_integer (L : nat) (p : Q) :
  Torch.clamp_min (Torch.round (Torch.mul_int (Z.of_nat L) p)) 1
  = inject_Z (Z.max (round_half_even (Torch.mul_int (Z.of_nat L) p)) 1).
Proof. unfold round. apply (clamp_min_inject_Z _ 1). Qed.

(** With a sequence length of at most 2^24 the product is the rounding of
    the exact product. *)
Lemma mul_int_exact_cast (L : nat) (p : Q) :
  (Z.of_nat L <= 2 ^ 24)%Z ->
  (Torch.mul_int (Z.of_nat L) p == float32 (inject_Z (Z.of_nat L) * p))%Q.
Proof.
  intros HL. unfold mul_int. apply float32_comp.
  rewrite float32_inject_Z by lia. reflexivity.
Qed.

(** *** Ranks below a count *)

Lemma count_below_perm (f : nat -> bool) l1 l2 :
  Permutation l1 l2 -> length (filter f l1) = length (filter f l2).
Proof.
  induction 1 as [|x l1 l2 _ IH|x y l|l1 l2 l3 _ IH1 _ IH2]; simpl.
  - reflexivity.
  - destruct (f x); simpl; congruence.
  - destruct (f x), (f y); reflexivity.
  - congruence.
Qed.

Lemma count_below_seq (k : Z) (L : nat) :
  length (filter (fun r => (Z.of_nat r <? k)%Z) (seq 0 L))
  = Z.to_nat (Z.min k (Z.of_nat L)).
Proof.
  induction L as [|L IH].
  - simpl. lia.
  - rewrite seq_S, filter_app, length_app, IH. simpl.
    destruct (Z.ltb_spec (Z.of_nat L) k); simpl; lia.
Qed.

Lemma count_true_map (f : nat -> bool) l :
  count_occ bool_dec (map f l) true = length (filter f l).
Proof.
  induction l as [|x l IH]; simpl; auto.
  destruct (f x); simpl;
    [destruct (bool_dec true true) | destruct (bool_dec false true)];
    congruence.
Qed.

(** A row of the mask has exactly min(k, L) true entries when the row of
    ranks is a permutation of 0..L-1 and L is at most 2^24. *)
Lemma mask_row_count (perm : list nat) (L : nat) (k : Z) :
  (Z.of_nat L <= 2 ^ 24)%Z ->
  Permutation perm (seq 0 L) ->
  count_occ bool_dec (map (fun r => lt_entry r (inject_Z k)) perm) true
  = Z.to_nat (Z.min k (Z.of_nat L)).
Proof.
  intros HL HP. rewrite count_true_map.
  rewrite (count_below_perm _ _ _ HP).
  rewrite <- count_below_seq. f_equal. apply filter_ext_in.
  intros r Hr. apply in_seq in Hr. apply lt_entry_inject_Z. lia.
Qed.

(** With no token equal to the mask id, the mask ids of an input row are
    the true entries of the mask row. *)
Lemma where_row_count (mid : Z) (m : list bool) (row : list Z) :
  length m = length row ->
  Forall (fun x => x <> mid) row ->
  count_occ Z.eq_dec
            (zip_with (fun (b : bool) x => if b then mid else x) m row) mid
  = count_occ bool_dec m true.
Proof.
  revert row; induction m as [|b m IH]; intros [|x row] Hl Hf;
    simpl in *; try discriminate; auto.
  inversion Hf; subst.
  rewrite (IH row) by (auto; congruence).
  destruct b; simpl.
  - destruct (Z.eq_dec mid mid); destruct (bool_dec true true); congruence.
  - destruct (Z.eq_dec x mid); destruct (bool_dec false true); congruence.
Qed.

End TorchFacts.

(** ** What [masked_inputs] computes, in closed form *)

Section MaskedInputsFacts.

Import Torch.

Variables Gen Pixels TransformerArgs : Type.
Variable ext : Externals Gen Pixels TransformerArgs.
Variable config : Config TransformerArgs.
Variable locals : MainLocals Pixels.
Variable batch : Batch Pixels.
Variable g : Gen.
Variables N L : nat.

Let tokens := encode (vq_model locals) (pixel_values batch).
Let V := num_embeddings (vq_model locals).
Let P := map (image_mask_prob ext config) (drawn_timesteps ext N g).
Let M := lt_rows (map argsort (drawn_noise ext N L g))
                 (map (image_num_token_masked L) P).
Let shifted := add_scalar (class_id batch) V.

Hypothesis tokens_shape : is_tensor N L tokens.
Hypothesis classes_shape : length (class_id batch) = N.

Lemma P_length : length P = N.
Proof.
  unfold P, drawn_timesteps. rewrite length_map. apply rand_length.
Qed.

Lemma M_length : length M = N.
Proof.
  unfold M, lt_rows. rewrite zip_with_length, !length_map, P_length.
  unfold drawn_noise.
  destruct (rand2_is_tensor (uniform ext) N L
              (snd (rand (uniform ext) N g))) as [Hl _].
  rewrite Hl. apply Nat.min_id.
Qed.

Lemma masked_inputs_closed_form :
  masked_inputs ext config locals batch g =
  (Ok {| input_ids :=
           zip_with cons shifted
                    (where_scalar_tensor M (mask_id locals) tokens);
         labels :=
           zip_with cons (mul_scalar (-100) (ones_like shifted))
                    (where_tensor_scalar M tokens (-100));
         mask_prob := P;
         mask := M |},
   generator_after ext N L g).
Proof.
  pose proof M_length as HM. pose proof P_length as HP.
  assert (Hsh : length shifted = N)
    by (unfold shifted, add_scalar; now rewrite length_map).
  assert (Ht : length tokens = N) by apply tokens_shape.
  match goal with
  | |- _ = ?rhs =>
      assert (E : forall L',
                 shape tokens = (N, L') ->
                 drawn_noise ext N L' g = drawn_noise ext N L g ->
                 generator_after ext N L' g = generator_after ext N L g ->
                 masked_inputs ext config locals batch g = rhs)
  end.
  { intros L' Hs Hn Hg. unfold masked_inputs. fold tokens. rewrite Hs.
    unfold drawn_noise, generator_after, drawn_timesteps in *.
    destruct (rand (uniform ext) N g) as [ts g1] eqn:E1. simpl in *.
    destruct (rand2 (uniform ext) N L' g1) as [noise g2] eqn:E2.
    simpl in Hn, Hg. subst noise g2.
    fold V. fold shifted.
    (* the mask of the source is M *)
    set (M' := lt_rows _ _).
    assert (EM : M' = M).
    { unfold M', M, P. rewrite !map_map.
      unfold image_num_token_masked, image_mask_prob.
      destruct (is_tensor_shape _ _ _ tokens_shape) as [Hs'|[HN Hnil]].
      - rewrite Hs in Hs'. injection Hs' as ->. reflexivity.
      - revert E1. rewrite HN. simpl. intros [= <- <-]. reflexivity. }
    rewrite EM.
    unfold cat_col.
    unfold where_scalar_tensor at 1. rewrite zip_with_length, HM, Ht, Hsh.
    rewrite Nat.min_id, Nat.eqb_refl. simpl.
    unfold mul_scalar at 1, ones_like at 1. rewrite !length_map.
    unfold where_tensor_scalar at 1. rewrite zip_with_length, HM, Ht, Hsh.
    rewrite Nat.min_id, Nat.eqb_refl. simpl.
    unfold P, image_mask_prob. rewrite ?map_map. reflexivity. }
  destruct (is_tensor_shape _ _ _ tokens_shape) as [Hs|[HN Hnil]].
  - apply (E L Hs); reflexivity.
  - apply (E 0%nat).
    + rewrite Hnil, HN. reflexivity.
    + rewrite HN. reflexivity.
    + rewrite HN. reflexivity.
Qed.

End MaskedInputsFacts.

Lemma nth_error_within {A : Type} (l : list A) N i :
  length l = N -> (i < N)%nat -> exists x, nth_error l i = Some x.
Proof.
  intros Hl Hi. destruct (nth_error l i) as [x|] eqn:E; eauto.
  apply nth_error_None in E. lia.
Qed.

(** Image by image: row i of every produced tensor, from row i of the
    tokens, class i, timestep i and row i of the uniform values. *)
Lemma masked_inputs_image
      {Gen Pixels TA : Type} (ext : Externals Gen Pixels TA)
      (config : Config TA) (locals : MainLocals Pixels)
      (batch : Batch Pixels) (g : Gen) (N L : nat) :
  Torch.is_tensor N L (encode (vq_model locals) (pixel_values batch)) ->
  length (class_id batch) = N ->
  exists mi,
    masked_inputs ext config locals batch g
    = (Ok mi, generator_after ext N L g) /\
    mask_prob mi = map (image_mask_prob ext config) (drawn_timesteps ext N g) /\
    length (input_ids mi) = N /\ length (labels mi) = N /\
    forall i, (i < N)%nat ->
      exists trow c t nrow,
        nth_error (encode (vq_model locals) (pixel_values batch)) i = Some trow /\
        nth_error (class_id batch) i = Some c /\
        nth_error (drawn_timesteps ext N g) i = Some t /\
        nth_error (drawn_noise ext N L g) i = Some nrow /\
        length trow = L /\ length nrow = L /\
        nth_error (mask_prob mi) i = Some (image_mask_prob ext config t) /\
        nth_error (mask mi) i
        = Some (image_mask L (image_mask_prob ext config t) nrow) /\
        nth_error (input_ids mi) i
        = Some (Torch.wrap_int64 (c + num_embeddings (vq_model locals))
                :: Torch.zip_with
                     (fun (b : bool) x => if b then mask_id locals else x)
                     (image_mask L (image_mask_prob ext config t) nrow) trow) /\
        nth_error (labels mi) i
        = Some ((-100)%Z
                :: Torch.zip_with
                     (fun (b : bool) x => if b then x else (-100)%Z)
                     (image_mask L (image_mask_prob ext config t) nrow) trow).
Proof.
  intros Htok Hcls.
  eexists. split; [apply (masked_inputs_closed_form _ _ _ ext config locals batch g N L Htok Hcls)|].
  cbn [mask_prob mask input_ids labels].
  pose proof (rand2_is_tensor (uniform ext) N L
                (snd (Torch.rand (uniform ext) N g))) as Hnoise.
  fold (drawn_noise ext N L g) in Hnoise.
  assert (Hts : length (drawn_timesteps ext N g) = N) by apply rand_length.
  assert (HM : length (Torch.lt_rows
                         (map Torch.argsort (drawn_noise ext N L g))
                         (map (image_num_token_masked L)
                              (map (image_mask_prob ext config)
                                   (drawn_timesteps ext N g)))) = N).
  { unfold Torch.lt_rows. rewrite zip_with_length, !length_map, Hts.
    destruct Hnoise as [-> _]. apply Nat.min_id. }
  split; [reflexivity|].
  split.
  { rewrite zip_with_length. unfold Torch.add_scalar, Torch.where_scalar_tensor.
    rewrite length_map, zip_with_length, HM, Hcls.
    destruct Htok as [-> _]. now rewrite !Nat.min_id. }
  split.
  { rewrite zip_with_length.
    unfold Torch.mul_scalar, Torch.ones_like, Torch.add_scalar,
      Torch.where_tensor_scalar.
    rewrite !length_map, zip_with_length, HM, Hcls.
    destruct Htok as [-> _]. now rewrite !Nat.min_id. }
  intros i Hi.
  destruct (nth_error_within _ _ i (proj1 Htok) Hi) as [trow Htrow].
  destruct (nth_error_within _ _ i Hcls Hi) as [c Hc].
  destruct (nth_error_within _ _ i Hts Hi) as [t Ht].
  destruct (nth_error_within _ _ i (proj1 Hnoise) Hi) as [nrow Hnrow].
  exists trow, c, t, nrow.
  assert (HMi : nth_error (Torch.lt_rows
                         (map Torch.argsort (drawn_noise ext N L g))
                         (map (image_num_token_masked L)
                              (map (image_mask_prob ext config)
                                   (drawn_timesteps ext N g)))) i
                = Some (image_mask L (image_mask_prob ext config t) nrow)).
  { unfold Torch.lt_rows. rewrite zip_with_nth_error, !nth_error_map.
    rewrite Hnrow, Ht. reflexivity. }
  repeat split; auto.
  - eapply is_tensor_row; eauto.
  - eapply is_tensor_row; eauto.
  - rewrite nth_error_map, Ht. reflexivity.
  - rewrite zip_with_nth_error. unfold Torch.add_scalar, Torch.where_scalar_tensor.
    rewrite nth_error_map, Hc, zip_with_nth_error, HMi, Htrow. reflexivity.
  - rewrite zip_with_nth_error.
    unfold Torch.mul_scalar, Torch.ones_like, Torch.add_scalar,
      Torch.where_tensor_scalar.
    rewrite !nth_error_map, Hc, zip_with_nth_error, HMi, Htrow. reflexivity.
Qed.

Lemma Forall_rows {A : Type} (P : list A -> Prop) (t : list (list A)) :
  (forall i row, nth_error t i = Some row -> P row) -> Forall P t.
Proof.
  intros H. apply Forall_forall. intros row Hin.
  destruct (In_nth_error _ _ Hin) as [i Hi]. eauto.
Qed.

Lemma image_mask_length (L : nat) (p : Q) (nrow : list Q) :
  length nrow = L -> length (image_mask L p nrow) = L.
Proof.
  intros H. unfold image_mask. now rewrite length_map, argsort_length.
Qed.

(** The mask row of an image of at most 2^24 tokens has
    min(max(k, 1), L) true entries, k being the rounding of the binary32
    product. *)
Lemma image_mask_count (L : nat) (p : Q) (nrow : list Q) :
  (Z.of_nat L <= 2 ^ 24)%Z ->
  length nrow = L ->
  count_occ bool_dec (image_mask L p nrow) true
  = Z.to_nat (spec_clamp
                (Torch.round_half_even
                   (Torch.float32 (inject_Z (Z.of_nat L) * p)))
                1 (Z.of_nat L)).
Proof.
  intros HL H. unfold image_mask, image_num_token_masked.
  rewrite num_token_masked_integer.
  rewrite (mask_row_count _ L) by (auto; rewrite <- H; apply argsort_perm).
  rewrite (round_half_even_comp _ _ (mul_int_exact_cast L p HL)).
  reflexivity.
Qed.

(** ** The claims *)

(** Five tokens, masked at a minimal rate of 0.7 while the schedule gives
    0.5. *)
Example binary32_run :
  fst (masked_inputs (Demo.ext 100 200) (Demo.config Demo.python_float_0_7)
                     (Demo.locals 100 200)
                     Demo.batch5 Demo.tape5)
  = Ok {| input_ids := [[102; 200; 200; 200; 8; 200]%Z];
          labels := [[-100; 5; 6; 7; -100; 9]%Z];
          mask_prob := [Demo.float32_0_7];
          mask := [[true; true; true; false; true]] |}.
Proof. vm_compute. reflexivity. Qed.

(** The example of the specification with a mask id that is a token. *)
Example mask_id_in_vocab_run :
  fst (masked_inputs (Demo.ext 100 5) (Demo.config 0) (Demo.locals 100 5)
                     Demo.batch Demo.tape)
  = Ok {| input_ids := [[102; 5; 5; 7; 5]%Z];
          labels := [[-100; -100; 6; -100; 8]%Z];
          mask_prob := [((1 - (1 # 2)))%Q];
          mask := [[false; true; false; true]] |}.
Proof. vm_compute. reflexivity. Qed.

(** C1 (as stated, refuted): the count of mask ids in positions 1..L is
    not always clamp(round(L * mask_prob), 1, L).  With the mask id 5 among
    the tokens 5 6 7 8 and mask_prob 1/2, two positions are masked and three
    hold the mask id.  With valid tokens, L = 5 and mask_prob the binary32
    value of 0.7, the product 5 * mask_prob is rounded to the binary32 value
    3.5 and then to 4, so four positions hold the mask id, while
    round(5 * mask_prob) over exact rationals is 3. *)
Lemma C1_masked_count_counterexample :
  (exists mi row p,
      fst (masked_inputs (Demo.ext 100 5) (Demo.config 0) (Demo.locals 100 5)
                         Demo.batch Demo.tape) = Ok mi /\
      nth_error (input_ids mi) 0 = Some row /\
      nth_error (mask_prob mi) 0 = Some p /\
      count_masked (mask_id (Demo.locals 100 5)) row = 3%nat /\
      spec_num_masked 4 p = 2%nat) /\
  (exists mi row p,
      fst (masked_inputs (Demo.ext 100 200) (Demo.config Demo.python_float_0_7)
                         (Demo.locals 100 200)
                         Demo.batch5 Demo.tape5)
      = Ok mi /\
      tokens_in_vocab 100 [[5; 6; 7; 8; 9]%Z] /\
      ~ (0 <= mask_id (Demo.locals 100 200) < 100)%Z /\
      nth_error (input_ids mi) 0 = Some row /\
      nth_error (mask_prob mi) 0 = Some p /\
      (0 <= p <= 1)%Q /\
      count_masked (mask_id (Demo.locals 100 200)) row = 4%nat /\
      spec_num_masked 5 p = 3%nat).
Proof.
  split.
  - eexists _, _, _. split; [exact mask_id_in_vocab_run|].
    repeat split; reflexivity.
  - eexists _, _, _. split; [exact binary32_run|].
    split; [repeat constructor; simpl; lia|].
    split; [simpl; lia|].
    split; [reflexivity|]. split; [reflexivity|].
    split; [split; vm_compute; discriminate|].
    split; reflexivity.
Qed.

(** C1 (amended): for a batch of tokens of shape (N, L) with L at most 2^24
    in which every token lies in [0, V) and the mask id does not, the
    construction succeeds and, for every image i, the number of positions
    1..L of input row i that hold the mask id is clamp(k, 1, L), where k is
    the integer nearest to the binary32 product float32(L * mask_prob_i), a
    tie going to the even one, and mask_prob_i is the clipped masking
    probability of the image. *)
Theorem C1_masked_count
        {Gen Pixels TA : Type} (ext : Externals Gen Pixels TA)
        (config : Config TA) (locals : MainLocals Pixels)
        (batch : Batch Pixels) (g : Gen) (N L : nat) :
  Torch.is_tensor N L (encode (vq_model locals) (pixel_values batch)) ->
  length (class_id batch) = N ->
  (Z.of_nat L <= 2 ^ 24)%Z ->
  tokens_in_vocab (num_embeddings (vq_model locals))
                  (encode (vq_model locals) (pixel_values batch)) ->
  ~ (0 <= mask_id locals < num_embeddings (vq_model locals))%Z ->
  exists mi,
    fst (masked_inputs ext config locals batch g) = Ok mi /\
    forall i, (i < N)%nat ->
      exists row mrow p k,
        nth_error (input_ids mi) i = Some row /\
        nth_error (mask mi) i = Some mrow /\
        nth_error (mask_prob mi) i = Some p /\
        nearest_even (Torch.float32 (inject_Z (Z.of_nat L) * p)) k /\
        Z.of_nat (count_occ bool_dec mrow true)
        = spec_clamp k 1 (Z.of_nat L) /\
        Z.of_nat (count_masked (mask_id locals) row)
        = spec_clamp k 1 (Z.of_nat L).
Proof.
  intros Htok Hcls HL Hvoc Hmid.
  destruct (masked_inputs_image ext config locals batch g N L Htok Hcls)
    as (mi & Hrun & _ & _ & _ & Himg).
  exists mi. split; [now rewrite Hrun|].
  intros i Hi.
  destruct (Himg i Hi)
    as (trow & c & t & nrow & Htrow & _ & _ & _ & Hlt & Hln & Hp & Hm & Hin & _).
  eexists _, _, _, _.
  split; [exact Hin|]. split; [exact Hm|]. split; [exact Hp|].
  split; [apply round_half_even_nearest_even|].
  assert (Hcount :
            Z.of_nat (count_occ bool_dec
                        (image_mask L (image_mask_prob ext config t) nrow) true)
            = spec_clamp
                (Torch.round_half_even
                   (Torch.float32 (inject_Z (Z.of_nat L)
                                   * image_mask_prob ext config t)))
                1 (Z.of_nat L)).
  { rewrite (image_mask_count L _ nrow HL Hln).
    apply Z2Nat.id. unfold spec_clamp. lia. }
  split; [exact Hcount|].
  unfold count_masked. simpl tl.
  rewrite where_row_count.
  - exact Hcount.
  - rewrite image_mask_length; congruence.
  - unfold tokens_in_vocab in Hvoc. rewrite Forall_forall in Hvoc.
    specialize (Hvoc trow (nth_error_In _ _ Htrow)).
    eapply Forall_impl; [|exact Hvoc]. simpl. intros x Hx ->. auto.
Qed.

Lemma C1_masked_count_witness :
  exists row mrow p k,
    nth_error [[102; 200; 200; 200; 8; 200]%Z] 0 = Some row /\
    nth_error [[true; true; true; false; true]] 0 = Some mrow /\
    nth_error [Demo.float32_0_7] 0 = Some p /\
    nearest_even (Torch.float32 (inject_Z (Z.of_nat 5) * p)) k /\
    Z.of_nat (count_occ bool_dec mrow true) = spec_clamp k 1 (Z.of_nat 5) /\
    Z.of_nat (count_masked 200 row) = spec_clamp k 1 (Z.of_nat 5).
Proof.
  destruct (C1_masked_count
              (Demo.ext 100 200) (Demo.config Demo.python_float_0_7)
              (Demo.locals 100 200)
              Demo.batch5 Demo.tape5 1 5)
    as (mi & Hrun & Himg).
  - split; [reflexivity | repeat constructor].
  - reflexivity.
  - simpl. lia.
  - repeat constructor; simpl; lia.
  - simpl. lia.
  - rewrite binary32_run in Hrun. injection Hrun as <-.
    apply (Himg 0%nat). lia.
Defined.

Lemma where_row_entry (f : bool -> Z -> Z) (m : list bool) (row : list Z) j b x :
  nth_error m j = Some b -> nth_error row j = Some x ->
  nth_error (Torch.zip_with f m row) j = Some (f b x).
Proof.
  intros Hm Hr. now rewrite zip_with_nth_error, Hm, Hr.
Qed.

(** C2: with every token in [0, V) and the mask id outside, for every image
    i and token position j in 1..L (j = j0 + 1): a masked position holds the
    mask id as input and the original token tokens[i, j0] as label; an
    unmasked position holds the original token as input and -100 as label;
    and the input holds the mask id exactly at the masked positions. *)
Theorem C2_inputs_and_labels
        {Gen Pixels TA : Type} (ext : Externals Gen Pixels TA)
        (config : Config TA) (locals : MainLocals Pixels)
        (batch : Batch Pixels) (g : Gen) (N L : nat) :
  Torch.is_tensor N L (encode (vq_model locals) (pixel_values batch)) ->
  length (class_id batch) = N ->
  tokens_in_vocab (num_embeddings (vq_model locals))
                  (encode (vq_model locals) (pixel_values batch)) ->
  ~ (0 <= mask_id locals < num_embeddings (vq_model locals))%Z ->
  exists mi,
    fst (masked_inputs ext config locals batch g) = Ok mi /\
    forall i j0, (i < N)%nat -> (j0 < L)%nat ->
      exists tok masked,
        entry (encode (vq_model locals) (pixel_values batch)) i j0 = Some tok /\
        entry (mask mi) i j0 = Some masked /\
        (masked = true ->
         entry (input_ids mi) i (S j0) = Some (mask_id locals) /\
         entry (labels mi) i (S j0) = Some tok) /\
        (masked = false ->
         entry (input_ids mi) i (S j0) = Some tok /\
         entry (labels mi) i (S j0) = Some IGNORE_LABEL) /\
        (entry (input_ids mi) i (S j0) = Some (mask_id locals)
         <-> masked = true).
Proof.
  intros Htok Hcls Hvoc Hmid.
  destruct (masked_inputs_image ext config locals batch g N L Htok Hcls)
    as (mi & Hrun & _ & _ & _ & Himg).
  exists mi. split; [now rewrite Hrun|].
  intros i j0 Hi Hj.
  destruct (Himg i Hi)
    as (trow & c & t & nrow & Htrow & _ & _ & _ & Hlt & Hln & _ & Hm & Hin & Hlab).
  destruct (nth_error_within _ _ j0 Hlt Hj) as [tok Htokj].
  destruct (nth_error_within _ _ j0
              (image_mask_length L (image_mask_prob ext config t) nrow Hln) Hj)
    as [b Hb].
  assert (Hne : tok <> mask_id locals).
  { unfold tokens_in_vocab in Hvoc. rewrite Forall_forall in Hvoc.
    specialize (Hvoc trow (nth_error_In _ _ Htrow)).
    rewrite Forall_forall in Hvoc.
    specialize (Hvoc tok (nth_error_In _ _ Htokj)). intros ->. auto. }
  exists tok, b. unfold entry. rewrite Htrow, Hm, Hin, Hlab. simpl.
  rewrite (where_row_entry _ _ _ _ _ _ Hb Htokj).
  rewrite (where_row_entry _ _ _ _ _ _ Hb Htokj).
  repeat split; auto.
  all: try (intros; subst b; reflexivity).
  destruct b; [reflexivity | intros [= E]; contradiction].
Qed.

Lemma C2_inputs_and_labels_witness :
  exists tok masked,
    entry [[5; 6; 7; 8]%Z] 0 1 = Some tok /\
    entry [[false; true; false; true]] 0 1 = Some masked /\
    (masked = true ->
     entry [[102; 5; 200; 7; 200]%Z] 0 2 = Some 200%Z /\
     entry [[-100; -100; 6; -100; 8]%Z] 0 2 = Some tok) /\
    (masked = false ->
     entry [[102; 5; 200; 7; 200]%Z] 0 2 = Some tok /\
     entry [[-100; -100; 6; -100; 8]%Z] 0 2 = Some IGNORE_LABEL) /\
    (entry [[102; 5; 200; 7; 200]%Z] 0 2 = Some 200%Z <-> masked = true).
Proof.
  destruct (C2_inputs_and_labels (Demo.ext 100 200) (Demo.config 0)
                                 (Demo.locals 100 200) Demo.batch
                                 Demo.tape 1 4)
    as (mi & Hrun & Hent).
  - split; [reflexivity | repeat constructor].
  - reflexivity.
  - repeat constructor; simpl; lia.
  - simpl. lia.
  - rewrite demo_run in Hrun. injection Hrun as <-.
    apply (Hent 0%nat 1%nat); lia.
Defined.

Lemma wrap_int64_id z : Torch.in_int64 z -> Torch.wrap_int64 z = z.
Proof.
  unfold Torch.in_int64, Torch.wrap_int64. intros H.
  rewrite Z.mod_small; lia.
Qed.

Lemma masked_inputs_mask_length
      {Gen Pixels TA : Type} (ext : Externals Gen Pixels TA)
      (config : Config TA) (locals : MainLocals Pixels)
      (batch : Batch Pixels) (g : Gen) (N L : nat) :
  Torch.is_tensor N L (encode (vq_model locals) (pixel_values batch)) ->
  length (class_id batch) = N ->
  forall mi,
    fst (masked_inputs ext config locals batch g) = Ok mi ->
    length (mask mi) = N.
Proof.
  intros Htok Hcls mi.
  rewrite (masked_inputs_closed_form _ _ _ ext config locals batch g N L
             Htok Hcls).
  simpl. intros [= <-]. cbn [mask].
  unfold Torch.lt_rows. rewrite zip_with_length, !length_map.
  unfold drawn_timesteps, drawn_noise. rewrite rand_length.
  destruct (rand2_is_tensor (uniform ext) N L
              (snd (Torch.rand (uniform ext) N g))) as [-> _].
  apply Nat.min_id.
Qed.

(** Every produced row is one slot longer than the token row and starts
    with the class slot. *)
Lemma masked_inputs_rows
      {Gen Pixels TA : Type} (ext : Externals Gen Pixels TA)
      (config : Config TA) (locals : MainLocals Pixels)
      (batch : Batch Pixels) (g : Gen) (N L : nat) :
  Torch.is_tensor N L (encode (vq_model locals) (pixel_values batch)) ->
  length (class_id batch) = N ->
  exists mi,
    fst (masked_inputs ext config locals batch g) = Ok mi /\
    Torch.is_tensor N (S L) (input_ids mi) /\
    Torch.is_tensor N (S L) (labels mi) /\
    Torch.is_tensor N L (mask mi) /\
    forall i c,
      nth_error (class_id batch) i = Some c ->
      entry (input_ids mi) i 0
      = Some (Torch.wrap_int64 (c + num_embeddings (vq_model locals))) /\
      entry (labels mi) i 0 = Some IGNORE_LABEL.
Proof.
  intros Htok Hcls.
  destruct (masked_inputs_image ext config locals batch g N L Htok Hcls)
    as (mi & Hrun & _ & Hli & Hll & Himg).
  exists mi. split; [now rewrite Hrun|].
  assert (Hrow : forall i, (i < N)%nat ->
            exists ri rl rm c,
              nth_error (input_ids mi) i = Some ri /\
              nth_error (labels mi) i = Some rl /\
              nth_error (mask mi) i = Some rm /\
              nth_error (class_id batch) i = Some c /\
              length ri = S L /\ length rl = S L /\ length rm = L /\
              nth_error ri 0
              = Some (Torch.wrap_int64 (c + num_embeddings (vq_model locals))) /\
              nth_error rl 0 = Some IGNORE_LABEL).
  { intros i Hi.
    destruct (Himg i Hi)
      as (trow & c & t & nrow & _ & Hc & _ & _ & Hlt & Hln & _ & Hm & Hin & Hlab).
    eexists _, _, _, c. repeat split; try eassumption; try reflexivity.
    - simpl. rewrite zip_with_length, image_mask_length, Hlt by assumption.
      now rewrite Nat.min_id.
    - simpl. rewrite zip_with_length, image_mask_length, Hlt by assumption.
      now rewrite Nat.min_id.
    - now apply image_mask_length. }
  assert (Hlm : length (mask mi) = N).
  { apply (masked_inputs_mask_length ext config locals batch g N L Htok Hcls).
    now rewrite Hrun. }
  split; [split; [exact Hli|] | split; [split; [exact Hll|] |
          split; [split; [exact Hlm|] |]]].
  - apply Forall_rows. intros i row Hi.
    assert (Hlt : (i < N)%nat)
      by (rewrite <- Hli; apply nth_error_Some; congruence).
    destruct (Hrow i Hlt) as (ri & rl & rm & c & E1 & _ & _ & _ & H1 & _).
    congruence.
  - apply Forall_rows. intros i row Hi.
    assert (Hlt : (i < N)%nat)
      by (rewrite <- Hll; apply nth_error_Some; congruence).
    destruct (Hrow i Hlt) as (ri & rl & rm & c & _ & E2 & _ & _ & _ & H2 & _).
    congruence.
  - apply Forall_rows. intros i row Hi.
    assert (Hlt : (i < N)%nat)
      by (rewrite <- Hlm; apply nth_error_Some; congruence).
    destruct (Hrow i Hlt)
      as (ri & rl & rm & c & _ & _ & E3 & _ & _ & _ & H3 & _).
    congruence.
  - intros i c Hc.
    assert (Hlt : (i < N)%nat)
      by (rewrite <- Hcls; apply nth_error_Some; congruence).
    destruct (Hrow i Hlt)
      as (ri & rl & rm & c' & E1 & E2 & _ & Ec & _ & _ & _ & Hi0 & Hl0).
    assert (c' = c) by congruence. subst c'.
    unfold entry. now rewrite E1, E2, Hi0, Hl0.
Qed.

(** C3: for a batch of N images with token sequences of length L the
    produced input_ids and labels both have shape (N, L+1); for every image
    i, input_ids[i, 0] is class_ids[i] + V (the sum being within the range
    of the integer tensor) and labels[i, 0] is the ignore label -100. *)
Theorem C3_shape_and_class_slot
        {Gen Pixels TA : Type} (ext : Externals Gen Pixels TA)
        (config : Config TA) (locals : MainLocals Pixels)
        (batch : Batch Pixels) (g : Gen) (N L : nat) :
  Torch.is_tensor N L (encode (vq_model locals) (pixel_values batch)) ->
  length (class_id batch) = N ->
  exists mi,
    fst (masked_inputs ext config locals batch g) = Ok mi /\
    Torch.is_tensor N (S L) (input_ids mi) /\
    Torch.is_tensor N (S L) (labels mi) /\
    forall i c,
      nth_error (class_id batch) i = Some c ->
      Torch.in_int64 (c + num_embeddings (vq_model locals)) ->
      entry (input_ids mi) i 0
      = Some (c + num_embeddings (vq_model locals))%Z /\
      entry (labels mi) i 0 = Some IGNORE_LABEL.
Proof.
  intros Htok Hcls.
  destruct (masked_inputs_rows ext config locals batch g N L Htok Hcls)
    as (mi & Hrun & Hin & Hlab & _ & Hslot).
  exists mi. repeat split; try apply Hin; try apply Hlab; try assumption.
  - destruct (Hslot i c H) as [E _]. rewrite E. now rewrite wrap_int64_id.
  - now destruct (Hslot i c H) as [_ E].
Qed.

Lemma C3_shape_and_class_slot_witness :
  Torch.is_tensor 1 5 [[102; 5; 200; 7; 200]%Z] /\
  Torch.is_tensor 1 5 [[-100; -100; 6; -100; 8]%Z] /\
  entry [[102; 5; 200; 7; 200]%Z] 0 0 = Some (2 + 100)%Z /\
  entry [[-100; -100; 6; -100; 8]%Z] 0 0 = Some IGNORE_LABEL.
Proof.
  destruct (C3_shape_and_class_slot (Demo.ext 100 200) (Demo.config 0)
                                    (Demo.locals 100 200) Demo.batch
                                    Demo.tape 1 4)
    as (mi & Hrun & Hin & Hlab & Hslot).
  - split; [reflexivity | repeat constructor].
  - reflexivity.
  - rewrite demo_run in Hrun. injection Hrun as <-.
    split; [exact Hin|]. split; [exact Hlab|].
    apply (Hslot 0%nat 2%Z); [reflexivity|].
    unfold Torch.in_int64. simpl. lia.
Defined.

(** What [clip] guarantees about one entry: it is at least the cast of the
    rate, hence within 2^-25 of a rate in [0, 1), and at least the rate
    itself when the rate is a binary32 value. *)
Lemma clip_floor (s rate : Q) :
  floored_by rate (Torch.clamp_min s (Torch.float32 rate)).
Proof.
  pose proof (clamp_min_lower s (Torch.float32 rate)) as H.
  split; [exact H|]. split.
  - intros H0 H1. pose proof (float32_error_below_1 rate H0 H1) as E.
    apply Qabs_Qle_condition in E. lra.
  - intros Hr. pose proof (float32_fixes rate Hr) as E. lra.
Qed.

(** C4 (as stated, refuted): with min_masking_rate the Python float 0.7, in
    [0, 1), and a schedule output of 0.5, the clipped masking probability is
    the binary32 value 0.699999988..., which is below min_masking_rate. *)
Lemma C4_mask_prob_floor_counterexample :
  (0 <= Demo.python_float_0_7 < 1)%Q /\
  exists mi p,
    fst (masked_inputs (Demo.ext 100 200) (Demo.config Demo.python_float_0_7)
                       (Demo.locals 100 200)
                       Demo.batch5 Demo.tape5)
    = Ok mi /\
    nth_error (mask_prob mi) 0 = Some p /\
    (p < training_min_masking_rate (Demo.config Demo.python_float_0_7))%Q.
Proof.
  split; [split; vm_compute; [discriminate | reflexivity]|].
  eexists _, _. split; [exact binary32_run|].
  split; [reflexivity|]. vm_compute. reflexivity.
Qed.

(** C4 (amended): with the timestep of every image fixed (same generator
    state, hence the same schedule output), the clipped masking probability
    does not decrease when min_masking_rate increases; it is never below
    float32(min_masking_rate), the rate as [clip] casts it to binary32, so
    for a rate in [0, 1) it is at least min_masking_rate - 2^-25, and at
    least min_masking_rate when the rate is a binary32 value. *)
Theorem C4_mask_prob_floor
        {Gen Pixels TA : Type} (ext : Externals Gen Pixels TA)
        (config1 config2 : Config TA) (locals : MainLocals Pixels)
        (batch : Batch Pixels) (g : Gen) (N L : nat) :
  Torch.is_tensor N L (encode (vq_model locals) (pixel_values batch)) ->
  length (class_id batch) = N ->
  (training_min_masking_rate config1 <= training_min_masking_rate config2)%Q ->
  exists mi1 mi2,
    fst (masked_inputs ext config1 locals batch g) = Ok mi1 /\
    fst (masked_inputs ext config2 locals batch g) = Ok mi2 /\
    forall i, (i < N)%nat ->
      exists p1 p2,
        nth_error (mask_prob mi1) i = Some p1 /\
        nth_error (mask_prob mi2) i = Some p2 /\
        (p1 <= p2)%Q /\
        floored_by (training_min_masking_rate config1) p1 /\
        floored_by (training_min_masking_rate config2) p2.
Proof.
  intros Htok Hcls Hrate.
  destruct (masked_inputs_image ext config1 locals batch g N L Htok Hcls)
    as (mi1 & Hrun1 & _ & _ & _ & Himg1).
  destruct (masked_inputs_image ext config2 locals batch g N L Htok Hcls)
    as (mi2 & Hrun2 & _ & _ & _ & Himg2).
  exists mi1, mi2.
  split; [now rewrite Hrun1|]. split; [now rewrite Hrun2|].
  intros i Hi.
  destruct (Himg1 i Hi)
    as (_ & _ & t1 & _ & _ & _ & Ht1 & _ & _ & _ & Hp1 & _).
  destruct (Himg2 i Hi)
    as (_ & _ & t2 & _ & _ & _ & Ht2 & _ & _ & _ & Hp2 & _).
  assert (t2 = t1) by congruence. subst t2.
  eexists _, _. split; [exact Hp1|]. split; [exact Hp2|].
  unfold image_mask_prob.
  split; [apply clamp_min_mono, float32_mono, Hrate|].
  split; apply clip_floor.
Qed.

Lemma C4_mask_prob_floor_witness :
  exists p1 p2,
    nth_error [(1 - (1 # 2))%Q] 0 = Some p1 /\
    nth_error [(3 # 4)%Q] 0 = Some p2 /\
    (p1 <= p2)%Q /\
    floored_by (1 # 10) p1 /\
    floored_by (3 # 4) p2 /\
    ((1 # 10) - (1 # 33554432) <= p1)%Q /\
    (3 # 4 <= p2)%Q.
Proof.
  destruct (C4_mask_prob_floor (Demo.ext 100 200) (Demo.config (1 # 10))
                               (Demo.config (3 # 4)) (Demo.locals 100 200)
                               Demo.batch Demo.tape 1 4)
    as (mi1 & mi2 & H1 & H2 & Hp).
  - split; [reflexivity | repeat constructor].
  - reflexivity.
  - simpl. unfold Qle. simpl. lia.
  - vm_compute in H1. injection H1 as <-.
    vm_compute in H2. injection H2 as <-.
    destruct (Hp 0%nat) as (p1 & p2 & E1 & E2 & Hle & F1 & F2); [lia|].
    exists p1, p2. split; [exact E1|]. split; [exact E2|].
    split; [exact Hle|]. split; [exact F1|]. split; [exact F2|].
    split.
    + apply (proj1 (proj2 F1)); simpl; [discriminate | reflexivity].
    + apply (proj2 (proj2 F2)).
      exists 3%Z, (-2)%Z. split; [simpl; lia|]. split; [lia|]. reflexivity.
Defined.

(** C5: two invocations of the mask construction on identical inputs (same
    tokens, class ids, vocabulary size, mask id, min_masking_rate) that draw
    identical timesteps and identical per-position uniform values (as two
    runs from one seed do) produce identical outputs: input_ids, labels,
    mask_prob, and the mask. *)
Theorem C5_determinism
        {Gen Pixels TA : Type} (ext : Externals Gen Pixels TA)
        (config1 config2 : Config TA) (locals1 locals2 : MainLocals Pixels)
        (batch1 batch2 : Batch Pixels) (g1 g2 : Gen) (N L : nat) :
  encode (vq_model locals1) (pixel_values batch1)
  = encode (vq_model locals2) (pixel_values batch2) ->
  class_id batch1 = class_id batch2 ->
  num_embeddings (vq_model locals1) = num_embeddings (vq_model locals2) ->
  mask_id locals1 = mask_id locals2 ->
  training_min_masking_rate config1 = training_min_masking_rate config2 ->
  Torch.shape (encode (vq_model locals1) (pixel_values batch1)) = (N, L) ->
  drawn_timesteps ext N g1 = drawn_timesteps ext N g2 ->
  drawn_noise ext N L g1 = drawn_noise ext N L g2 ->
  fst (masked_inputs ext config1 locals1 batch1 g1)
  = fst (masked_inputs ext config2 locals2 batch2 g2).
Proof.
  intros Htok Hcls HV Hmid Hrate Hshape Hts Hnoise.
  unfold masked_inputs.
  rewrite <- Htok, <- Hcls, <- HV, <- Hmid, <- Hrate, Hshape.
  unfold drawn_timesteps, drawn_noise in *.
  destruct (Torch.rand (uniform ext) N g1) as [ts1 g1'].
  destruct (Torch.rand (uniform ext) N g2) as [ts2 g2'].
  simpl in Hts, Hnoise. subst ts2.
  destruct (Torch.rand2 (uniform ext) N L g1') as [n1 g1''].
  destruct (Torch.rand2 (uniform ext) N L g2') as [n2 g2''].
  simpl in Hnoise. subst n2. reflexivity.
Qed.

Lemma C5_determinism_witness :
  fst (masked_inputs (Demo.ext 100 200) (Demo.config 0) (Demo.locals 100 200)
                     Demo.batch Demo.tape)
  = fst (masked_inputs (Demo.ext 100 200) (Demo.config 0)
                       (Demo.locals 100 200) Demo.batch
                       (Demo.tape ++ [7 # 9]%Q)).
Proof.
  apply (C5_determinism (Demo.ext 100 200) (Demo.config 0) (Demo.config 0)
                        (Demo.locals 100 200) (Demo.locals 100 200)
                        Demo.batch Demo.batch
                        Demo.tape (Demo.tape ++ [7 # 9]%Q) 1 4);
    reflexivity.
Defined.

(** C8: the mask depends on the shape and on the draws only: two batches of
    the same shape (N, L), whatever their tokens and class ids (and whatever
    the vocabulary size and the mask id), get the same boolean mask from the
    same timesteps and per-position uniform values. *)
Theorem C8_mask_independent_of_tokens
        {Gen Pixels TA : Type} (ext : Externals Gen Pixels TA)
        (config : Config TA) (locals1 locals2 : MainLocals Pixels)
        (batch1 batch2 : Batch Pixels) (g1 g2 : Gen) (N L : nat) :
  Torch.is_tensor N L (encode (vq_model locals1) (pixel_values batch1)) ->
  Torch.is_tensor N L (encode (vq_model locals2) (pixel_values batch2)) ->
  length (class_id batch1) = N ->
  length (class_id batch2) = N ->
  drawn_timesteps ext N g1 = drawn_timesteps ext N g2 ->
  drawn_noise ext N L g1 = drawn_noise ext N L g2 ->
  exists mi1 mi2,
    fst (masked_inputs ext config locals1 batch1 g1) = Ok mi1 /\
    fst (masked_inputs ext config locals2 batch2 g2) = Ok mi2 /\
    mask mi1 = mask mi2.
Proof.
  intros Ht1 Ht2 Hc1 Hc2 Hts Hnoise.
  eexists _, _.
  rewrite (masked_inputs_closed_form _ _ _ ext config locals1 batch1 g1 N L
             Ht1 Hc1).
  rewrite (masked_inputs_closed_form _ _ _ ext config locals2 batch2 g2 N L
             Ht2 Hc2).
  split; [reflexivity|]. split; [reflexivity|].
  cbn [mask]. now rewrite Hts, Hnoise.
Qed.

Lemma C8_mask_independent_of_tokens_witness :
  exists mi1 mi2,
    fst (masked_inputs (Demo.ext 100 200) (Demo.config 0)
                       (Demo.locals 100 200) Demo.batch Demo.tape) = Ok mi1 /\
    fst (masked_inputs (Demo.ext 100 200) (Demo.config 0)
                       (Demo.locals 50 60)
                       {| pixel_values := [[1; 1; 40; 3]%Z];
                          class_id := [9%Z] |}
                       Demo.tape) = Ok mi2 /\
    mask mi1 = mask mi2.
Proof.
  apply (C8_mask_independent_of_tokens
           (Demo.ext 100 200) (Demo.config 0)
           (Demo.locals 100 200) (Demo.locals 50 60) Demo.batch
           {| pixel_values := [[1; 1; 40; 3]%Z]; class_id := [9%Z] |}
           Demo.tape Demo.tape 1 4);
    try reflexivity; (split; [reflexivity | repeat constructor]).
Defined.




(** C10: [eval_step(batch)] is the avg_loss component of
    [train_step(batch)] with log_first_batch at its default False: the same
    result or the same exception, the same state afterwards.  It runs the
    same stochastic mask construction: the generator is advanced by the
    draws of [masked_inputs], nothing is logged, and the loss returned is
    that of the model on the inputs and labels masked with these draws. *)
Theorem C10_eval_step_is_train_step
        {Gen Pixels TA : Type} (ext : Externals Gen Pixels TA)
        (config : Config TA) (locals : MainLocals Pixels)
        (batch : Batch Pixels) (st : State Gen) :
  fst (eval_step ext config locals batch st)
  = (x <- fst (train_step ext config locals batch false st) ;;
     Ok (snd (fst x))) /\
  snd (eval_step ext config locals batch st)
  = snd (train_step ext config locals batch false st) /\
  gen (snd (eval_step ext config locals batch st))
  = snd (masked_inputs ext config locals batch (gen st)) /\
  log (snd (eval_step ext config locals batch st)) = log st /\
  forall mi loss,
    fst (masked_inputs ext config locals batch (gen st)) = Ok mi ->
    forward (model locals) (input_ids mi) (labels mi) = Ok loss ->
    fst (eval_step ext config locals batch st)
    = Ok (Torch.mean (accelerator_gather ext
                        (Torch.repeat_tensor [loss]
                           (training_batch_size config)))).
Proof.
  unfold eval_step, train_step.
  destruct (masked_inputs ext config locals batch (gen st)) as [[mi|e] g'].
  - destruct (forward (model locals) (input_ids mi) (labels mi))
      as [loss|e] eqn:Ef;
      simpl; repeat split; auto; intros mi' loss' [= <-]; congruence.
  - simpl. repeat split; auto. intros mi' loss' [=].
Qed.

Lemma C10_eval_step_is_train_step_witness :
  fst (eval_step (Demo.ext 100 200) (Demo.config 0) (Demo.locals 100 200)
                 Demo.batch {| gen := Demo.tape; log := [] |})
  = Ok (Torch.mean (Torch.repeat_tensor [(1 # 4)%Q] 1)).
Proof.
  apply (proj2 (proj2 (proj2 (proj2
           (C10_eval_step_is_train_step
              (Demo.ext 100 200) (Demo.config 0) (Demo.locals 100 200)
              Demo.batch {| gen := Demo.tape; log := [] |}))))
           {| input_ids := [[102; 5; 200; 7; 200]%Z];
              labels := [[-100; -100; 6; -100; 8]%Z];
              mask_prob := [(1 - (1 # 2))%Q];
              mask := [[false; true; false; true]] |}
           (1 # 4)%Q).
  - exact demo_run.
  - reflexivity.
Defined.

(** Evaluation masks follow the generator: the same batch evaluated from two
    generator states is masked at different positions. *)
Example eval_masks_follow_generator :
  fst (masked_inputs (Demo.ext 100 200) (Demo.config 0) (Demo.locals 100 200)
                     Demo.batch [1 # 2; 1 # 10; 9 # 10; 3 # 10; 6 # 10]%Q)
  = Ok {| input_ids := [[102; 200; 6; 7; 200]%Z];
          labels := [[-100; 5; -100; -100; 8]%Z];
          mask_prob := [(1 - (1 # 2))%Q];
          mask := [[true; false; false; true]] |}.
Proof. vm_compute. reflexivity. Qed.

(** C6 (as stated, refuted): with one image whose token sequence has
    length 0, set-up succeeds, the mask construction raises nothing and
    returns inputs and labels that hold the class slot only, and
    [train_step] goes on to return a loss. *)
Lemma C6_no_fail_fast_counterexample :
  Torch.shape (pixel_values Demo.empty_batch) = (1%nat, 0%nat) /\
  is_ok (setup (Demo.ext 100 200) (Demo.config 0)) = true /\
  fst (masked_inputs (Demo.ext 100 200) (Demo.config 0) (Demo.locals 100 200)
                     Demo.empty_batch Demo.tape)
  = Ok {| input_ids := [[102%Z]]; labels := [[(-100)%Z]];
          mask_prob := [(1 - (1 # 2))%Q]; mask := [[]] |} /\
  ~ (exists e,
        fst (masked_inputs (Demo.ext 100 200) (Demo.config 0)
                           (Demo.locals 100 200) Demo.empty_batch Demo.tape)
        = Raise e) /\
  is_ok (fst (train_step (Demo.ext 100 200) (Demo.config 0)
                         (Demo.locals 100 200) Demo.empty_batch false
                         {| gen := Demo.tape; log := [] |})) = true.
Proof.
  split; [reflexivity|]. split; [reflexivity|].
  split; [vm_compute; reflexivity|].
  split; [|vm_compute; reflexivity].
  intros [e He]. vm_compute in He. discriminate He.
Qed.

(** C6 (amended): a token sequence of length 0 raises nothing in the mask
    construction: for N images with N class ids it succeeds, input row i is
    the shifted class id alone and label row i is -100 alone, so no position
    is masked. *)
Theorem C6_empty_sequence_proceeds
        {Gen Pixels TA : Type} (ext : Externals Gen Pixels TA)
        (config : Config TA) (locals : MainLocals Pixels)
        (batch : Batch Pixels) (g : Gen) (N : nat) :
  Torch.is_tensor N 0 (encode (vq_model locals) (pixel_values batch)) ->
  length (class_id batch) = N ->
  exists mi,
    fst (masked_inputs ext config locals batch g) = Ok mi /\
    Torch.is_tensor N 1 (input_ids mi) /\
    Torch.is_tensor N 1 (labels mi) /\
    forall i c,
      nth_error (class_id batch) i = Some c ->
      nth_error (input_ids mi) i
      = Some [Torch.wrap_int64 (c + num_embeddings (vq_model locals))] /\
      nth_error (labels mi) i = Some [IGNORE_LABEL] /\
      nth_error (mask mi) i = Some [].
Proof.
  intros Htok Hcls.
  destruct (masked_inputs_rows ext config locals batch g N 0 Htok Hcls)
    as (mi & Hrun & Hin & Hlab & Hmask & Hslot).
  exists mi. split; [exact Hrun|]. split; [exact Hin|]. split; [exact Hlab|].
  intros i c Hc.
  assert (Hlt : (i < N)%nat)
    by (rewrite <- Hcls; apply nth_error_Some; congruence).
  destruct (Hslot i c Hc) as [E1 E2]. unfold entry in E1, E2.
  destruct (nth_error_within _ _ i (proj1 Hin) Hlt) as [ri Hri].
  destruct (nth_error_within _ _ i (proj1 Hlab) Hlt) as [rl Hrl].
  destruct (nth_error_within _ _ i (proj1 Hmask) Hlt) as [rm Hrm].
  pose proof (is_tensor_row _ _ _ _ _ Hin Hri) as Li.
  pose proof (is_tensor_row _ _ _ _ _ Hlab Hrl) as Ll.
  pose proof (is_tensor_row _ _ _ _ _ Hmask Hrm) as Lm.
  rewrite Hri in E1. rewrite Hrl in E2. rewrite Hri, Hrl, Hrm.
  destruct ri as [|a [|? ?]]; try discriminate Li.
  destruct rl as [|b [|? ?]]; try discriminate Ll.
  destruct rm; try discriminate Lm.
  simpl in E1, E2. injection E1 as ->. injection E2 as ->.
  repeat split.
Qed.

Lemma C6_empty_sequence_proceeds_witness :
  exists mi,
    fst (masked_inputs (Demo.ext 100 200) (Demo.config 0)
                       (Demo.locals 100 200) Demo.empty_batch Demo.tape)
    = Ok mi /\
    Torch.is_tensor 1 1 (input_ids mi) /\
    Torch.is_tensor 1 1 (labels mi) /\
    nth_error (input_ids mi) 0 = Some [Torch.wrap_int64 (2 + 100)] /\
    nth_error (labels mi) 0 = Some [IGNORE_LABEL] /\
    nth_error (mask mi) 0 = Some [].
Proof.
  destruct (C6_empty_sequence_proceeds (Demo.ext 100 200) (Demo.config 0)
                                       (Demo.locals 100 200) Demo.empty_batch
                                       Demo.tape 1)
    as (mi & Hrun & Hin & Hlab & Hrows).
  - split; [reflexivity | repeat constructor].
  - reflexivity.
  - exists mi. split; [exact Hrun|]. split; [exact Hin|]. split; [exact Hlab|].
    apply (Hrows 0%nat 2%Z). reflexivity.
Defined.

(** C7 (as stated, refuted): a mask id of 5 with a vocabulary of 100 codes
    lies in [0, V), and set-up accepts it. *)
Lemma C7_mask_id_in_vocab_counterexample :
  (0 <= 5 < 100)%Z /\
  setup (Demo.ext 100 5) (Demo.config 0) = Ok (Demo.locals 100 5) /\
  mask_id (Demo.locals 100 5) = 5%Z /\
  num_embeddings (vq_model (Demo.locals 100 5)) = 100%Z.
Proof.
  split; [lia|]. repeat split.
Qed.

(** C7 (amended): a mask_token_id within [0, V) is not rejected at set-up,
    because set-up never looks at it: with everything else the same, two
    constructed models, whatever their mask_token_id (inside the vocabulary
    or not), make set-up raise the same exception or succeed alike, with
    the same tokenizer, columns and splits; when it succeeds, the mask id
    kept for [train_step] is the mask_token_id of the model. *)
Theorem C7_setup_ignores_mask_id
        {Gen Pixels TA : Type} (ext1 ext2 : Externals Gen Pixels TA)
        (config : Config TA) (m1 m2 : Transformer) :
  MaskGitVQGAN_from_pretrained ext1 = MaskGitVQGAN_from_pretrained ext2 ->
  load_dataset ext1 = load_dataset ext2 ->
  train_test_split ext1 = train_test_split ext2 ->
  MaskGitTransformer_init ext1 (model_transformer config) = Ok m1 ->
  MaskGitTransformer_init ext2 (model_transformer config) = Ok m2 ->
  match setup ext1 config, setup ext2 config with
  | Ok locals1, Ok locals2 =>
      model locals1 = m1 /\ model locals2 = m2 /\
      mask_id locals1 = mask_token_id m1 /\
      mask_id locals2 = mask_token_id m2 /\
      vq_model locals1 = vq_model locals2 /\
      image_column locals1 = image_column locals2 /\
      label_column locals1 = label_column locals2 /\
      train_dataset locals1 = train_dataset locals2 /\
      eval_dataset locals1 = eval_dataset locals2
  | Raise e1, Raise e2 => e1 = e2
  | _, _ => False
  end.
Proof.
  intros Hvq Hds Htts Hm1 Hm2. unfold setup.
  rewrite Hvq, Hds, Htts, Hm1, Hm2.
  destruct (MaskGitVQGAN_from_pretrained ext2 _) as [vq|e]; simpl;
    [|reflexivity].
  destruct (load_dataset ext2 _ _) as [dataset|e]; simpl; [|reflexivity].
  destruct (train_column_names _ dataset) as [names|e]; simpl; [|reflexivity].
  destruct (resolve_image_column names _ _) as [ic|e]; simpl; [|reflexivity].
  destruct (resolve_label_column names _ _) as [lc|e]; simpl; [|reflexivity].
  destruct (choose_splits _ _ dataset) as [[tr ev]|e]; simpl; [|reflexivity].
  repeat split.
Qed.

Lemma C7_setup_ignores_mask_id_witness :
  match setup (Demo.ext 100 5) (Demo.config 0),
        setup (Demo.ext 100 200) (Demo.config 0) with
  | Ok locals1, Ok locals2 =>
      model locals1 = Demo.transformer 5 /\
      model locals2 = Demo.transformer 200 /\
      mask_id locals1 = mask_token_id (Demo.transformer 5) /\
      mask_id locals2 = mask_token_id (Demo.transformer 200) /\
      vq_model locals1 = vq_model locals2 /\
      image_column locals1 = image_column locals2 /\
      label_column locals1 = label_column locals2 /\
      train_dataset locals1 = train_dataset locals2 /\
      eval_dataset locals1 = eval_dataset locals2
  | Raise e1, Raise e2 => e1 = e2
  | _, _ => False
  end.
Proof.
  apply (C7_setup_ignores_mask_id (Demo.ext 100 5) (Demo.ext 100 200)
                                  (Demo.config 0)
                                  (Demo.transformer 5) (Demo.transformer 200));
    reflexivity.
Defined.

(** * The rest of the script *)

(** ** [flatten_omega_conf] *)

Section FlattenFacts.

Context {V : Type}.

(** Induction on a configuration node, the items of a container seen under
    every value of the flag. *)
Lemma OmegaConf_induction (P : OmegaConf V -> Prop) :
  (forall v, P (Leaf v)) ->
  (forall items_ex,
      (forall b, match items_ex b with
                 | Ok items => Forall (fun kv => P (snd kv)) items
                 | Raise _ => True
                 end) ->
      P (DictConfig items_ex)) ->
  (forall iter_ex,
      (forall b, match iter_ex b with
                 | Ok items => Forall P items
                 | Raise _ => True
                 end) ->
      P (ListConfig iter_ex)) ->
  forall cfg, P cfg.
Proof.
  intros HL HD HI. fix IH 1. intros [v|f|f].
  - apply HL.
  - apply HD. intros b. destruct (f b) as [items|e]; [|exact I].
    induction items as [|[k c] l IHl]; constructor; [apply IH | exact IHl].
  - apply HI. intros b. destruct (f b) as [items|e]; [|exact I].
    induction items as [|c l IHl]; constructor; [apply IH | exact IHl].
Qed.

Lemma dotted_cons (k : string) (p : list string) :
  p <> [] -> dotted (k :: p) = (k ++ "." ++ dotted p)%string.
Proof. destruct p; [congruence | reflexivity]. Qed.

Lemma dict_paths_nonempty (paths : OmegaConf V -> list (list string * V))
      (items : list (string * OmegaConf V)) :
  Forall (fun pv => fst pv <> []) (dict_paths paths items).
Proof.
  induction items as [|[k c] l IHl]; simpl; [constructor|].
  apply Forall_app. split; [|exact IHl].
  apply Forall_forall. intros pv Hin. apply in_map_iff in Hin.
  destruct Hin as (q & <- & _). discriminate.
Qed.

Lemma list_paths_nonempty (paths : OmegaConf V -> list (list string * V))
      (items : list (OmegaConf V)) (idx : nat) :
  Forall (fun pv => fst pv <> []) (list_paths paths items idx).
Proof.
  revert idx. induction items as [|c l IHl]; intros idx; simpl; [constructor|].
  apply Forall_app. split; [|apply IHl].
  apply Forall_forall. intros pv Hin. apply in_map_iff in Hin.
  destruct Hin as (q & <- & _). discriminate.
Qed.

Lemma container_paths_nonempty (cfg : OmegaConf V) (resolve : bool) :
  is_container cfg = true ->
  Forall (fun pv => fst pv <> []) (leaf_paths cfg resolve).
Proof.
  destruct cfg as [v|f|f]; simpl; [discriminate| |]; intros _.
  - destruct (f resolve); [apply dict_paths_nonempty | constructor].
  - destruct (f resolve); [apply list_paths_nonempty | constructor].
Qed.

Lemma prefix_keys_paths (k : string) (l : list (list string * V)) :
  Forall (fun pv => fst pv <> []) l ->
  prefix_keys k (entries_of_paths l)
  = entries_of_paths (map (fun pv => (k :: fst pv, snd pv)) l).
Proof.
  intros H. unfold prefix_keys, entries_of_paths. rewrite !map_map.
  apply map_ext_in. intros pv Hin. simpl.
  rewrite Forall_forall in H. now rewrite dotted_cons by (apply H; exact Hin).
Qed.

Lemma entries_of_paths_app (l1 l2 : list (list string * V)) :
  entries_of_paths (l1 ++ l2) = entries_of_paths l1 ++ entries_of_paths l2.
Proof. apply map_app. Qed.

(** The two loops: the first exception of a read below ends them;
    without one they extend [ret] by the entries of the items. *)
Lemma flatten_dict_items_paths (resolve : bool)
      (items : list (string * OmegaConf V)) :
  Forall (fun kv =>
            is_container (snd kv) = true ->
            flatten_omega_conf (snd kv) resolve
            = match read_error (snd kv) resolve with
              | Some e => Raise e
              | None =>
                  Ok (entries_of_paths (leaf_paths (snd kv) resolve))
              end) items ->
  forall ret,
    flatten_dict_items (fun v => flatten_omega_conf v resolve) items ret
    = match dict_read_error (fun v => read_error v resolve) items with
      | Some e => Raise e
      | None =>
          Ok (ret ++ entries_of_paths
                       (dict_paths (fun v => leaf_paths v resolve) items))
      end.
Proof.
  induction 1 as [|[k c] l Hc _ IHl]; intros ret.
  - simpl. now rewrite app_nil_r.
  - cbn [flatten_dict_items dict_read_error dict_paths snd] in *.
    rewrite entries_of_paths_app.
    destruct c as [x|g|g].
    + rewrite IHl. cbn [read_error].
      destruct (dict_read_error _ l); [reflexivity|].
      now rewrite app_assoc.
    + rewrite Hc by reflexivity.
      destruct (read_error (DictConfig g) resolve) as [e|]; [reflexivity|].
      cbn [bind]. rewrite IHl.
      destruct (dict_read_error _ l); [reflexivity|].
      rewrite prefix_keys_paths
        by (apply (container_paths_nonempty (DictConfig g)); reflexivity).
      now rewrite app_assoc.
    + rewrite Hc by reflexivity.
      destruct (read_error (ListConfig g) resolve) as [e|]; [reflexivity|].
      cbn [bind]. rewrite IHl.
      destruct (dict_read_error _ l); [reflexivity|].
      rewrite prefix_keys_paths
        by (apply (container_paths_nonempty (ListConfig g)); reflexivity).
      now rewrite app_assoc.
Qed.

Lemma flatten_list_items_paths (resolve : bool)
      (items : list (OmegaConf V)) :
  Forall (fun c =>
            is_container c = true ->
            flatten_omega_conf c resolve
            = match read_error c resolve with
              | Some e => Raise e
              | None => Ok (entries_of_paths (leaf_paths c resolve))
              end) items ->
  forall idx ret,
    flatten_list_items (fun v => flatten_omega_conf v resolve) items idx ret
    = match list_read_error (fun v => read_error v resolve) items with
      | Some e => Raise e
      | None =>
          Ok (ret ++ entries_of_paths
                       (list_paths (fun v => leaf_paths v resolve) items idx))
      end.
Proof.
  induction 1 as [|c l Hc _ IHl]; intros idx ret.
  - simpl. now rewrite app_nil_r.
  - cbn [flatten_list_items list_read_error list_paths] in *.
    rewrite entries_of_paths_app.
    destruct c as [x|g|g].
    + rewrite IHl. cbn [read_error].
      destruct (list_read_error _ l); [reflexivity|].
      now rewrite app_assoc.
    + rewrite Hc by reflexivity.
      destruct (read_error (DictConfig g) resolve) as [e|]; [reflexivity|].
      cbn [bind]. rewrite IHl.
      destruct (list_read_error _ l); [reflexivity|].
      rewrite prefix_keys_paths
        by (apply (container_paths_nonempty (DictConfig g)); reflexivity).
      now rewrite app_assoc.
    + rewrite Hc by reflexivity.
      destruct (read_error (ListConfig g) resolve) as [e|]; [reflexivity|].
      cbn [bind]. rewrite IHl.
      destruct (list_read_error _ l); [reflexivity|].
      rewrite prefix_keys_paths
        by (apply (container_paths_nonempty (ListConfig g)); reflexivity).
      now rewrite app_assoc.
Qed.

(** On a container the function raises the first exception of a read
    below it; without one it lists the plain values below the container in
    order, each under the dotted name of its path. *)
Lemma flatten_omega_conf_paths (cfg : OmegaConf V) (resolve : bool) :
  is_container cfg = true ->
  flatten_omega_conf cfg resolve
  = match read_error cfg resolve with
    | Some e => Raise e
    | None => Ok (entries_of_paths (leaf_paths cfg resolve))
    end.
Proof.
  induction cfg as [v|f IH|f IH] using OmegaConf_induction;
    simpl; [discriminate| |]; intros _.
  - specialize (IH resolve). destruct (f resolve) as [items|e]; [|reflexivity].
    now rewrite (flatten_dict_items_paths resolve items IH []).
  - specialize (IH resolve). destruct (f resolve) as [items|e]; [|reflexivity].
    now rewrite (flatten_list_items_paths resolve items IH 0 []).
Qed.

(** *** Paths lead to their values *)

Lemma str_of_nat_inj (n m : nat) : str_of_nat n = str_of_nat m -> n = m.
Proof.
  unfold str_of_nat. intros H. apply DecimalNat.Unsigned.to_uint_inj.
  assert (E : Some (Nat.to_uint n) = Some (Nat.to_uint m))
    by (rewrite <- !NilEmpty.usu; now rewrite H).
  now injection E.
Qed.

Lemma all_items_In (P : OmegaConf V -> Prop) items k c :
  all_items P items -> In (k, c) items -> P c.
Proof.
  induction items as [|[k' c'] l IHl]; simpl; [tauto|].
  intros [Hc Hl] [[= -> ->]|Hin]; auto.
Qed.

Lemma all_nodes_In (P : OmegaConf V -> Prop) items c :
  all_nodes P items -> In c items -> P c.
Proof.
  induction items as [|c' l IHl]; simpl; [tauto|].
  intros [Hc Hl] [->|Hin]; auto.
Qed.

Lemma lookup_item_NoDup {A : Type} (items : list (string * A)) k c :
  NoDup (map fst items) -> In (k, c) items -> lookup_item k items = Some c.
Proof.
  induction items as [|[k' c'] l IHl]; simpl; [tauto|].
  intros Hnd [[= -> ->]|Hin].
  - now rewrite String.eqb_refl.
  - inversion Hnd as [|? ? Hk Hl]; subst.
    destruct (String.eqb_spec k k') as [->|_]; [|auto].
    exfalso. apply Hk. apply in_map_iff. now exists (k', c).
Qed.

Lemma lookup_index_nth {A : Type} (items : list A) (idx j : nat) c :
  nth_error items j = Some c ->
  lookup_index (str_of_nat (idx + j)) items idx = Some c.
Proof.
  revert idx j. induction items as [|a l IHl]; intros idx [|j]; simpl;
    try discriminate.
  - intros [= ->]. now rewrite Nat.add_0_r, String.eqb_refl.
  - intros H. destruct (String.eqb_spec (str_of_nat (idx + S j))
                                        (str_of_nat idx)) as [E|_].
    + apply str_of_nat_inj in E. lia.
    + replace (idx + S j)%nat with (S idx + j)%nat by lia. now apply IHl.
Qed.

Lemma in_dict_paths (paths : OmegaConf V -> list (list string * V)) items p v :
  In (p, v) (dict_paths paths items) ->
  exists k c q, In (k, c) items /\ p = k :: q /\ In (q, v) (paths c).
Proof.
  induction items as [|[k c] l IHl]; simpl; [tauto|].
  intros Hin. apply in_app_or in Hin. destruct Hin as [Hin|Hin].
  - apply in_map_iff in Hin. destruct Hin as ([q w] & [= <- <-] & Hq).
    exists k, c, q. auto.
  - destruct (IHl Hin) as (k' & c' & q & H1 & H2 & H3).
    exists k', c', q. auto.
Qed.

Lemma in_list_paths (paths : OmegaConf V -> list (list string * V))
      items idx p v :
  In (p, v) (list_paths paths items idx) ->
  exists j c q,
    nth_error items j = Some c /\ p = str_of_nat (idx + j) :: q /\
    In (q, v) (paths c).
Proof.
  revert idx. induction items as [|c l IHl]; intros idx; simpl; [tauto|].
  intros Hin. apply in_app_or in Hin. destruct Hin as [Hin|Hin].
  - apply in_map_iff in Hin. destruct Hin as ([q w] & [= <- <-] & Hq).
    exists 0%nat, c, q. now rewrite Nat.add_0_r.
  - destruct (IHl _ Hin) as (j & c' & q & H1 & H2 & H3).
    exists (S j), c', q. split; [exact H1|]. split; [|exact H3].
    rewrite H2. f_equal. f_equal. lia.
Qed.

Lemma leaf_paths_select (cfg : OmegaConf V) (resolve : bool) :
  unique_keys cfg resolve ->
  forall p v, In (p, v) (leaf_paths cfg resolve) ->
              select p cfg resolve = Some v.
Proof.
  induction cfg as [x|f IH|f IH] using OmegaConf_induction; simpl.
  - intros _ p v [[= <- <-]|[]]. reflexivity.
  - specialize (IH resolve). intros Hu p v Hin.
    destruct (f resolve) as [items|e] eqn:Ef; [|destruct Hin].
    destruct Hu as [Hnd Hall].
    destruct (in_dict_paths _ _ _ _ Hin) as (k & c & q & Hkc & -> & Hq).
    simpl. rewrite Ef, (lookup_item_NoDup _ _ _ Hnd Hkc).
    rewrite Forall_forall in IH.
    apply (IH (k, c) Hkc); [|exact Hq].
    apply (all_items_In _ _ _ _ Hall Hkc).
  - specialize (IH resolve). intros Hall p v Hin.
    destruct (f resolve) as [items|e] eqn:Ef; [|destruct Hin].
    destruct (in_list_paths _ _ _ _ _ Hin) as (j & c & q & Hj & -> & Hq).
    pose proof (lookup_index_nth _ 0 j c Hj) as E. simpl in *.
    rewrite Ef, E.
    rewrite Forall_forall in IH.
    apply (IH c (nth_error_In _ _ Hj)); [|exact Hq].
    apply (all_nodes_In _ _ _ Hall (nth_error_In _ _ Hj)).
Qed.

(** *** Dotted names are distinct *)

Lemma dot_free_app_dot (a b : string) :
  dot_free (a ++ String "." b)%string = false.
Proof.
  induction a as [|c a IHa]; simpl; [reflexivity|].
  rewrite IHa. apply andb_false_r.
Qed.

Lemma app_dot_inj (a b x y : string) :
  dot_free a = true -> dot_free b = true ->
  (a ++ "." ++ x)%string = (b ++ "." ++ y)%string -> a = b /\ x = y.
Proof.
  revert b. induction a as [|c a IHa]; intros [|d b]; simpl.
  - intros _ _ [= ->]. auto.
  - intros _ Hb [= <- _]. simpl in Hb. discriminate.
  - intros Ha _ [= -> _]. simpl in Ha. discriminate.
  - intros Ha Hb [= -> E].
    apply andb_true_iff in Ha, Hb.
    destruct (IHa b (proj2 Ha) (proj2 Hb) E) as [-> ->]. auto.
Qed.

Lemma dotted_inj (p q : list string) :
  p <> [] -> q <> [] ->
  Forall (fun s => dot_free s = true) p ->
  Forall (fun s => dot_free s = true) q ->
  dotted p = dotted q -> p = q.
Proof.
  revert q. induction p as [|a p IHp]; intros [|b q] Hp Hq Fp Fq E;
    try congruence.
  inversion Fp as [|? ? Ha Fp']; inversion Fq as [|? ? Hb Fq']; subst.
  destruct p as [|a' p], q as [|b' q].
  - unfold dotted in E. simpl in E. now subst.
  - exfalso. unfold dotted in E. simpl in E. subst a.
    change (dot_free (b ++ String "." (String.concat "." (b' :: q)))%string
            = true) in Ha.
    now rewrite dot_free_app_dot in Ha.
  - exfalso. unfold dotted in E. simpl in E. subst b.
    change (dot_free (a ++ String "." (String.concat "." (a' :: p)))%string
            = true) in Hb.
    now rewrite dot_free_app_dot in Hb.
  - rewrite !dotted_cons in E by discriminate.
    destruct (app_dot_inj _ _ _ _ Ha Hb E) as [-> E'].
    f_equal. apply IHp; auto; discriminate.
Qed.

Lemma dot_free_str_of_nat (n : nat) : dot_free (str_of_nat n) = true.
Proof.
  unfold str_of_nat. induction (Nat.to_uint n); simpl; auto.
Qed.

Lemma NoDup_map_in_inj {A B : Type} (f : A -> B) (l : list A) :
  (forall x y, In x l -> In y l -> f x = f y -> x = y) ->
  NoDup l -> NoDup (map f l).
Proof.
  induction l as [|a l IHl]; simpl; intros Hinj Hnd; [constructor|].
  inversion Hnd as [|? ? Ha Hl]; subst. constructor.
  - intros Hin. apply in_map_iff in Hin. destruct Hin as (x & E & Hx).
    apply Ha. rewrite <- (Hinj x a); auto.
  - apply IHl; auto.
Qed.

Lemma map_fst_cons_paths (k : string) (l : list (list string * V)) :
  map fst (map (fun pv => (k :: fst pv, snd pv)) l) = map (cons k) (map fst l).
Proof. rewrite !map_map. reflexivity. Qed.

Lemma NoDup_cons_paths (k : string) (l : list (list string)) :
  NoDup l -> NoDup (map (cons k) l).
Proof.
  intros H. apply NoDup_map_in_inj; [|exact H]. now intros x y _ _ [= ->].
Qed.

Lemma leaf_paths_NoDup (cfg : OmegaConf V) (resolve : bool) :
  unique_keys cfg resolve -> NoDup (map fst (leaf_paths cfg resolve)).
Proof.
  induction cfg as [x|f IH|f IH] using OmegaConf_induction; simpl.
  - intros _. repeat constructor. intros [].
  - specialize (IH resolve).
    destruct (f resolve) as [items|e]; [|intros _; constructor].
    intros [Hnd Hall].
    induction items as [|[k c] l IHl]; simpl; [constructor|].
    inversion Hnd as [|? ? Hk Hl]; inversion IH as [|? ? Hc IHr]; subst.
    destruct Hall as [Huc Hall].
    rewrite map_app, map_fst_cons_paths. apply NoDup_app.
    + apply NoDup_cons_paths. now apply Hc.
    + now apply IHl.
    + intros p Hp Hin. apply in_map_iff in Hp. destruct Hp as (q & <- & _).
      apply in_map_iff in Hin. destruct Hin as ([p' v] & E & Hin).
      simpl in E. subst p'.
      destruct (in_dict_paths _ _ _ _ Hin) as (k' & c' & q' & Hkc & [= <- _] & _).
      apply Hk. apply in_map_iff. now exists (k, c').
  - specialize (IH resolve).
    destruct (f resolve) as [items|e]; [|intros _; constructor].
    intros Hall. generalize 0%nat.
    induction items as [|c l IHl]; intros idx; simpl; [constructor|].
    inversion IH as [|? ? Hc IHr]; subst. destruct Hall as [Huc Hall].
    rewrite map_app, map_fst_cons_paths. apply NoDup_app.
    + apply NoDup_cons_paths. now apply Hc.
    + now apply IHl.
    + intros p Hp Hin. apply in_map_iff in Hp. destruct Hp as (q & <- & _).
      apply in_map_iff in Hin. destruct Hin as ([p' v] & E & Hin).
      simpl in E. subst p'.
      destruct (in_list_paths _ _ _ _ _ Hin) as (j & c' & q' & _ & [= E _] & _).
      apply str_of_nat_inj in E. lia.
Qed.

Lemma leaf_paths_dot_free (cfg : OmegaConf V) (resolve : bool) :
  plain_keys cfg resolve ->
  Forall (fun pv => Forall (fun s => dot_free s = true) (fst pv))
         (leaf_paths cfg resolve).
Proof.
  induction cfg as [x|f IH|f IH] using OmegaConf_induction; simpl.
  - intros _. repeat constructor.
  - specialize (IH resolve).
    destruct (f resolve) as [items|e]; [|intros _; constructor].
    intros [Hk Hall].
    induction items as [|[k c] l IHl]; simpl; [constructor|].
    inversion Hk as [|? ? Hk1 Hk2]; inversion IH as [|? ? Hc IHr]; subst.
    destruct Hall as [Hpc Hall].
    apply Forall_app. split; [|now apply IHl].
    apply Forall_forall. intros pv Hin. apply in_map_iff in Hin.
    destruct Hin as (q & <- & Hq). simpl. constructor; [exact Hk1|].
    specialize (Hc Hpc). rewrite Forall_forall in Hc. now apply Hc.
  - specialize (IH resolve).
    destruct (f resolve) as [items|e]; [|intros _; constructor].
    intros Hall. generalize 0%nat.
    induction items as [|c l IHl]; intros idx; simpl; [constructor|].
    inversion IH as [|? ? Hc IHr]; subst. destruct Hall as [Hpc Hall].
    apply Forall_app. split; [|now apply IHl].
    apply Forall_forall. intros pv Hin. apply in_map_iff in Hin.
    destruct Hin as (q & <- & Hq). simpl.
    constructor; [apply dot_free_str_of_nat|].
    specialize (Hc Hpc). rewrite Forall_forall in Hc. now apply Hc.
Qed.

(** *** What a caller of [flatten_omega_conf] can rely on *)

Lemma flatten_returns_container (cfg : OmegaConf V) (resolve : bool) l :
  flatten_omega_conf cfg resolve = Ok l -> is_container cfg = true.
Proof. destruct cfg; simpl; [discriminate | reflexivity | reflexivity]. Qed.

Lemma flatten_returns_paths (cfg : OmegaConf V) (resolve : bool) l :
  flatten_omega_conf cfg resolve = Ok l ->
  l = entries_of_paths (leaf_paths cfg resolve).
Proof.
  intros Hl. pose proof (flatten_returns_container cfg resolve l Hl) as E.
  rewrite (flatten_omega_conf_paths cfg resolve E) in Hl.
  destruct (read_error cfg resolve); [discriminate|]. now injection Hl.
Qed.

(** X1: the outcomes of the function.  Given a node that is neither a dict
    nor a list it raises its AssertionError.  Given a dict or a list it
    never reaches the assertion: it raises exactly when a call of items_ex
    or _iter_ex on a node below raises, and then that exception, the first
    one in the order of the traversal; it returns exactly when all of them
    return. *)
Theorem flatten_omega_conf_outcomes (cfg : OmegaConf V) (resolve : bool) :
  (is_container cfg = false ->
   flatten_omega_conf cfg resolve = Raise AssertionError) /\
  (is_container cfg = true ->
   (forall e, flatten_omega_conf cfg resolve = Raise e
              <-> read_error cfg resolve = Some e) /\
   ((exists l, flatten_omega_conf cfg resolve = Ok l)
    <-> read_error cfg resolve = None)).
Proof.
  split.
  - destruct cfg; simpl; [reflexivity | discriminate | discriminate].
  - intros E. rewrite (flatten_omega_conf_paths cfg resolve E).
    destruct (read_error cfg resolve) as [e0|].
    + split.
      * intros e. split; intros [= ->]; reflexivity.
      * split; [intros [l H]; discriminate H | discriminate].
    + split.
      * intros e. split; discriminate.
      * split; [reflexivity | eauto].
Qed.

(** X2: a result the function returns holds one entry for every plain
    value below the node, in the order of the traversal, each under the
    dotted path of the keys and list indices that lead to it; so it has as
    many entries as there are plain values, and a nested container without
    any leaves no entry. *)
Theorem flatten_omega_conf_lists_leaves (cfg : OmegaConf V) (resolve : bool)
        (l : list (string * V)) :
  flatten_omega_conf cfg resolve = Ok l ->
  l = entries_of_paths (leaf_paths cfg resolve) /\
  length l = length (leaf_paths cfg resolve) /\
  map snd l = map snd (leaf_paths cfg resolve).
Proof.
  intros Hl. pose proof (flatten_returns_container cfg resolve l Hl) as E.
  rewrite (flatten_omega_conf_paths cfg resolve E) in Hl.
  destruct (read_error cfg resolve); [discriminate|].
  injection Hl as <-. split; [reflexivity|]. unfold entries_of_paths.
  rewrite length_map, map_map. auto.
Qed.

(** X3: with dict keys that are pairwise different, every entry
    (key, value) of the result names its value: the key is the dotted form
    of a path, and following that path through the configuration ends at
    the value. *)
Theorem flatten_omega_conf_entries_select (cfg : OmegaConf V) (resolve : bool)
        (l : list (string * V)) (key : string) (v : V) :
  unique_keys cfg resolve ->
  flatten_omega_conf cfg resolve = Ok l ->
  In (key, v) l ->
  exists path, key = dotted path /\ select path cfg resolve = Some v.
Proof.
  intros Hu Hl Hin.
  rewrite (flatten_returns_paths cfg resolve l Hl) in Hin.
  apply in_map_iff in Hin.
  destruct Hin as ([p w] & [= <- <-] & Hp).
  exists p. split; [reflexivity|]. now apply leaf_paths_select.
Qed.

(** X4: with dict keys that are pairwise different and free of dots, the
    keys of the result are pairwise different: the dict built from the
    entries keeps every one of them. *)
Theorem flatten_omega_conf_keys_distinct (cfg : OmegaConf V) (resolve : bool)
        (l : list (string * V)) :
  unique_keys cfg resolve ->
  plain_keys cfg resolve ->
  flatten_omega_conf cfg resolve = Ok l ->
  NoDup (map fst l).
Proof.
  intros Hu Hp Hl.
  pose proof (flatten_returns_container cfg resolve l Hl) as E.
  rewrite (flatten_returns_paths cfg resolve l Hl).
  unfold entries_of_paths. rewrite map_map. simpl.
  rewrite <- (map_map fst dotted).
  pose proof (container_paths_nonempty cfg resolve E) as Hne.
  pose proof (leaf_paths_dot_free cfg resolve Hp) as Hdf.
  rewrite Forall_forall in Hne, Hdf.
  apply NoDup_map_in_inj; [|now apply leaf_paths_NoDup].
  intros p q Hpi Hqi Epq.
  apply in_map_iff in Hpi, Hqi.
  destruct Hpi as (pv & <- & Hpv). destruct Hqi as (qv & <- & Hqv).
  apply dotted_inj; auto.
Qed.

End FlattenFacts.

Lemma flatten_omega_conf_outcomes_witness :
  (forall e, flatten_omega_conf Sample.missing_config true = Raise e
             <-> read_error Sample.missing_config true = Some e) /\
  ((exists l, flatten_omega_conf Sample.missing_config true = Ok l)
   <-> read_error Sample.missing_config true = None).
Proof.
  apply (proj2 (flatten_omega_conf_outcomes Sample.missing_config true)).
  reflexivity.
Defined.

(** The missing value is met only when values are resolved. *)
Example flatten_omega_conf_missing_value :
  flatten_omega_conf Sample.missing_config true
  = Raise (MissingMandatoryValue "training.seed") /\
  flatten_omega_conf Sample.missing_config false
  = Ok [("lr", 3%Z); ("training.seed", 0%Z)]%string.
Proof. split; reflexivity. Qed.

Lemma flatten_omega_conf_lists_leaves_witness :
  [("training.seed", 7); ("training.steps.0", 10);
   ("training.steps.1", 20); ("lr", 3)]%string%Z
  = entries_of_paths (leaf_paths Sample.tracker_config true) /\
  length [("training.seed", 7); ("training.steps.0", 10);
          ("training.steps.1", 20); ("lr", 3)]%string%Z
  = length (leaf_paths Sample.tracker_config true) /\
  map snd [("training.seed", 7); ("training.steps.0", 10);
           ("training.steps.1", 20); ("lr", 3)]%string%Z
  = map snd (leaf_paths Sample.tracker_config true).
Proof.
  apply (flatten_omega_conf_lists_leaves Sample.tracker_config true).
  reflexivity.
Defined.

Lemma flatten_omega_conf_entries_select_witness :
  exists path,
    "training.steps.1"%string = dotted path /\
    select path Sample.tracker_config true = Some 20%Z.
Proof.
  apply (flatten_omega_conf_entries_select
           Sample.tracker_config true
           [("training.seed", 7); ("training.steps.0", 10);
            ("training.steps.1", 20); ("lr", 3)]%string%Z
           "training.steps.1"%string 20%Z).
  - simpl. repeat split; repeat constructor; simpl; intuition discriminate.
  - reflexivity.
  - simpl. auto.
Defined.

Lemma flatten_omega_conf_keys_distinct_witness :
  NoDup ["training.seed"; "training.steps.0"; "training.steps.1"; "lr"]%string.
Proof.
  apply (flatten_omega_conf_keys_distinct
           Sample.tracker_config true
           [("training.seed", 7); ("training.steps.0", 10);
            ("training.steps.1", 20); ("lr", 3)]%string%Z).
  - simpl. repeat split; repeat constructor; simpl; intuition discriminate.
  - simpl. repeat split; repeat constructor.
  - reflexivity.
Defined.

(** Without the condition on dots two entries can share a key. *)
Example flatten_omega_conf_dotted_key_collides :
  flatten_omega_conf
    (DictConfig (fun _ =>
       Ok [("a.b", Leaf 1%Z);
           ("a", DictConfig (fun _ => Ok [("b", Leaf 2%Z)]))]%string)) true
  = Ok [("a.b", 1%Z); ("a.b", 2%Z)]%string.
Proof. reflexivity. Qed.


(** ** The columns of the data set *)

Lemma existsb_eqb_In (c : string) (names : list string) :
  existsb (String.eqb c) names = true <-> In c names.
Proof.
  rewrite existsb_exists. split.
  - intros (x & Hin & E). apply String.eqb_eq in E. now subst.
  - intros Hin. exists c. split; [exact Hin | apply String.eqb_refl].
Qed.

(** X5: a configured column name is accepted exactly when it is one of the
    data set's columns, and then it is the column used, whatever the data
    set's default names are; otherwise a ValueError is raised. *)
Theorem configured_column_must_exist
        (column_names : list string) (dataset_columns : option (string * string))
        (c : string) :
  (resolve_image_column column_names dataset_columns (Some c) = Ok c
   <-> In c column_names) /\
  (resolve_label_column column_names dataset_columns (Some c) = Ok c
   <-> In c column_names) /\
  (~ In c column_names <->
   exists msg,
     resolve_image_column column_names dataset_columns (Some c)
     = Raise (ValueError msg)) /\
  (~ In c column_names <->
   exists msg,
     resolve_label_column column_names dataset_columns (Some c)
     = Raise (ValueError msg)).
Proof.
  unfold resolve_image_column, resolve_label_column.
  pose proof (existsb_eqb_In c column_names) as H.
  destruct (existsb (String.eqb c) column_names).
  - assert (Hin : In c column_names) by now apply H.
    repeat split; auto; try (intros Hn; contradiction);
      intros [msg E]; discriminate E.
  - assert (Hn : ~ In c column_names)
      by (intros Hin; apply H in Hin; discriminate).
    repeat split; try (intros E; discriminate E);
      try (intros Hin; contradiction); eauto.
Qed.

(** X6: with no column configured nothing is checked against the data
    set's columns: for the two known data sets the default names are
    returned as they are, also when the data set has no such column; for
    any other data set the first column is the image column and the second
    the label column, and an IndexError is raised exactly when that column
    does not exist. *)
Theorem default_columns_unchecked (column_names : list string) (path : string) :
  (path = "imagenet-1k"%string ->
   resolve_image_column column_names (dataset_name_mapping path) None
   = Ok "image"%string /\
   resolve_label_column column_names (dataset_name_mapping path) None
   = Ok "label"%string) /\
  (path = "cifar10"%string ->
   resolve_image_column column_names (dataset_name_mapping path) None
   = Ok "img"%string /\
   resolve_label_column column_names (dataset_name_mapping path) None
   = Ok "label"%string) /\
  (path <> "imagenet-1k"%string -> path <> "cifar10"%string ->
   resolve_image_column column_names (dataset_name_mapping path) None
   = match nth_error column_names 0 with
     | Some c => Ok c
     | None => Raise IndexError
     end /\
   resolve_label_column column_names (dataset_name_mapping path) None
   = match nth_error column_names 1 with
     | Some c => Ok c
     | None => Raise IndexError
     end).
Proof.
  split; [intros ->; split; reflexivity|].
  split; [intros ->; split; reflexivity|].
  intros H1 H2. unfold dataset_name_mapping.
  apply String.eqb_neq in H1, H2. rewrite H1, H2. simpl.
  destruct column_names as [|a [|b l]]; split; reflexivity.
Qed.

Lemma default_columns_unchecked_witness :
  resolve_image_column [] (dataset_name_mapping "imagenet-1k") None
  = Ok "image"%string /\
  resolve_label_column [] (dataset_name_mapping "imagenet-1k") None
  = Ok "label"%string.
Proof.
  apply (proj1 (default_columns_unchecked [] "imagenet-1k")). reflexivity.
Defined.

(** X7: what a successful set-up guarantees: both models were constructed
    and are the ones kept, the mask id is the model's mask_token_id, and a
    configured image or label column is a column of the loaded data set. *)
Theorem setup_success_guarantees
        {Gen Pixels TA : Type} (ext : Externals Gen Pixels TA)
        (config : Config TA) (locals : MainLocals Pixels) :
  setup ext config = Ok locals ->
  MaskGitVQGAN_from_pretrained ext (model_vq_model_pretrained config)
  = Ok (vq_model locals) /\
  MaskGitTransformer_init ext (model_transformer config) = Ok (model locals) /\
  mask_id locals = mask_token_id (model locals) /\
  exists column_names,
    load_dataset_column_names ext (dataset_path config)
                              (dataset_streaming config) = Ok column_names /\
    (forall c, dataset_image_column config = Some c ->
               image_column locals = c /\ In c column_names) /\
    (forall c, dataset_label_column config = Some c ->
               label_column locals = c /\ In c column_names).
Proof.
  unfold setup, load_dataset_column_names.
  destruct (MaskGitVQGAN_from_pretrained ext _) as [vq|e]; [|discriminate].
  destruct (MaskGitTransformer_init ext _) as [m|e]; [|discriminate].
  destruct (load_dataset ext _ _) as [dataset|e]; [|discriminate].
  simpl.
  destruct (train_column_names _ dataset) as [names|e]; [|discriminate].
  simpl.
  destruct (resolve_image_column names _ _) as [ic|e] eqn:Ei; [|discriminate].
  destruct (resolve_label_column names _ _) as [lc|e] eqn:El; [|discriminate].
  simpl.
  destruct (choose_splits _ _ dataset) as [[tr ev]|e]; [|discriminate].
  simpl. intros [= <-]. simpl. repeat split; auto.
  exists names. split; [reflexivity|]. split.
  - intros c Hc. rewrite Hc in Ei. unfold resolve_image_column in Ei.
    destruct (existsb (String.eqb c) names) eqn:Ex; [|discriminate].
    injection Ei as <-. split; [reflexivity|]. now apply existsb_eqb_In.
  - intros c Hc. rewrite Hc in El. unfold resolve_label_column in El.
    destruct (existsb (String.eqb c) names) eqn:Ex; [|discriminate].
    injection El as <-. split; [reflexivity|]. now apply existsb_eqb_In.
Qed.

Lemma setup_success_guarantees_witness :
  MaskGitVQGAN_from_pretrained (Demo.ext 100 200) "vqgan"
  = Ok (Demo.vq 100) /\
  MaskGitTransformer_init (Demo.ext 100 200) tt = Ok (Demo.transformer 200) /\
  200%Z = mask_token_id (Demo.transformer 200) /\
  exists column_names,
    load_dataset_column_names (Demo.ext 100 200) "imagenet-1k" false
    = Ok column_names /\
    (forall c, None = Some c -> "image"%string = c /\ In c column_names) /\
    (forall c, None = Some c -> "label"%string = c /\ In c column_names).
Proof.
  apply (setup_success_guarantees (Demo.ext 100 200) (Demo.config 0)
                                  (Demo.locals 100 200)).
  reflexivity.
Defined.


(** ** [collate_fn] *)

Lemma comprehension_Forall2 {A B : Type} (f : A -> result B) xs ys :
  comprehension f xs = Ok ys <-> Forall2 (fun x y => f x = Ok y) xs ys.
Proof.
  revert ys. induction xs as [|x xs IH]; intros ys; simpl.
  - split.
    + intros [= <-]. constructor.
    + intros H. inversion H. reflexivity.
  - destruct (f x) as [y|e] eqn:Ef; simpl.
    + destruct (comprehension f xs) as [ys'|e] eqn:Ec; simpl.
      * split.
        -- intros [= <-]. constructor; [exact Ef | now apply IH].
        -- intros H. inversion H as [|? y0 ? ys0 Hy Hys]; subst.
           apply IH in Hys. congruence.
      * split; [discriminate|].
        intros H. inversion H as [|? y0 ? ys0 Hy Hys]; subst.
        apply IH in Hys. discriminate.
    + split; [discriminate|].
      intros H. inversion H as [|? y0 ? ys0 Hy Hys]; subst. congruence.
Qed.

Lemma Forall2_nth_error_l {A B : Type} (R : A -> B -> Prop) xs ys i x :
  Forall2 R xs ys -> nth_error xs i = Some x ->
  exists y, nth_error ys i = Some y /\ R x y.
Proof.
  intros H. revert i. induction H as [|a b xs ys Hab _ IH]; intros [|i]; simpl;
    try discriminate.
  - intros [= ->]. eauto.
  - apply IH.
Qed.

Section CollateFacts.

Context {Image : Type}.
Variable image_shape : Image -> list nat.

Lemma torch_stack_returns (fields : list (Field Image)) (images : list Image) :
  torch_stack image_shape fields = Ok images ->
  Forall2 (fun f img => f = ImageField img) fields images /\
  images <> [] /\
  exists shape, Forall (fun img => image_shape img = shape) images.
Proof.
  unfold torch_stack.
  destruct (comprehension as_image fields) as [imgs|e] eqn:Ec; [|discriminate].
  simpl. destruct imgs as [|first rest]; [discriminate|].
  destruct (forallb _ rest) eqn:Ef; [|discriminate].
  intros [= <-]. apply comprehension_Forall2 in Ec. split.
  - eapply Forall2_impl; [|exact Ec]. intros [img|z] img'; simpl; congruence.
  - split; [discriminate|]. exists (image_shape first).
    constructor; [reflexivity|]. rewrite forallb_forall in Ef.
    apply Forall_forall. intros img Hin. specialize (Ef img Hin).
    now destruct (list_eq_dec Nat.eq_dec (image_shape img) (image_shape first)).
Qed.

Lemma collate_fn_lengths
        (image_column label_column : string)
        (examples : list (list (string * Field Image)))
        (batch : Batch (list Image)) :
  collate_fn image_shape image_column label_column examples = Ok batch ->
  length (pixel_values batch) = length examples /\
  length (class_id batch) = length examples.
Proof.
  unfold collate_fn, torch_tensor, torch_stack.
  destruct (comprehension _ examples) as [fields|e] eqn:E1; [|discriminate].
  simpl.
  destruct (comprehension as_image fields) as [images|e] eqn:E2;
    [|discriminate].
  simpl. destruct images as [|first rest]; [discriminate|].
  destruct (forallb _ rest); [|discriminate]. simpl.
  destruct (comprehension (fun example => getitem example label_column)
                          examples) as [lfields|e] eqn:E3; [|discriminate].
  simpl.
  destruct (comprehension as_label lfields) as [zs|e] eqn:E4; [|discriminate].
  simpl. intros [= <-]. simpl.
  apply comprehension_Forall2 in E1, E2, E3, E4.
  apply Forall2_length in E1, E2, E3, E4. simpl in *. split; congruence.
Qed.

(** X8: a batch that [collate_fn] returns is aligned with the examples:
    there is at least one example, the batch holds one image and one class
    id per example, image i and class id i are the values of example i
    under the image and the label column, and all images have one shape. *)
Theorem collate_fn_aligned
        (image_column label_column : string)
        (examples : list (list (string * Field Image)))
        (batch : Batch (list Image)) :
  collate_fn image_shape image_column label_column examples = Ok batch ->
  examples <> [] /\
  length (pixel_values batch) = length examples /\
  length (class_id batch) = length examples /\
  (exists shape, Forall (fun img => image_shape img = shape)
                        (pixel_values batch)) /\
  forall i example,
    nth_error examples i = Some example ->
    exists img z,
      lookup_item image_column example = Some (ImageField img) /\
      lookup_item label_column example = Some (LabelField z) /\
      nth_error (pixel_values batch) i = Some img /\
      nth_error (class_id batch) i = Some z.
Proof.
  unfold collate_fn, torch_tensor.
  destruct (comprehension _ examples) as [fields|e] eqn:E1; [|discriminate].
  simpl.
  destruct (torch_stack image_shape fields) as [images|e] eqn:E2;
    [|discriminate].
  simpl.
  destruct (comprehension (fun example => getitem example label_column)
                          examples) as [lfields|e] eqn:E3; [|discriminate].
  simpl.
  destruct (comprehension as_label lfields) as [zs|e] eqn:E4; [|discriminate].
  simpl. intros [= <-]. simpl.
  apply comprehension_Forall2 in E1, E3, E4.
  destruct (torch_stack_returns _ _ E2) as (F2 & Hne & Hshape).
  pose proof (Forall2_length E1) as L1. pose proof (Forall2_length F2) as L2.
  pose proof (Forall2_length E3) as L3. pose proof (Forall2_length E4) as L4.
  split.
  { intros ->. simpl in L1. destruct fields; [|discriminate].
    inversion F2. congruence. }
  split; [congruence|]. split; [congruence|]. split; [exact Hshape|].
  intros i example Hi.
  destruct (Forall2_nth_error_l _ _ _ _ _ E1 Hi) as (f & Hf & Gf).
  destruct (Forall2_nth_error_l _ _ _ _ _ F2 Hf) as (img & Himg & ->).
  destruct (Forall2_nth_error_l _ _ _ _ _ E3 Hi) as (lf & Hlf & Glf).
  destruct (Forall2_nth_error_l _ _ _ _ _ E4 Hlf) as (z & Hz & Gz).
  exists img, z. unfold getitem in Gf, Glf.
  destruct (lookup_item image_column example) as [f'|]; [|discriminate].
  destruct (lookup_item label_column example) as [lf'|]; [|discriminate].
  injection Gf as ->. injection Glf as ->.
  destruct lf as [?|z']; [discriminate|]. simpl in Gz. injection Gz as ->.
  auto.
Qed.

(** X10: a batch from [collate_fn] never breaks the [torch.cat] of
    [train_step]: with a tokenizer that returns one row of L tokens per
    image, the masked inputs and labels are built, one row of length L + 1
    per example. *)
Theorem collated_batch_is_masked
        {Gen TA : Type} (ext : Externals Gen (list Image) TA)
        (config : Config TA) (locals : MainLocals (list Image)) (g : Gen)
        (image_column label_column : string)
        (examples : list (list (string * Field Image)))
        (batch : Batch (list Image)) (L : nat) :
  collate_fn image_shape image_column label_column examples = Ok batch ->
  (forall images,
      Torch.is_tensor (length images) L (encode (vq_model locals) images)) ->
  exists mi,
    fst (masked_inputs ext config locals batch g) = Ok mi /\
    Torch.is_tensor (length examples) (S L) (input_ids mi) /\
    Torch.is_tensor (length examples) (S L) (labels mi).
Proof.
  intros Hc Henc.
  destruct (collate_fn_lengths _ _ _ _ Hc) as (Lp & Lc).
  destruct (masked_inputs_rows ext config locals batch g
              (length (pixel_values batch)) L (Henc _)
              (eq_trans Lc (eq_sym Lp)))
    as (mi & Hrun & Hin & Hlab & _).
  exists mi. rewrite <- Lp. auto.
Qed.

(** X9: an example without the image column makes [collate_fn] raise
    KeyError for that column, whatever else is wrong with the examples:
    the images are collected first. *)
Theorem collate_fn_missing_image_column
        (image_column label_column : string)
        (examples : list (list (string * Field Image))) :
  Exists (fun example => lookup_item image_column example = None) examples ->
  collate_fn image_shape image_column label_column examples
  = Raise (KeyError image_column).
Proof.
  intros H. unfold collate_fn.
  assert (E : comprehension (fun example => getitem example image_column)
                            examples = Raise (KeyError image_column)).
  { induction H as [example rest Hx|example rest _ IH]; simpl.
    - unfold getitem at 1. now rewrite Hx.
    - unfold getitem at 1.
      destruct (lookup_item image_column example); [|reflexivity].
      simpl. now rewrite IH. }
  now rewrite E.
Qed.

End CollateFacts.

Lemma collate_fn_aligned_witness :
  exists img z,
    lookup_item "image" [("label", LabelField 8);
                         ("image", ImageField [[1; 1 # 4]%Q])]%string
    = Some (ImageField img) /\
    lookup_item "label" [("label", LabelField 8);
                         ("image", ImageField [[1; 1 # 4]%Q])]%string
    = Some (LabelField z) /\
    nth_error [[[1 # 2; 0]]; [[1; 1 # 4]]]%Q 1 = Some img /\
    nth_error [3; 8]%Z 1 = Some z.
Proof.
  destruct (collate_fn_aligned Sample.image_shape "image" "label"
              Sample.examples
              {| pixel_values := [[[1 # 2; 0]]; [[1; 1 # 4]]]%Q;
                 class_id := [3; 8]%Z |})
    as (_ & _ & _ & _ & H).
  - reflexivity.
  - apply (H 1%nat). reflexivity.
Defined.

Lemma collate_fn_missing_image_column_witness :
  collate_fn Sample.image_shape "pixels" "label" Sample.examples
  = Raise (KeyError "pixels").
Proof.
  apply (collate_fn_missing_image_column Sample.image_shape "pixels" "label"
                                         Sample.examples).
  constructor. reflexivity.
Defined.

Lemma collated_batch_is_masked_witness :
  exists mi,
    fst (masked_inputs (Sample.ext 100 200) (Demo.config 0)
                       (Sample.locals 100 200)
                       {| pixel_values := [[[1 # 2; 0]]; [[1; 1 # 4]]]%Q;
                          class_id := [3; 8]%Z |}
                       Sample.tape) = Ok mi /\
    Torch.is_tensor 2 3 (input_ids mi) /\
    Torch.is_tensor 2 3 (labels mi).
Proof.
  apply (collated_batch_is_masked Sample.image_shape
           (Sample.ext 100 200) (Demo.config 0) (Sample.locals 100 200)
           Sample.tape "image" "label" Sample.examples
           {| pixel_values := [[[1 # 2; 0]]; [[1; 1 # 4]]]%Q;
              class_id := [3; 8]%Z |} 2).
  - reflexivity.
  - intros images. split.
    + simpl. apply length_map.
    + apply Forall_forall. intros row Hin. simpl in Hin.
      apply in_map_iff in Hin. now destruct Hin as (img & <- & _).
Defined.


(** ** The checkpoint hooks *)

Lemma pop_app {A : Type} (l : list A) (x : A) : pop (l ++ [x]) = Some (l, x).
Proof. unfold pop. rewrite rev_app_distr. simpl. now rewrite rev_involutive. Qed.

Lemma pop_nil {A : Type} : pop (@nil A) = None.
Proof. reflexivity. Qed.

Lemma pop_Some {A : Type} (l l' : list A) (x : A) :
  pop l = Some (l', x) -> l = l' ++ [x].
Proof.
  destruct l as [|a l] using rev_ind; [discriminate|].
  rewrite pop_app. now intros [= <- <-].
Qed.

Lemma pop_firstn {A : Type} (l l' : list A) (x : A) :
  pop l = Some (l', x) -> l' = firstn (length l - 1) l /\ length l = S (length l').
Proof.
  intros H. apply pop_Some in H. subst l. rewrite length_app. simpl.
  replace (length l' + 1 - 1)%nat with (length l' + 0)%nat by lia.
  rewrite firstn_app_2. simpl. rewrite app_nil_r. split; [reflexivity | lia].
Qed.

Lemma pop_None {A : Type} (l : list A) : pop l = None -> l = [].
Proof.
  destruct l as [|a l] using rev_ind; [reflexivity|].
  rewrite pop_app. discriminate.
Qed.

(** X11: with at least as many weights as models the hook returns, every
    model has been written to the output directory in order, and the
    caller's list of weights has lost its last [len(models)] elements. *)
Theorem save_model_hook_pops_one_weight_per_model
        {Model Weight : Type} (models : list Model) (weights : list Weight)
        (output_dir : string) (saved : list (Model * string)) :
  (length models <= length weights)%nat ->
  save_model_hook models weights output_dir saved
  = (Ok tt,
     (firstn (length weights - length models) weights,
      saved ++ map (fun m => (m, output_dir)) models)).
Proof.
  revert weights saved. induction models as [|m models IH];
    intros weights saved Hlen; simpl.
  - now rewrite Nat.sub_0_r, firstn_all, app_nil_r.
  - simpl in Hlen. destruct (pop weights) as [[w' x]|] eqn:Ep.
    + destruct (pop_firstn _ _ _ Ep) as [-> Hl].
      rewrite IH by (rewrite length_firstn; lia).
      rewrite length_firstn, firstn_firstn, <- app_assoc. simpl.
      replace (Nat.min (Nat.min (length weights - 1) (length weights)
                        - length models) (length weights - 1))
        with (length weights - S (length models))%nat by lia.
      reflexivity.
    + apply pop_None in Ep. subst. simpl in Hlen. lia.
Qed.

Lemma save_model_hook_pops_one_weight_per_model_witness :
  save_model_hook [1; 2]%nat ["w1"; "w2"; "w3"]%string "out" []
  = (Ok tt,
     (firstn (3 - 2) ["w1"; "w2"; "w3"]%string,
      [] ++ map (fun m => (m, "out"%string)) [1; 2]%nat)).
Proof.
  apply (save_model_hook_pops_one_weight_per_model
           [1; 2]%nat ["w1"; "w2"; "w3"]%string "out" []).
  simpl. lia.
Defined.

(** X12: with fewer weights than models the hook raises the IndexError of
    [pop] on an empty list: by then the list of weights is empty and one
    model more than there were weights has been written. *)
Theorem save_model_hook_runs_out_of_weights
        {Model Weight : Type} (models : list Model) (weights : list Weight)
        (output_dir : string) (saved : list (Model * string)) :
  (length weights < length models)%nat ->
  save_model_hook models weights output_dir saved
  = (Raise PopFromEmptyList,
     ([],
      saved ++ map (fun m => (m, output_dir))
                   (firstn (S (length weights)) models))).
Proof.
  revert weights saved. induction models as [|m models IH];
    intros weights saved Hlen; simpl in *; [lia|].
  destruct (pop weights) as [[w' x]|] eqn:Ep.
  - destruct (pop_firstn _ _ _ Ep) as [E Hl].
    rewrite IH by lia. rewrite <- app_assoc. simpl.
    rewrite Hl. reflexivity.
  - apply pop_None in Ep. subst. simpl. reflexivity.
Qed.

Lemma save_model_hook_runs_out_of_weights_witness :
  save_model_hook [1; 2; 3]%nat ["w1"]%string "out" []
  = (Raise PopFromEmptyList,
     ([], [] ++ map (fun m => (m, "out"%string)) (firstn 2 [1; 2; 3]%nat))).
Proof.
  apply (save_model_hook_runs_out_of_weights
           [1; 2; 3]%nat ["w1"]%string "out" []).
  simpl. lia.
Defined.

Section LoadHookFacts.

Context {Cfg SD : Type}.
Variable from_pretrained : string -> result (ModelObject Cfg SD).
Variable register_to_config : Cfg -> Cfg -> Cfg.
Variable load_state_dict : SD -> SD -> result SD.

Lemma store_update_same {A : Type} (store : nat -> A) r a :
  store_update store r a r = a.
Proof. unfold store_update. now rewrite Nat.eqb_refl. Qed.

Lemma store_update_other {A : Type} (store : nat -> A) r r' a :
  r' <> r -> store_update store r a r' = store r'.
Proof.
  intros H. unfold store_update.
  destruct (Nat.eqb_spec r' r); [contradiction | reflexivity].
Qed.

(** X13: the [while] of the load hook ends: more turns than there are
    models are never needed.  Whatever the loading does, the list of models
    is left as a prefix of what it was, empty when the hook returns, and
    no model outside of the list is written to. *)
Theorem load_model_hook_terminates
        (models : list nat) (fuel : nat) (input_dir : string)
        (store : nat -> ModelObject Cfg SD) :
  (length models < fuel)%nat ->
  exists out models' store',
    load_model_hook from_pretrained register_to_config load_state_dict
                    fuel models input_dir store
    = Some (out, (models', store')) /\
    (out = Ok tt -> models' = []) /\
    (exists k, (k <= length models)%nat /\ models' = firstn k models) /\
    forall r, ~ In r models -> store' r = store r.
Proof.
  revert fuel input_dir store.
  induction models as [|x l IH] using rev_ind; intros fuel dir store Hf.
  - destruct fuel as [|fuel]; [simpl in Hf; lia|]. simpl.
    exists (Ok tt), [], store. repeat split; auto.
    exists 0%nat. auto.
  - rewrite length_app in Hf. simpl in Hf.
    destruct fuel as [|fuel]; [lia|]. cbn [load_model_hook].
    assert (Hpos : Nat.ltb 0 (length (l ++ [x])) = true)
      by (apply Nat.ltb_lt; rewrite length_app; simpl; lia).
    rewrite Hpos, pop_app.
    assert (Hpre : exists k, (k <= length (l ++ [x]))%nat /\
                             l = firstn k (l ++ [x])).
    { exists (length l). rewrite length_app. split; [lia|].
      rewrite firstn_app, Nat.sub_diag, firstn_all. simpl.
      now rewrite app_nil_r. }
    destruct (from_pretrained dir) as [lm|e].
    + destruct (load_state_dict _ _) as [st|e].
      * destruct (IH fuel dir
                    (store_update
                       (store_update store x
                          {| object_config :=
                               register_to_config (object_config (store x))
                                                  (object_config lm);
                             object_state := object_state (store x) |})
                       x
                       {| object_config :=
                            object_config
                              (store_update store x
                                 {| object_config :=
                                      register_to_config
                                        (object_config (store x))
                                        (object_config lm);
                                    object_state := object_state (store x) |}
                                 x);
                          object_state := st |}))
          as (out & models' & store' & E & Hout & (k & Hk & Hm) & Hfr); [lia|].
        exists out, models', store'. split; [exact E|]. split; [exact Hout|].
        split.
        -- exists k. rewrite length_app. split; [lia|].
           rewrite firstn_app. replace (k - length l)%nat with 0%nat by lia.
           simpl. now rewrite app_nil_r.
        -- intros r Hr. rewrite Hfr.
           ++ rewrite !store_update_other; auto;
                intros ->; apply Hr, in_or_app; right; now left.
           ++ intros Hin. apply Hr, in_or_app. now left.
      * eexists _, _, _. split; [reflexivity|]. split; [discriminate|].
        split; [exact Hpre|].
        intros r Hr. apply store_update_other.
        intros ->. apply Hr, in_or_app. right. now left.
    + eexists _, _, _. split; [reflexivity|]. split; [discriminate|].
      split; [exact Hpre|]. reflexivity.
Qed.

(** X14: when the checkpoint loads and its parameters fit, the hook
    returns with the list emptied and every model of the list (each listed
    once) updated once: its configuration is its old one with the
    checkpoint's registered on top, its parameters are what
    [load_state_dict] makes of its old ones and the checkpoint's; the other
    models are left as they were. *)
Theorem load_model_hook_loads_every_model
        (models : list nat) (fuel : nat) (input_dir : string)
        (store : nat -> ModelObject Cfg SD) (load_model : ModelObject Cfg SD) :
  NoDup models ->
  (length models < fuel)%nat ->
  from_pretrained input_dir = Ok load_model ->
  (forall own, is_ok (load_state_dict own (object_state load_model)) = true) ->
  exists store',
    load_model_hook from_pretrained register_to_config load_state_dict
                    fuel models input_dir store
    = Some (Ok tt, ([], store')) /\
    (forall r, In r models ->
       object_config (store' r)
       = register_to_config (object_config (store r))
                            (object_config load_model) /\
       load_state_dict (object_state (store r)) (object_state load_model)
       = Ok (object_state (store' r))) /\
    (forall r, ~ In r models -> store' r = store r).
Proof.
  intros Hnd Hf Hfp Hsd. revert fuel store Hnd Hf.
  induction models as [|x l IH] using rev_ind; intros fuel store Hnd Hf.
  - destruct fuel as [|fuel]; [simpl in Hf; lia|]. simpl.
    exists store. split; [reflexivity|]. split; [intros r []|reflexivity].
  - rewrite length_app in Hf. simpl in Hf.
    destruct fuel as [|fuel]; [lia|]. cbn [load_model_hook].
    assert (Hpos : Nat.ltb 0 (length (l ++ [x])) = true)
      by (apply Nat.ltb_lt; rewrite length_app; simpl; lia).
    rewrite Hpos, pop_app, Hfp.
    rewrite store_update_same. cbn [object_state object_config].
    specialize (Hsd (object_state (store x))).
    destruct (load_state_dict (object_state (store x))
                              (object_state load_model)) as [st|e] eqn:Est;
      [|discriminate].
    apply NoDup_remove in Hnd. rewrite app_nil_r in Hnd.
    destruct Hnd as [Hl Hx].
    match goal with
    | |- context [load_model_hook _ _ _ fuel l input_dir ?s] =>
        destruct (IH fuel s Hl ltac:(lia)) as (store' & E & Hs & Hfr)
    end.
    exists store'. split; [exact E|]. split.
    + intros r Hr. apply in_app_or in Hr. destruct Hr as [Hr|[<-|[]]].
      * destruct (Hs r Hr) as [H1 H2].
        assert (r <> x) by (intros ->; contradiction).
        rewrite !store_update_other in H1, H2 by assumption. auto.
      * rewrite (Hfr x Hx), store_update_same. simpl. auto.
    + intros r Hr. rewrite Hfr.
      * rewrite !store_update_other; auto;
          intros ->; apply Hr, in_or_app; right; now left.
      * intros Hin. apply Hr, in_or_app. now left.
Qed.

End LoadHookFacts.

Lemma load_model_hook_terminates_witness :
  exists out models' store',
    load_model_hook
      (fun _ => Ok {| object_config := 5%nat; object_state := 6%nat |})
      Nat.add (fun _ loaded => Ok loaded)
      3 [0; 1]%nat "in"
      (fun _ => {| object_config := 1%nat; object_state := 0%nat |})
    = Some (out, (models', store')) /\
    (out = Ok tt -> models' = []) /\
    (exists k, (k <= 2)%nat /\ models' = firstn k [0; 1]%nat) /\
    forall r, ~ In r [0; 1]%nat ->
              store' r = {| object_config := 1%nat; object_state := 0%nat |}.
Proof.
  apply (load_model_hook_terminates
           (fun _ => Ok {| object_config := 5%nat; object_state := 6%nat |})
           Nat.add (fun _ loaded => Ok loaded)
           [0; 1]%nat 3 "in"
           (fun _ => {| object_config := 1%nat; object_state := 0%nat |})).
  simpl. lia.
Defined.

Lemma load_model_hook_loads_every_model_witness :
  exists store',
    load_model_hook
      (fun _ => Ok {| object_config := 5%nat; object_state := 6%nat |})
      Nat.add (fun _ loaded => Ok loaded)
      3 [0; 1]%nat "in"
      (fun _ => {| object_config := 1%nat; object_state := 0%nat |})
    = Some (Ok tt, ([], store')) /\
    (forall r, In r [0; 1]%nat ->
       object_config (store' r) = (1 + 5)%nat /\
       Ok 6%nat = Ok (object_state (store' r))) /\
    (forall r, ~ In r [0; 1]%nat ->
       store' r = {| object_config := 1%nat; object_state := 0%nat |}).
Proof.
  apply (load_model_hook_loads_every_model
           (fun _ => Ok {| object_config := 5%nat; object_state := 6%nat |})
           Nat.add (fun _ loaded => Ok loaded)
           [0; 1]%nat 3 "in"
           (fun _ => {| object_config := 1%nat; object_state := 0%nat |})
           {| object_config := 5%nat; object_state := 6%nat |}).
  - repeat constructor; simpl; intuition discriminate.
  - simpl. lia.
  - reflexivity.
  - reflexivity.
Defined.


(** ** The evaluation loop *)

Section EvaluationFacts.

Context {Gen Pixels TA : Type}.
Variable ext : Externals Gen Pixels TA.
Variable config : Config TA.
Variable locals : MainLocals Pixels.
Variable num_images : Pixels -> nat.
Variable max_eval_examples : Z.

Lemma examples_in_nonneg (batches : list (Batch Pixels)) :
  (0 <= examples_in num_images batches)%Z.
Proof. induction batches; simpl; lia. Qed.

Lemma examples_in_cons (batch : Batch Pixels) (rest : list (Batch Pixels)) :
  examples_in num_images (batch :: rest)
  = (Z.of_nat (num_images (pixel_values batch))
     + examples_in num_images rest)%Z.
Proof. reflexivity. Qed.

Lemma fetched_length {B : Type} (fetches : list (result B)) :
  (length (fetched fetches) <= length fetches)%nat.
Proof.
  induction fetches as [|[b|e] rest IH]; simpl; lia.
Qed.

Lemma fetched_all {B : Type} (fetches : list (result B)) :
  length (fetched fetches) = length fetches ->
  fetches = map Ok (fetched fetches).
Proof.
  induction fetches as [|[b|e] rest IH]; simpl; intros H.
  - reflexivity.
  - f_equal. apply IH. lia.
  - discriminate.
Qed.


Lemma evaluation_for_returns (fetches : list (result (Batch Pixels))) :
  forall idx i acc num st i' acc' st',
    evaluation_for ext config locals num_images max_eval_examples
                   fetches idx i acc num st = (Ok (i', acc'), st') ->
    fetches <> [] ->
    exists k losses,
      (1 <= k <= length (fetched fetches))%nat /\
      i' = Some (idx + k - 1)%nat /\
      eval_steps ext config locals (firstn k (fetched fetches)) st
      = (Ok losses, st') /\
      length losses = k /\
      acc' = fold_left add_loss losses acc /\
      (k = 1%nat \/
       (num + examples_in num_images (firstn (k - 1) (fetched fetches))
        < max_eval_examples)%Z) /\
      (k = length fetches \/
       (max_eval_examples
        <= num + examples_in num_images (firstn k (fetched fetches)))%Z).
Proof.
  induction fetches as [|[batch|e] rest IH];
    intros idx i acc num st i' acc' st' H Hne; [congruence| |discriminate].
  cbn [evaluation_for] in H.
  destruct (eval_step ext config locals batch st) as [[l|e] st1] eqn:Es;
    [|discriminate].
  destruct (max_eval_examples
            <=? num + Z.of_nat (num_images (pixel_values batch)))%Z eqn:Eb.
  - injection H as <- <- <-. exists 1%nat, [l].
    apply Z.leb_le in Eb. cbn [fetched firstn eval_steps]. rewrite Es. simpl.
    repeat split; auto; try lia. f_equal; lia.
  - apply Z.leb_gt in Eb. destruct rest as [|fetch2 rest].
    + simpl in H. injection H as <- <- <-. exists 1%nat, [l].
      cbn [fetched firstn eval_steps]. rewrite Es. simpl.
      repeat split; auto; try lia. f_equal; lia.
    + destruct (IH _ _ _ _ _ _ _ _ H ltac:(discriminate))
        as (k & losses & Hk & Hi & Hsteps & Hlen & Hacc & Hmin & Hstop).
      exists (S k), (l :: losses).
      change (fetched (Ok batch :: fetch2 :: rest))
        with (batch :: fetched (fetch2 :: rest)).
      change (firstn (S k) (batch :: fetched (fetch2 :: rest)))
        with (batch :: firstn k (fetched (fetch2 :: rest))).
      cbn [eval_steps]. rewrite Es, Hsteps. simpl bind.
      split; [simpl in *; lia|]. split; [rewrite Hi; f_equal; lia|].
      split; [reflexivity|]. split; [simpl; lia|]. split; [exact Hacc|].
      split.
      * right. replace (S k - 1)%nat with (S (k - 1)) by lia.
        change (firstn (S (k - 1)) (batch :: fetched (fetch2 :: rest)))
          with (batch :: firstn (k - 1) (fetched (fetch2 :: rest))).
        rewrite examples_in_cons.
        destruct Hmin as [->|Hmin]; [simpl; lia|lia].
      * destruct Hstop as [->|Hstop]; [left; reflexivity|right].
        rewrite examples_in_cons. lia.
Qed.

Lemma fold_add_loss_tensor (losses : list Q) (q : Q) :
  fold_left add_loss losses (TensorLoss q)
  = TensorLoss (fold_left Qplus losses q).
Proof.
  revert q. induction losses as [|l losses IH]; intros q; simpl; auto.
Qed.

Lemma fold_add_loss_zero (losses : list Q) :
  losses <> [] ->
  fold_left add_loss losses IntZero
  = TensorLoss (fold_left Qplus losses 0%Q).
Proof.
  destruct losses as [|l losses]; [congruence|]. intros _. simpl.
  apply fold_add_loss_tensor.
Qed.

(** An exception of the loop is that of a fetch, or that of [eval_step]
    on a fetched batch. *)
Lemma evaluation_for_raises (fetches : list (result (Batch Pixels))) :
  forall idx i acc num st e st',
    evaluation_for ext config locals num_images max_eval_examples
                   fetches idx i acc num st = (Raise e, st') ->
    exists k,
      nth_error fetches k = Some (Raise e) \/
      exists batch st0,
        nth_error fetches k = Some (Ok batch) /\
        eval_step ext config locals batch st0 = (Raise e, st').
Proof.
  induction fetches as [|[batch|e0] rest IH]; intros idx i acc num st e st' H;
    [discriminate| |].
  - cbn [evaluation_for] in H.
    destruct (eval_step ext config locals batch st) as [[l|ex] st1] eqn:Es.
    + destruct (max_eval_examples
                <=? num + Z.of_nat (num_images (pixel_values batch)))%Z;
        [discriminate|].
      destruct (IH _ _ _ _ _ _ _ H) as [k Hk]. exists (S k). exact Hk.
    + injection H as <- <-. exists 0%nat. right. exists batch, st. auto.
  - simpl in H. injection H as <- _. exists 0%nat. left. reflexivity.
Qed.

(** X15: the exceptions of the evaluation.  Over an empty dataloader it
    runs no step and raises, an UnboundLocalError for [i] when no earlier
    loop has bound it and an AttributeError on the plain number otherwise,
    leaving the generator and the log as they were.  When the fetch of the
    first batch raises, that exception ends the evaluation before any step.
    Over a dataloader that is not empty every exception is that of a fetch
    or that of [eval_step] on a fetched batch. *)
Theorem evaluation_exceptions (i : option nat) (st : State Gen) :
  evaluation ext config locals num_images max_eval_examples [] i st
  = (Raise (match i with
            | None => UnboundLocalError "i"
            | Some _ => AttributeError "item"
            end), st) /\
  (forall e rest,
      evaluation ext config locals num_images max_eval_examples
                 (Raise e :: rest) i st
      = (Raise e, st)) /\
  forall fetches e st',
    fetches <> [] ->
    evaluation ext config locals num_images max_eval_examples fetches i st
    = (Raise e, st') ->
    exists k,
      nth_error fetches k = Some (Raise e) \/
      exists batch st0,
        nth_error fetches k = Some (Ok batch) /\
        eval_step ext config locals batch st0 = (Raise e, st').
Proof.
  split; [destruct i; reflexivity|]. split; [reflexivity|].
  intros fetches e st' Hne. unfold evaluation.
  destruct (evaluation_for _ _ _ _ _ fetches 0 i IntZero 0 st)
    as [[[j acc]|e0] st1] eqn:E.
  - destruct (evaluation_for_returns _ _ _ _ _ _ _ _ _ E Hne)
      as (k & losses & Hk & -> & _ & Hlen & -> & _).
    rewrite fold_add_loss_zero by (intros ->; simpl in Hlen; lia).
    discriminate.
  - intros [= <- <-]. eapply evaluation_for_raises. exact E.
Qed.


Lemma examples_in_constant (b : nat) (batches : list (Batch Pixels)) (k : nat) :
  Forall (fun batch => num_images (pixel_values batch) = b) batches ->
  (k <= length batches)%nat ->
  examples_in num_images (firstn k batches) = (Z.of_nat k * Z.of_nat b)%Z.
Proof.
  intros H. revert k. induction H as [|batch rest Hb _ IH]; intros [|k] Hk;
    simpl in Hk; try reflexivity; try lia.
  change (firstn (S k) (batch :: rest)) with (batch :: firstn k rest).
  rewrite examples_in_cons, Hb, IH by lia. lia.
Qed.

(** X17: with batches of b >= 1 examples each, the evaluation that returns
    has used min(len(dataloader), max(1, ceil(max_eval_examples / b)))
    batches. *)
Theorem evaluation_batches_used
        (fetches : list (result (Batch Pixels))) (b : nat) (i : option nat)
        (st : State Gen) (loss : Q) (n : nat) (st' : State Gen) :
  Forall (fun batch => num_images (pixel_values batch) = b)
         (fetched fetches) ->
  (1 <= b)%nat ->
  evaluation ext config locals num_images max_eval_examples fetches i st
  = (Ok (loss, Some n), st') ->
  S n = Nat.min (length fetches)
                (Z.to_nat (Z.max 1 ((max_eval_examples + Z.of_nat b - 1)
                                    / Z.of_nat b))).
Proof.
  intros Hb Hpos H.
  pose proof (fetched_length fetches) as Hfl.
  assert (Hchar : exists k,
             (1 <= k <= length (fetched fetches))%nat /\ n = (k - 1)%nat /\
             (k = 1%nat \/
              (examples_in num_images (firstn (k - 1) (fetched fetches))
               < max_eval_examples)%Z) /\
             (k = length fetches \/
              (max_eval_examples
               <= examples_in num_images (firstn k (fetched fetches)))%Z)).
  { unfold evaluation in H.
    destruct (evaluation_for _ _ _ _ _ fetches 0 i IntZero 0 st)
      as [[[j acc]|e] st1] eqn:E; [|discriminate].
    destruct fetches as [|fetch rest].
    - simpl in E. injection E as <- <- <-. destruct i; discriminate.
    - destruct (evaluation_for_returns _ _ _ _ _ _ _ _ _ E
                  ltac:(discriminate))
        as (k & losses & Hk & -> & _ & Hlen & -> & Hmin & Hstop).
      rewrite fold_add_loss_zero in H by (intros ->; simpl in Hlen; lia).
      injection H as _ Hn _. exists k. repeat split; auto; lia. }
  destruct Hchar as (k & Hk & -> & Hmin & Hstop).
  rewrite (examples_in_constant b) in Hmin by (auto; lia).
  rewrite (examples_in_constant b) in Hstop by (auto; lia).
  set (B := Z.of_nat b) in *. assert (HB : (1 <= B)%Z) by (unfold B; lia).
  set (q := ((max_eval_examples + B - 1) / B)%Z).
  pose proof (Z.div_mod (max_eval_examples + B - 1) B ltac:(lia)) as Hdm.
  pose proof (Z.mod_pos_bound (max_eval_examples + B - 1) B ltac:(lia)) as Hmb.
  fold q in Hdm.
  assert (Hlo : ((q - 1) * B < max_eval_examples)%Z) by nia.
  assert (Hhi : (max_eval_examples <= q * B)%Z) by nia.
  replace (S (k - 1)) with k by lia.
  destruct Hstop as [Hlast|Hreach].
  - destruct Hmin as [->|Hmin].
    + rewrite <- Hlast. destruct (Z.max_spec 1 q) as [[? ->]|[? ->]]; lia.
    + assert (Z.of_nat k - 1 < q)%Z by nia.
      rewrite Z.max_r by lia. lia.
  - assert (q - 1 < Z.of_nat k)%Z by nia.
    destruct Hmin as [->|Hmin].
    + rewrite Z.max_l by lia. simpl. lia.
    + assert (Z.of_nat k - 1 < q)%Z by nia.
      rewrite Z.max_r by lia. lia.
Qed.

End EvaluationFacts.

Lemma evaluation_exceptions_witness :
  exists k,
    nth_error [Ok {| pixel_values := [[5; 6]%Z]; class_id := [2; 3]%Z |}] k
    = Some (Raise RuntimeError) \/
    exists batch st0,
      nth_error [Ok {| pixel_values := [[5; 6]%Z]; class_id := [2; 3]%Z |}] k
      = Some (Ok batch) /\
      eval_step (Demo.ext 100 200) (Demo.config 0) (Demo.locals 100 200)
                batch st0
      = (Raise RuntimeError, {| gen := [1 # 10; 6 # 10]%Q; log := [] |}).
Proof.
  apply (proj2 (proj2 (evaluation_exceptions
                  (Demo.ext 100 200) (Demo.config 0) (Demo.locals 100 200)
                  (@length (list Z)) 2 None
                  {| gen := Demo.tape; log := [] |}))
               [Ok {| pixel_values := [[5; 6]%Z]; class_id := [2; 3]%Z |}]
               RuntimeError
               {| gen := [1 # 10; 6 # 10]%Q; log := [] |}).
  - discriminate.
  - reflexivity.
Defined.

(** A batch that [collate_fn] cannot build ends the evaluation with the
    exception of [collate_fn]. *)
Example evaluation_fetch_raises :
  evaluation (Demo.ext 100 200) (Demo.config 0) (Demo.locals 100 200)
             (@length (list Z)) 2
             [Ok Demo.batch; Raise (KeyError "image"); Ok Demo.batch] None
             {| gen := Demo.tape; log := [] |}
  = (Raise (KeyError "image"), {| gen := []; log := [] |}).
Proof. reflexivity. Qed.


Lemma evaluation_batches_used_witness :
  2%nat = Nat.min 3 (Z.to_nat (Z.max 1 ((2 + Z.of_nat 1 - 1) / Z.of_nat 1))).
Proof.
  apply (evaluation_batches_used
           (Demo.ext 100 200) (Demo.config 0) (Demo.locals 100 200)
           (@length (list Z)) 2
           [Ok Demo.batch; Ok Demo.batch; Ok Demo.batch] 1 None
           {| gen := Demo.tape; log := [] |}
           ((0 + (1 # 4) + (1 # 4)) / inject_Z (Z.of_nat 1 + 1))%Q 1
           {| gen := []; log := [] |}).
  - repeat constructor.
  - lia.
  - reflexivity.
Defined.


(** ** More on [train_step] *)

(** X18: logging the first batch is transparent: with or without
    [log_first_batch] the step returns the same values (or raises the same
    exception) and advances the generator in the same way; without the flag
    nothing is logged, with it exactly the input ids and the labels are,
    and only once they have been built. *)
Theorem train_step_logging_is_transparent
        {Gen Pixels TA : Type} (ext : Externals Gen Pixels TA)
        (config : Config TA) (locals : MainLocals Pixels)
        (batch : Batch Pixels) (st : State Gen) :
  fst (train_step ext config locals batch true st)
  = fst (train_step ext config locals batch false st) /\
  gen (snd (train_step ext config locals batch true st))
  = gen (snd (train_step ext config locals batch false st)) /\
  log (snd (train_step ext config locals batch false st)) = log st /\
  log (snd (train_step ext config locals batch true st))
  = match fst (masked_inputs ext config locals batch (gen st)) with
    | Ok mi => log st ++ [LogInputIds (input_ids mi); LogLabels (labels mi)]
    | Raise _ => log st
    end.
Proof.
  unfold train_step.
  destruct (masked_inputs ext config locals batch (gen st)) as [[mi|e] g].
  - destruct (forward (model locals) (input_ids mi) (labels mi));
      simpl; auto.
  - simpl. auto.
Qed.

Lemma rand_advances {Gen : Type} (u : Gen -> Q * Gen) (n : nat) (g : Gen) :
  snd (Torch.rand u n g) = Nat.iter n (fun g => snd (u g)) g.
Proof.
  revert g. induction n as [|n IH]; intros g; [reflexivity|].
  rewrite Nat.iter_succ_r. simpl. specialize (IH (snd (u g))).
  destruct (u g) as [x g1]. simpl in *.
  destruct (Torch.rand u n g1) as [xs g2]. exact IH.
Qed.

Lemma rand2_advances {Gen : Type} (u : Gen -> Q * Gen) (n m : nat) (g : Gen) :
  snd (Torch.rand2 u n m g) = Nat.iter (n * m) (fun g => snd (u g)) g.
Proof.
  revert g. induction n as [|n IH]; intros g; [reflexivity|].
  simpl. pose proof (rand_advances u m g) as Hr.
  destruct (Torch.rand u m g) as [r g1]. simpl in Hr.
  specialize (IH g1). destruct (Torch.rand2 u n m g1) as [rs g2].
  simpl in *. rewrite IH, Hr, Nat.add_comm. apply eq_sym, Nat.iter_add.
Qed.

(** X19: one call of [train_step] on tokens of shape (N, L) takes exactly
    N + N * L values from the generator, also when it raises: the state of
    the generator afterwards is the state N + N * L draws later. *)
Theorem train_step_draws
        {Gen Pixels TA : Type} (ext : Externals Gen Pixels TA)
        (config : Config TA) (locals : MainLocals Pixels)
        (batch : Batch Pixels) (log_first_batch : bool) (st : State Gen)
        (N L : nat) :
  Torch.shape (encode (vq_model locals) (pixel_values batch)) = (N, L) ->
  gen (snd (train_step ext config locals batch log_first_batch st))
  = Nat.iter (N + N * L) (fun g => snd (uniform ext g)) (gen st).
Proof.
  intros Hs.
  assert (E : snd (masked_inputs ext config locals batch (gen st))
              = Nat.iter (N + N * L) (fun g => snd (uniform ext g)) (gen st)).
  { unfold masked_inputs. rewrite Hs.
    pose proof (rand_advances (uniform ext) N (gen st)) as H1.
    destruct (Torch.rand (uniform ext) N (gen st)) as [ts g1]. simpl in H1.
    pose proof (rand2_advances (uniform ext) N L g1) as H2.
    destruct (Torch.rand2 (uniform ext) N L g1) as [noise g2]. simpl in *.
    rewrite H2, H1, Nat.add_comm. apply eq_sym, Nat.iter_add. }
  unfold train_step.
  destruct (masked_inputs ext config locals batch (gen st)) as [[mi|e] g];
    simpl in *; [|exact E].
  destruct (forward (model locals) (input_ids mi) (labels mi)); exact E.
Qed.

Lemma train_step_draws_witness :
  gen (snd (train_step (Demo.ext 100 200) (Demo.config 0)
                       (Demo.locals 100 200) Demo.batch true
                       {| gen := Demo.tape ++ [7 # 9]%Q; log := [] |}))
  = Nat.iter (1 + 1 * 4) (fun g => snd (Demo.tape_uniform g))
             (Demo.tape ++ [7 # 9]%Q).
Proof.
  apply (train_step_draws (Demo.ext 100 200) (Demo.config 0)
                          (Demo.locals 100 200) Demo.batch true
                          {| gen := Demo.tape ++ [7 # 9]%Q; log := [] |} 1 4).
  reflexivity.
Defined.

Lemma labels_row_count (m : list bool) (row : list Z) :
  length m = length row ->
  Forall (fun x => x <> IGNORE_LABEL) row ->
  length (filter (fun x => negb (Z.eqb x IGNORE_LABEL))
                 (Torch.zip_with (fun (b : bool) x => if b then x else (-100)%Z)
                                 m row))
  = count_occ bool_dec m true.
Proof.
  revert row; induction m as [|b m IH]; intros [|x row] Hl Hf;
    simpl in *; try discriminate; auto.
  inversion Hf as [|? ? Hx Hrow]; subst.
  specialize (IH row ltac:(lia) Hrow).
  destruct b; simpl.
  - destruct (Z.eqb_spec x IGNORE_LABEL) as [E|_]; [contradiction|].
    destruct (bool_dec true true); [|congruence]. simpl. now rewrite IH.
  - destruct (bool_dec false true); [discriminate|]. exact IH.
Qed.

(** X20: with tokens that are valid codes (so never -100) and a sequence
    of at most 2^24 tokens, every label row supervises exactly
    clamp(k, 1, L) token positions, k being the integer nearest to the
    binary32 product float32(L * mask_prob), a tie going to the even one:
    at least one and at most L whenever L >= 1. *)
Theorem supervised_positions_per_image
        {Gen Pixels TA : Type} (ext : Externals Gen Pixels TA)
        (config : Config TA) (locals : MainLocals Pixels)
        (batch : Batch Pixels) (g : Gen) (N L : nat) :
  Torch.is_tensor N L (encode (vq_model locals) (pixel_values batch)) ->
  length (class_id batch) = N ->
  (1 <= L)%nat ->
  (Z.of_nat L <= 2 ^ 24)%Z ->
  tokens_in_vocab (num_embeddings (vq_model locals))
                  (encode (vq_model locals) (pixel_values batch)) ->
  exists mi,
    fst (masked_inputs ext config locals batch g) = Ok mi /\
    forall i, (i < N)%nat ->
      exists row p k,
        nth_error (labels mi) i = Some row /\
        nth_error (mask_prob mi) i = Some p /\
        nearest_even (Torch.float32 (inject_Z (Z.of_nat L) * p)) k /\
        Z.of_nat (count_supervised row) = spec_clamp k 1 (Z.of_nat L) /\
        (1 <= count_supervised row <= L)%nat.
Proof.
  intros Htok Hcls HL HL24 Hvoc.
  destruct (masked_inputs_image ext config locals batch g N L Htok Hcls)
    as (mi & Hrun & _ & _ & _ & Himg).
  exists mi. split; [now rewrite Hrun|].
  intros i Hi.
  destruct (Himg i Hi)
    as (trow & c & t & nrow & Htrow & _ & _ & _ & Hlt & Hln & Hp & _ & _ & Hlab).
  eexists _, _, _. split; [exact Hlab|]. split; [exact Hp|].
  split; [apply round_half_even_nearest_even|].
  assert (E : count_supervised
                ((-100)%Z
                 :: Torch.zip_with
                      (fun (b : bool) x => if b then x else (-100)%Z)
                      (image_mask L (image_mask_prob ext config t) nrow) trow)
              = Z.to_nat
                  (spec_clamp
                     (Torch.round_half_even
                        (Torch.float32 (inject_Z (Z.of_nat L)
                                        * image_mask_prob ext config t)))
                     1 (Z.of_nat L))).
  { unfold count_supervised. simpl tl. rewrite labels_row_count.
    - now apply image_mask_count.
    - rewrite image_mask_length; congruence.
    - unfold tokens_in_vocab in Hvoc. rewrite Forall_forall in Hvoc.
      specialize (Hvoc trow (nth_error_In _ _ Htrow)).
      eapply Forall_impl; [|exact Hvoc]. unfold IGNORE_LABEL. simpl.
      intros x Hx. lia. }
  rewrite E. unfold spec_clamp. split; lia.
Qed.

Lemma supervised_positions_per_image_witness :
  exists row p k,
    nth_error [[-100; 5; 6; 7; -100; 9]%Z] 0 = Some row /\
    nth_error [Demo.float32_0_7] 0 = Some p /\
    nearest_even (Torch.float32 (inject_Z (Z.of_nat 5) * p)) k /\
    Z.of_nat (count_supervised row) = spec_clamp k 1 (Z.of_nat 5) /\
    (1 <= count_supervised row <= 5)%nat.
Proof.
  destruct (supervised_positions_per_image
              (Demo.ext 100 200) (Demo.config Demo.python_float_0_7)
              (Demo.locals 100 200) Demo.batch5 Demo.tape5 1 5)
    as (mi & Hrun & Himg).
  - split; [reflexivity | repeat constructor].
  - reflexivity.
  - lia.
  - simpl. lia.
  - repeat constructor; simpl; lia.
  - rewrite binary32_run in Hrun. injection Hrun as <-.
    apply (Himg 0%nat). lia.
Defined.

Lemma mask_rows_length {Gen : Type} (u : Gen -> Q * Gen) (N L : nat)
      (g1 : Gen) (ks : list Q) :
  length ks = N ->
  length (Torch.lt_rows (map Torch.argsort (fst (Torch.rand2 u N L g1))) ks)
  = N.
Proof.
  intros Hk. unfold Torch.lt_rows. rewrite zip_with_length, length_map, Hk.
  destruct (rand2_is_tensor u N L g1) as [-> _]. apply Nat.min_id.
Qed.

(** X21: a batch whose number of class ids differs from the number of
    token rows makes [train_step] raise the RuntimeError of [torch.cat]:
    nothing is logged and the model is not called. *)
Theorem class_id_count_mismatch_raises
        {Gen Pixels TA : Type} (ext : Externals Gen Pixels TA)
        (config : Config TA) (locals : MainLocals Pixels)
        (batch : Batch Pixels) (log_first_batch : bool) (st : State Gen) :
  length (class_id batch)
  <> length (encode (vq_model locals) (pixel_values batch)) ->
  fst (masked_inputs ext config locals batch (gen st)) = Raise RuntimeError /\
  fst (train_step ext config locals batch log_first_batch st)
  = Raise RuntimeError /\
  log (snd (train_step ext config locals batch log_first_batch st)) = log st.
Proof.
  intros Hne.
  assert (E : fst (masked_inputs ext config locals batch (gen st))
              = Raise RuntimeError).
  { unfold masked_inputs, Torch.shape.
    set (tokens := encode (vq_model locals) (pixel_values batch)) in *.
    set (L := match tokens with [] => 0%nat | r :: _ => length r end).
    pose proof (rand_length (uniform ext) (length tokens) (gen st)) as Hts.
    destruct (Torch.rand (uniform ext) (length tokens) (gen st)) as [ts g1].
    simpl in Hts.
    pose proof (fun ks => mask_rows_length (uniform ext) (length tokens) L
                                           g1 ks) as HM.
    destruct (Torch.rand2 (uniform ext) (length tokens) L g1) as [noise g2].
    simpl in HM. cbn [fst]. unfold Torch.cat_col at 1.
    unfold Torch.where_scalar_tensor at 1.
    rewrite zip_with_length, HM by (now rewrite !length_map).
    rewrite Nat.min_id.
    unfold Torch.add_scalar at 1. rewrite length_map.
    apply Nat.eqb_neq in Hne. now rewrite Hne. }
  split; [exact E|]. unfold train_step.
  destruct (masked_inputs ext config locals batch (gen st)) as [[mi|e] g];
    simpl in *; [discriminate|]. injection E as ->. auto.
Qed.

Lemma class_id_count_mismatch_raises_witness :
  fst (masked_inputs (Demo.ext 100 200) (Demo.config 0) (Demo.locals 100 200)
                     {| pixel_values := [[5; 6]%Z]; class_id := [2; 3]%Z |}
                     Demo.tape) = Raise RuntimeError /\
  fst (train_step (Demo.ext 100 200) (Demo.config 0) (Demo.locals 100 200)
                  {| pixel_values := [[5; 6]%Z]; class_id := [2; 3]%Z |}
                  true {| gen := Demo.tape; log := [] |})
  = Raise RuntimeError /\
  log (snd (train_step (Demo.ext 100 200) (Demo.config 0)
                       (Demo.locals 100 200)
                       {| pixel_values := [[5; 6]%Z]; class_id := [2; 3]%Z |}
                       true {| gen := Demo.tape; log := [] |})) = [].
Proof.
  apply (class_id_count_mismatch_raises
           (Demo.ext 100 200) (Demo.config 0) (Demo.locals 100 200)
           {| pixel_values := [[5; 6]%Z]; class_id := [2; 3]%Z |}
           true {| gen := Demo.tape; log := [] |}).
  simpl. lia.
Defined.

(** *** The count follows the probability *)

Lemma clamp_min_mono_l (x y m : Q) :
  (x <= y)%Q -> (Torch.clamp_min x m <= Torch.clamp_min y m)%Q.
Proof.
  intros H. apply clamp_min_least.
  - eapply Qle_trans; [exact H | apply clamp_min_upper].
  - apply clamp_min_lower.
Qed.

(** The count the ranks are compared with grows with the probability. *)
Lemma image_num_token_masked_mono (L : nat) (p q : Q) :
  (p <= q)%Q -> (image_num_token_masked L p <= image_num_token_masked L q)%Q.
Proof.
  intros H. unfold image_num_token_masked, Torch.round, Torch.mul_int.
  apply clamp_min_mono_l. rewrite <- Zle_Qle.
  apply round_half_even_mono, float32_mono.
  rewrite !(Qmult_comm (Torch.float32 (inject_Z (Z.of_nat L)))).
  apply Qmult_le_compat_r; [exact H|].
  apply float32_nonneg.
  change 0%Q with (inject_Z 0). rewrite <- Zle_Qle. lia.
Qed.

Lemma lt_entry_mono (r : nat) (k1 k2 : Q) :
  (k1 <= k2)%Q -> Torch.lt_entry r k1 = true -> Torch.lt_entry r k2 = true.
Proof.
  unfold Torch.lt_entry. intros H.
  destruct (Qcompare_spec (Torch.float32 (inject_Z (Z.of_nat r))) k1)
    as [E|E|E]; try discriminate.
  intros _.
  destruct (Qcompare_spec (Torch.float32 (inject_Z (Z.of_nat r))) k2)
    as [E2|E2|E2]; [exfalso; lra | reflexivity | exfalso; lra].
Qed.

Lemma count_true_mono (f g : nat -> bool) (l : list nat) :
  (forall r, f r = true -> g r = true) ->
  (count_occ bool_dec (map f l) true <= count_occ bool_dec (map g l) true)%nat.
Proof.
  intros H. induction l as [|r l IH]; simpl; [lia|].
  destruct (f r) eqn:Ef.
  - rewrite (H r Ef).
    destruct (bool_dec true true); [lia | congruence].
  - destruct (bool_dec false true); [discriminate|].
    destruct (bool_dec (g r) true); lia.
Qed.

Lemma image_mask_count_mono (L : nat) (p q : Q) (nrow_p nrow_q : list Q) :
  length nrow_p = L -> length nrow_q = L -> (p <= q)%Q ->
  (count_occ bool_dec (image_mask L p nrow_p) true
   <= count_occ bool_dec (image_mask L q nrow_q) true)%nat.
Proof.
  intros Hp Hq H. unfold image_mask.
  rewrite !count_true_map.
  rewrite (count_below_perm _ _ _ (argsort_perm nrow_p)), Hp.
  rewrite (count_below_perm _ _ _ (argsort_perm nrow_q)), Hq.
  rewrite <- !count_true_map. apply count_true_mono.
  intros r. apply lt_entry_mono. now apply image_num_token_masked_mono.
Qed.

(** X22: within a batch, an image with the larger masking probability never
    has fewer masked positions. *)
Theorem masked_count_follows_probability
        {Gen Pixels TA : Type} (ext : Externals Gen Pixels TA)
        (config : Config TA) (locals : MainLocals Pixels)
        (batch : Batch Pixels) (g : Gen) (N L : nat) :
  Torch.is_tensor N L (encode (vq_model locals) (pixel_values batch)) ->
  length (class_id batch) = N ->
  exists mi,
    fst (masked_inputs ext config locals batch g) = Ok mi /\
    forall i j p q row_i row_j,
      nth_error (mask_prob mi) i = Some p ->
      nth_error (mask_prob mi) j = Some q ->
      nth_error (mask mi) i = Some row_i ->
      nth_error (mask mi) j = Some row_j ->
      (p <= q)%Q ->
      (count_occ bool_dec row_i true <= count_occ bool_dec row_j true)%nat.
Proof.
  intros Htok Hcls.
  destruct (masked_inputs_image ext config locals batch g N L Htok Hcls)
    as (mi & Hrun & Hmp & _ & _ & Himg).
  exists mi. split; [now rewrite Hrun|].
  intros i j p q ri rj Hp Hq Hri Hrj Hpq.
  assert (Hlen : length (mask_prob mi) = N).
  { rewrite Hmp, length_map. apply rand_length. }
  assert (Hi : (i < N)%nat)
    by (rewrite <- Hlen; apply nth_error_Some; congruence).
  assert (Hj : (j < N)%nat)
    by (rewrite <- Hlen; apply nth_error_Some; congruence).
  destruct (Himg i Hi)
    as (_ & _ & ti & ni & _ & _ & _ & _ & _ & Hni & Hpi & Hmi & _).
  destruct (Himg j Hj)
    as (_ & _ & tj & nj & _ & _ & _ & _ & _ & Hnj & Hpj & Hmj & _).
  rewrite Hp in Hpi. injection Hpi as ->.
  rewrite Hq in Hpj. injection Hpj as ->.
  rewrite Hri in Hmi. injection Hmi as ->.
  rewrite Hrj in Hmj. injection Hmj as ->.
  now apply image_mask_count_mono.
Qed.

Lemma masked_count_follows_probability_witness :
  (count_occ bool_dec [true; false] true
   <= count_occ bool_dec [true; true] true)%nat.
Proof.
  destruct (masked_count_follows_probability
              (Sample.ext 100 200) (Demo.config 0) (Sample.locals 100 200)
              {| pixel_values := [[[1 # 2; 0]]; [[1; 1 # 4]]]%Q;
                 class_id := [3; 8]%Z |}
              Sample.tape 2 2) as (mi & Hrun & H).
  - split; [reflexivity | repeat constructor].
  - reflexivity.
  - assert (E : fst (masked_inputs (Sample.ext 100 200) (Demo.config 0)
                       (Sample.locals 100 200)
                       {| pixel_values := [[[1 # 2; 0]]; [[1; 1 # 4]]]%Q;
                          class_id := [3; 8]%Z |} Sample.tape)
                = Ok {| input_ids := [[103; 200; 9]; [108; 200; 200]]%Z;
                        labels := [[-100; 4; -100]; [-100; 4; 9]]%Z;
                        mask_prob := [(1 - (1 # 2)); (1 - (1 # 4))]%Q;
                        mask := [[true; false]; [true; true]] |})
      by (vm_compute; reflexivity).
    rewrite E in Hrun. injection Hrun as <-.
    apply (H 0%nat 1%nat (1 - (1 # 2))%Q (1 - (1 # 4))%Q);
      try reflexivity.
    unfold Qle. simpl. lia.
Defined.

Lemma map_all_true {A : Type} (f : A -> bool) (l : list A) :
  (forall x, In x l -> f x = true) -> map f l = repeat true (length l).
Proof.
  induction l as [|a l IH]; intros H; simpl; [reflexivity|].
  rewrite (H a) by now left. f_equal. apply IH. intros x Hx. apply H. now right.
Qed.

Lemma image_mask_full (L : nat) (p : Q) (nrow : list Q) :
  (Z.of_nat L <= 2 ^ 24)%Z ->
  length nrow = L -> (1 <= p)%Q -> image_mask L p nrow = repeat true L.
Proof.
  intros HL Hl Hp. unfold image_mask, image_num_token_masked.
  rewrite num_token_masked_integer.
  rewrite map_all_true; [now rewrite argsort_length, Hl|].
  intros r Hr.
  apply (Permutation_in _ (argsort_perm nrow)) in Hr.
  apply in_seq in Hr. rewrite Hl in Hr.
  rewrite lt_entry_inject_Z by lia. apply Z.ltb_lt.
  assert (Hge : (Z.of_nat L
                 <= Torch.round_half_even (Torch.mul_int (Z.of_nat L) p))%Z).
  { rewrite <- (round_half_even_Z (Z.of_nat L)) at 1.
    apply round_half_even_mono.
    rewrite (mul_int_exact_cast L p HL).
    rewrite <- (float32_inject_Z (Z.of_nat L)) at 1 by lia.
    apply float32_mono.
    rewrite <- (Qmult_1_r (inject_Z (Z.of_nat L))) at 1.
    rewrite !(Qmult_comm (inject_Z (Z.of_nat L))).
    apply Qmult_le_compat_r; [exact Hp|].
    change 0%Q with (inject_Z 0). rewrite <- Zle_Qle. lia. }
  lia.
Qed.

(** Past 2^24 tokens the cast of a rank is not exact: with 2^24 + 1 tokens
    and a probability of 1 the count is the binary32 value 2^24, and the
    position of rank 2^24 is not masked. *)
Example long_sequence_rank_not_masked :
  Torch.lt_entry (Z.to_nat (2 ^ 24))
                 (image_num_token_masked (Z.to_nat (2 ^ 24 + 1)) 1)
  = false.
Proof.
  unfold Torch.lt_entry, image_num_token_masked.
  rewrite !Z2Nat.id by lia. vm_compute. reflexivity.
Qed.

Lemma zip_with_all_true_left (mid : Z) (row : list Z) :
  Torch.zip_with (fun (b : bool) x => if b then mid else x)
                 (repeat true (length row)) row
  = repeat mid (length row).
Proof. induction row as [|x row IH]; simpl; [reflexivity | now rewrite IH]. Qed.

Lemma zip_with_all_true_right (s : Z) (row : list Z) :
  Torch.zip_with (fun (b : bool) x => if b then x else s)
                 (repeat true (length row)) row
  = row.
Proof. induction row as [|x row IH]; simpl; [reflexivity | now rewrite IH]. Qed.

(** X23: with a sequence of at most 2^24 tokens, an image whose clipped
    masking probability is 1 or more (the schedule at timestep 0, or a
    min_masking_rate of 1) is masked in full: its input row is the class
    slot followed by L mask ids and its label row is -100 followed by all
    of its tokens. *)
Theorem probability_one_masks_everything
        {Gen Pixels TA : Type} (ext : Externals Gen Pixels TA)
        (config : Config TA) (locals : MainLocals Pixels)
        (batch : Batch Pixels) (g : Gen) (N L : nat) :
  Torch.is_tensor N L (encode (vq_model locals) (pixel_values batch)) ->
  length (class_id batch) = N ->
  (Z.of_nat L <= 2 ^ 24)%Z ->
  exists mi,
    fst (masked_inputs ext config locals batch g) = Ok mi /\
    forall i p,
      nth_error (mask_prob mi) i = Some p ->
      (1 <= p)%Q ->
      exists c tokens_i,
        nth_error (class_id batch) i = Some c /\
        nth_error (encode (vq_model locals) (pixel_values batch)) i
        = Some tokens_i /\
        nth_error (input_ids mi) i
        = Some (Torch.wrap_int64 (c + num_embeddings (vq_model locals))
                :: repeat (mask_id locals) L) /\
        nth_error (labels mi) i = Some (IGNORE_LABEL :: tokens_i).
Proof.
  intros Htok Hcls HL.
  destruct (masked_inputs_image ext config locals batch g N L Htok Hcls)
    as (mi & Hrun & Hmp & _ & _ & Himg).
  exists mi. split; [now rewrite Hrun|].
  intros i p Hp Hge.
  assert (Hlen : length (mask_prob mi) = N).
  { rewrite Hmp, length_map. apply rand_length. }
  assert (Hi : (i < N)%nat)
    by (rewrite <- Hlen; apply nth_error_Some; congruence).
  destruct (Himg i Hi)
    as (trow & c & t & nrow & Htrow & Hc & _ & _ & Hlt & Hln & Hpi & _ & Hin & Hlab).
  rewrite Hp in Hpi. injection Hpi as ->.
  exists c, trow. split; [exact Hc|]. split; [exact Htrow|].
  rewrite Hin, Hlab, (image_mask_full L _ nrow HL Hln Hge), <- Hlt.
  now rewrite zip_with_all_true_left, zip_with_all_true_right.
Qed.

Lemma probability_one_masks_everything_witness :
  exists c tokens_i,
    nth_error [2%Z] 0 = Some c /\
    nth_error [[5; 6; 7; 8]%Z] 0 = Some tokens_i /\
    nth_error [[102; 200; 200; 200; 200]%Z] 0
    = Some (Torch.wrap_int64 (c + 100) :: repeat 200%Z 4) /\
    nth_error [[-100; 5; 6; 7; 8]%Z] 0 = Some (IGNORE_LABEL :: tokens_i).
Proof.
  destruct (probability_one_masks_everything
              (Demo.ext 100 200) (Demo.config 1) (Demo.locals 100 200)
              Demo.batch Demo.tape 1 4) as (mi & Hrun & H).
  - split; [reflexivity | repeat constructor].
  - reflexivity.
  - simpl. lia.
  - assert (E : fst (masked_inputs (Demo.ext 100 200) (Demo.config 1)
                       (Demo.locals 100 200) Demo.batch Demo.tape)
                = Ok {| input_ids := [[102; 200; 200; 200; 200]%Z];
                        labels := [[-100; 5; 6; 7; 8]%Z];
                        mask_prob := [1%Q];
                        mask := [[true; true; true; true]] |})
      by (vm_compute; reflexivity).
    rewrite E in Hrun. injection Hrun as <-.
    apply (H 0%nat 1%Q); [reflexivity|]. unfold Qle. simpl. lia.
Defined.

(** *** The logged averages on a single process *)







(** ** The optimizer *)

(** The learning rate handed to [AdamW] is the configured one, whether
    or not [scale_lr] is set: the scaled rate is computed into the local
    [learning_rate] and the call reads [optimizer_config.learning_rate]; so
    the batch size, the number of processes and the accumulation steps have
    no influence on the optimizer either. *)
Lemma scale_lr_does_not_reach_the_optimizer
        (lr0 b1 b2 wd eps : Q) (flag1 flag2 : bool)
        (batch_size1 processes1 steps1 batch_size2 processes2 steps2 : Z) :
  snd (optimizer_arguments
         {| learning_rate := lr0; scale_lr := flag1; beta1 := b1; beta2 := b2;
            weight_decay := wd; epsilon := eps |}
         batch_size1 processes1 steps1)
  = snd (optimizer_arguments
           {| learning_rate := lr0; scale_lr := flag2; beta1 := b1;
              beta2 := b2; weight_decay := wd; epsilon := eps |}
           batch_size2 processes2 steps2) /\
  adamw_lr (snd (optimizer_arguments
                   {| learning_rate := lr0; scale_lr := true; beta1 := b1;
                      beta2 := b2; weight_decay := wd; epsilon := eps |}
                   batch_size1 processes1 steps1)) = lr0 /\
  fst (optimizer_arguments
         {| learning_rate := lr0; scale_lr := true; beta1 := b1; beta2 := b2;
            weight_decay := wd; epsilon := eps |}
         batch_size1 processes1 steps1)
  = (lr0 * inject_Z batch_size1 * inject_Z processes1 * inject_Z steps1)%Q.
Proof. repeat split. Qed.


(** ** The configuration handed to the trackers *)

Lemma dict_set_fresh {A : Type} (d : list (string * A)) (k : string) (v : A) :
  ~ In k (map fst d) -> dict_set d k v = d ++ [(k, v)].
Proof.
  induction d as [|[k' a] d IH]; simpl; intros H; [reflexivity|].
  destruct (String.eqb_spec k k') as [->|_]; [exfalso; auto|].
  rewrite IH; auto.
Qed.

Lemma fold_dict_set_distinct {A : Type} (pairs acc : list (string * A)) :
  NoDup (map fst (acc ++ pairs)) ->
  fold_left (fun d kv => dict_set d (fst kv) (snd kv)) pairs acc
  = acc ++ pairs.
Proof.
  revert acc. induction pairs as [|[k v] l IH]; intros acc Hnd; simpl.
  - now rewrite app_nil_r.
  - assert (E : acc ++ (k, v) :: l = (acc ++ [(k, v)]) ++ l)
      by (now rewrite <- app_assoc).
    rewrite dict_set_fresh.
    + rewrite E. apply IH. now rewrite <- E.
    + rewrite map_app in Hnd. simpl in Hnd.
      apply NoDup_remove_2 in Hnd. intros Hin. apply Hnd.
      apply in_or_app. now left.
Qed.

Lemma dict_comprehension_distinct {A : Type} (pairs : list (string * A)) :
  NoDup (map fst pairs) -> dict_comprehension pairs = pairs.
Proof. intros H. apply (fold_dict_set_distinct pairs [] H). Qed.

(** X25: the configuration handed to the trackers on the main process.
    Flattening resolves the values: when a read of the configuration
    raises, building the argument raises that exception.  When every read
    returns, a configuration whose dict keys are pairwise different and
    free of dots reaches the trackers whole: the dict built from the
    flattened entries has one entry per plain value, and looking up the
    dotted name of a value's path gives that value. *)
Theorem tracker_configuration_keeps_every_value
        {V : Type} (config : OmegaConf V) :
  is_container config = true ->
  unique_keys config true ->
  plain_keys config true ->
  (forall e, read_error config true = Some e ->
             tracker_configuration true config = Raise e) /\
  (read_error config true = None ->
   exists d,
     tracker_configuration true config = Ok (Some d) /\
     length d = length (leaf_paths config true) /\
     forall path v,
       In (path, v) (leaf_paths config true) ->
       lookup_item (dotted path) d = Some v /\
       select path config true = Some v).
Proof.
  intros Hc Hu Hp. unfold tracker_configuration.
  rewrite (flatten_omega_conf_paths config true Hc).
  split; [intros e ->; reflexivity|]. intros ->. simpl.
  assert (Hnd : NoDup (map fst (entries_of_paths (leaf_paths config true)))).
  { unfold entries_of_paths. rewrite map_map. simpl.
    rewrite <- (map_map fst dotted).
    pose proof (container_paths_nonempty config true Hc) as Hne.
    pose proof (leaf_paths_dot_free config true Hp) as Hdf.
    rewrite Forall_forall in Hne, Hdf.
    apply NoDup_map_in_inj; [|now apply leaf_paths_NoDup].
    intros p q Hpi Hqi Epq. apply in_map_iff in Hpi, Hqi.
    destruct Hpi as (pv & <- & Hpv). destruct Hqi as (qv & <- & Hqv).
    apply dotted_inj; auto. }
  rewrite (dict_comprehension_distinct _ Hnd).
  eexists. split; [reflexivity|]. split.
  - unfold entries_of_paths. apply length_map.
  - intros path v Hin. split; [|now apply leaf_paths_select].
    apply lookup_item_NoDup; [exact Hnd|].
    unfold entries_of_paths. apply in_map_iff. now exists (path, v).
Qed.

Lemma tracker_configuration_keeps_every_value_witness :
  tracker_configuration true Sample.missing_config
  = Raise (MissingMandatoryValue "training.seed") /\
  exists d,
    tracker_configuration true Sample.tracker_config = Ok (Some d) /\
    length d = length (leaf_paths Sample.tracker_config true) /\
    forall path v,
      In (path, v) (leaf_paths Sample.tracker_config true) ->
      lookup_item (dotted path) d = Some v /\
      select path Sample.tracker_config true = Some v.
Proof.
  split.
  - apply (proj1 (tracker_configuration_keeps_every_value
                    Sample.missing_config
                    eq_refl
                    ltac:(simpl; repeat split; repeat constructor; simpl;
                          intuition discriminate)
                    ltac:(simpl; repeat split; repeat constructor))).
    reflexivity.
  - apply (proj2 (tracker_configuration_keeps_every_value
                    Sample.tracker_config
                    eq_refl
                    ltac:(simpl; repeat split; repeat constructor; simpl;
                          intuition discriminate)
                    ltac:(simpl; repeat split; repeat constructor))).
    reflexivity.
Defined.

(** A later entry with the same key replaces the earlier one. *)
Example dict_comprehension_last_wins :
  dict_comprehension [("a.b", 1%Z); ("c", 5%Z); ("a.b", 2%Z)]%string
  = [("a.b", 2%Z); ("c", 5%Z)]%string.
Proof. reflexivity. Qed.


(** ** The training and the evaluation split *)

Lemma contains_lookup {A : Type} (d : list (string * A)) (key : string) :
  contains d key = true <-> exists a, lookup_item key d = Some a.
Proof.
  unfold contains. induction d as [|[k a] d IH]; simpl.
  - split; [discriminate | intros [a H]; discriminate].
  - destruct (String.eqb key k); simpl; [split; eauto|exact IH].
Qed.

Lemma contains_false_lookup {A : Type} (d : list (string * A)) (key : string) :
  contains d key = false <-> lookup_item key d = None.
Proof.
  pose proof (contains_lookup d key) as H.
  destruct (contains d key); destruct (lookup_item key d) as [a|].
  - split; discriminate.
  - destruct (proj1 H eq_refl) as [a E]. discriminate.
  - assert (true = false) by (symmetry; apply H; eauto). discriminate.
  - split; reflexivity.
Qed.

(** X26: which splits are used.  With a "validation" split the evaluation
    runs on it; without one it runs on "test"; with neither, a data set
    that is not streamed has its training split divided and is trained on
    the one part and evaluated on the other, while a streamed data set
    makes [main] raise KeyError for "test"; a missing "train" split is a
    KeyError in every case. *)
Theorem evaluation_split_choice
        {D : Type} (train_test_split : D -> D * D) (streaming : bool)
        (dataset : list (string * D)) (train : D) :
  lookup_item "train" dataset = Some train ->
  (forall validation,
      lookup_item "validation" dataset = Some validation ->
      choose_splits train_test_split streaming dataset
      = Ok (train, validation)) /\
  (forall test,
      lookup_item "validation" dataset = None ->
      lookup_item "test" dataset = Some test ->
      choose_splits train_test_split streaming dataset
      = Ok (train, test)) /\
  (lookup_item "validation" dataset = None ->
   lookup_item "test" dataset = None ->
   choose_splits train_test_split streaming dataset
   = if streaming then Raise (KeyError "test")
     else Ok (train_test_split train)).
Proof.
  intros Htrain. unfold choose_splits. cbv zeta. split; [|split].
  - intros validation Hv.
    assert (Hc : contains dataset "validation" = true)
      by (apply contains_lookup; eauto).
    rewrite Hc. cbv iota. rewrite Hc. cbn [negb andb bind].
    unfold getsplit. now rewrite Htrain, Hv.
  - intros test Hv Ht.
    assert (Hc : contains dataset "validation" = false)
      by (now apply contains_false_lookup).
    assert (Hc' : contains dataset "test" = true)
      by (apply contains_lookup; eauto).
    rewrite Hc. cbv iota. rewrite Hc'. cbn [negb andb bind].
    unfold getsplit. now rewrite Htrain, Ht.
  - intros Hv Ht.
    assert (Hc : contains dataset "validation" = false)
      by (now apply contains_false_lookup).
    assert (Hc' : contains dataset "test" = false)
      by (now apply contains_false_lookup).
    rewrite Hc. cbv iota. rewrite Hc'. unfold getsplit.
    destruct streaming; cbn [negb andb bind].
    + now rewrite Htrain, Ht.
    + rewrite Htrain. cbn [bind].
      destruct (train_test_split train) as [part held_out]. reflexivity.
Qed.

Lemma evaluation_split_choice_witness :
  choose_splits (fun d : list nat => (firstn 2 d, skipn 2 d)) true
                [("train", [1; 2; 3]%nat)]%string
  = Raise (KeyError "test").
Proof.
  apply (proj2 (proj2 (evaluation_split_choice
                         (fun d : list nat => (firstn 2 d, skipn 2 d)) true
                         [("train", [1; 2; 3]%nat)]%string [1; 2; 3]%nat
                         eq_refl)));
    reflexivity.
Defined.

(** X27: a data set without a "train" split raises KeyError for "train",
    whatever other splits it has. *)
Theorem missing_train_split_raises
        {D : Type} (train_test_split : D -> D * D) (streaming : bool)
        (dataset : list (string * D)) :
  lookup_item "train" dataset = None ->
  choose_splits train_test_split streaming dataset = Raise (KeyError "train").
Proof.
  intros Htrain. unfold choose_splits, getsplit. cbv zeta.
  destruct (negb (contains dataset _) && negb streaming); cbn [bind];
    now rewrite Htrain.
Qed.

Lemma missing_train_split_raises_witness :
  choose_splits (fun d : list nat => (firstn 2 d, skipn 2 d)) false
                [("validation", [1; 2; 3]%nat)]%string
  = Raise (KeyError "train").
Proof.
  apply (missing_train_split_raises
           (fun d : list nat => (firstn 2 d, skipn 2 d)) false
           [("validation", [1; 2; 3]%nat)]%string).
  reflexivity.
Defined.
